(** * pyrokinetics: the Miller eXtended Harmonic (MXH) local geometry

    A shallow embedding of [pyrokinetics/local_geometry/mxh.py]
    (class [LocalGeometryMXH]) and the properties of its contour
    processing, harmonic decomposition, fit driver and derivative engine.

    Numbers.  Python floats and numpy float arrays are modelled by the
    real numbers of the Standard Library and by lists of them: rounding,
    infinities and NaN are outside the model.  [np.pi] is [PI], and
    [np.sin], [np.cos], [np.arcsin], [np.arccos] are [sin], [cos], [asin],
    [acos].

    Arrays.  A one-dimensional array is a [list R], a two-dimensional one a
    list of rows.  Element-wise operations pair the elements up.  On shapes
    that do not fit numpy raises [ValueError], and it broadcasts an array
    of one entry; neither is modelled, so every statement that depends on
    the shapes carries them as hypotheses: the coefficient arrays [cn],
    [sn], [dcndr], [dsndr] have [n_moments] entries, as the class builds
    them, and the contour arrays have one length.  Division by a Python
    float that is zero raises [ZeroDivisionError]; statements about a
    quotient carry that the divisor is not zero.

    Effects.  A method is a computation in [M]: it reads and assigns
    attributes of the object, appends to the warnings and to the printed
    lines, and returns or raises.  The exceptions of the source are there:
    the [raise] of a failed fit, the builtins [max], [min] and [np.argmax]
    on an empty argument, and indexing out of range.  The library
    functions [scipy.integrate.simpson] and
    [scipy.optimize.least_squares], the residual of the base class and the
    formatting of floats are parameters; what they raise themselves is not
    modelled.

    Names.  The attribute [self.a] is the field [self_a]; the arguments [R]
    and [Z] of the source are called [Rc] and [Zc] (the contour), because
    [R] and [Z] are number types here. *)

From Stdlib Require Import String Reals Lra Lia Bool Arith List.
Import ListNotations.
Open Scope R_scope.

Set Implicit Arguments.

(** ** numpy and builtins *)

Module Np.

Definition ltb (a b : R) : bool := if Rlt_dec a b then true else false.
Definition leb (a b : R) : bool := if Rle_dec a b then true else false.
Definition gtb (a b : R) : bool := ltb b a.
Definition geb (a b : R) : bool := leb b a.

(** Element-wise combination of two arrays of one shape. *)
Fixpoint map2 {A B C : Type} (f : A -> B -> C) (a : list A) (b : list B)
  : list C :=
  match a, b with
  | x :: a', y :: b' => f x y :: map2 f a' b'
  | _, _ => []
  end.

(** [np.where(c, x, y)] on arrays of one shape. *)
Fixpoint where_ (c : list bool) (x y : list R) : list R :=
  match c, x, y with
  | b :: c', u :: x', v :: y' => (if b then u else v) :: where_ c' x' y'
  | _, _, _ => []
  end.

(** [np.where(c, v, y)] with the scalar [v] broadcast. *)
Definition where_const (c : list bool) (v : R) (y : list R) : list R :=
  map2 (fun (b : bool) u => if b then v else u) c y.

(** Defaults of [np.isclose]. *)
Definition rtol_default : R := 1 / 100000.
Definition atol_default : R := 1 / 100000000.

(** [np.isclose(a, b, rtol, atol)] is
    [absolute(a - b) <= atol + rtol * absolute(b)]. *)
Definition isclose (rtol atol a b : R) : bool :=
  leb (Rabs (a - b)) (atol + rtol * Rabs b).

(** [np.argmax]: the index of the first occurrence of the largest entry,
    found by one scan that keeps the best entry seen so far. *)
Fixpoint argmax_from (best : R) (besti i : nat) (l : list R) : nat :=
  match l with
  | [] => besti
  | v :: l' =>
      if Rlt_dec best v then argmax_from v i (S i) l'
      else argmax_from best besti (S i) l'
  end.

Definition argmax (l : list R) : option nat :=
  match l with
  | [] => None
  | v :: l' => Some (argmax_from v 0 1 l')
  end.

(** The builtins [max] and [min] on a non-empty sequence. *)
Definition max (l : list R) : option R :=
  match l with
  | [] => None
  | v :: l' => Some (fold_left Rmax l' v)
  end.

Definition min (l : list R) : option R :=
  match l with
  | [] => None
  | v :: l' => Some (fold_left Rmin l' v)
  end.

(** [np.outer(a, b)]: row [i] is [a[i] * b]. *)
Definition outer (a b : list R) : list (list R) :=
  map (fun u => map (fun v => u * v) b) a.

(** [np.sum(m, axis=1)]. *)
Definition sum (row : list R) : R := fold_right Rplus 0 row.
Definition sum_axis1 (m : list (list R)) : list R := map sum m.

(** [np.linspace(0, k - 1, k)]: the numbers 0, 1, ..., k - 1. *)
Definition linspace0 (k : nat) : list R := map INR (seq 0 k).

Definition add := map2 Rplus.
Definition sub := map2 Rminus.
Definition mul := map2 Rmult.
Definition neg := map Ropp.
Definition scal (c : R) := map (Rmult c).
Definition shiftc (c : R) := map (Rplus c).

(** A vector against every row of a matrix, as broadcasting does. *)
Definition rows (f : list R -> list R) (m : list (list R)) := map f m.

End Np.

(** ** The object *)

(** The attributes of a [LocalGeometryMXH] that the methods below read or
    write.  [self_fit_R] and [self_fit_Z] are [self.R] and [self.Z]. *)
Record MXH : Type := mkMXH {
  self_rho : R;
  self_r_minor : R;
  self_a_minor : R;
  self_Rmaj : R;
  self_Z0 : R;
  self_kappa : R;
  self_s_kappa : R;
  self_shift : R;
  self_dZ0dr : R;
  self_cn : list R;
  self_sn : list R;
  self_dcndr : list R;
  self_dsndr : list R;
  self_theta_eq : list R;
  self_theta : list R;
  self_thetaR : list R;
  self_dthetaR_dtheta : list R;
  self_dthetaR_dr : list R;
  self_fit_R : list R;
  self_fit_Z : list R
}.

(** The property [n_moments]. *)
Definition n_moments : nat := 4.

(** The property [n]: [np.linspace(0, self.n_moments - 1, self.n_moments)]. *)
Definition self_n : list R := Np.linspace0 n_moments.

(** ** The derivative engine *)

(** The five sums over the harmonics multiply a coefficient array with the
    rows of [ntheta], which have [n_moments] entries.  The definitions are
    those of the source for coefficient arrays of [n_moments] entries; the
    statements about them carry these lengths. *)
Section Engine.

Variable self : MXH.

Definition get_thetaR (theta : list R) : list R :=
  let ntheta := Np.outer theta self_n in
  Np.add theta
    (Np.sum_axis1
       (Np.rows (fun row =>
                   Np.add (Np.mul (self_cn self) (map cos row))
                          (Np.mul (self_sn self) (map sin row)))
                ntheta)).

Definition get_dthetaR_dtheta (theta : list R) : list R :=
  let ntheta := Np.outer theta self_n in
  Np.shiftc 1
    (Np.sum_axis1
       (Np.rows (fun row =>
                   Np.add
                     (Np.mul (Np.mul (Np.neg (self_cn self)) self_n)
                             (map sin row))
                     (Np.mul (Np.mul (self_sn self) self_n)
                             (map cos row)))
                ntheta)).

Definition get_d2thetaR_dtheta2 (theta : list R) : list R :=
  let ntheta := Np.outer theta self_n in
  Np.neg
    (Np.sum_axis1
       (Np.rows (fun row =>
                   Np.mul (map (fun k => k ^ 2) self_n)
                          (Np.add (Np.mul (self_cn self) (map cos row))
                                  (Np.mul (self_sn self) (map sin row))))
                ntheta)).

Definition get_dthetaR_dr (theta dcndr dsndr : list R) : list R :=
  let ntheta := Np.outer theta self_n in
  Np.sum_axis1
    (Np.rows (fun row =>
                Np.add (Np.mul dcndr (map cos row))
                       (Np.mul dsndr (map sin row)))
             ntheta).

Definition get_d2thetaR_drdtheta (theta dcndr dsndr : list R) : list R :=
  let ntheta := Np.outer theta self_n in
  Np.sum_axis1
    (Np.rows (fun row =>
                Np.add
                  (Np.mul (Np.mul (Np.neg self_n) dcndr) (map sin row))
                  (Np.mul (Np.mul self_n dsndr) (map cos row)))
             ntheta).

(** [rmin] of the methods that take [normalised]. *)
Definition rmin_of (normalised : bool) : R :=
  if normalised then self_rho self else self_r_minor self.

Definition get_dZdtheta (theta : list R) (normalised : bool) : list R :=
  let rmin := rmin_of normalised in
  map (fun t => self_kappa self * rmin * cos t) theta.

Definition get_d2Zdtheta2 (theta : list R) (normalised : bool) : list R :=
  let rmin := rmin_of normalised in
  map (fun t => - self_kappa self * rmin * sin t) theta.

Definition get_dZdr (theta : list R) (dZ0dr s_kappa : R) : list R :=
  map (fun t => dZ0dr + self_kappa self * sin t * (1 + s_kappa)) theta.

Definition get_d2Zdrdtheta (theta : list R) (s_kappa : R) : list R :=
  map (fun t => self_kappa self * cos t * (1 + s_kappa)) theta.

Definition get_dRdtheta (thetaR dthetaR_dtheta : list R)
           (normalised : bool) : list R :=
  let rmin := rmin_of normalised in
  Np.map2 (fun tR d => - rmin * sin tR * d) thetaR dthetaR_dtheta.

Definition get_d2Rdtheta2 (thetaR dthetaR_dtheta d2thetaR_dtheta2 : list R)
           (normalised : bool) : list R :=
  let rmin := rmin_of normalised in
  Np.sub
    (Np.map2 (fun tR d2 => - rmin * sin tR * d2) thetaR d2thetaR_dtheta2)
    (Np.map2 (fun d tR => rmin * d ^ 2 * cos tR) dthetaR_dtheta thetaR).

Definition get_dRdr (shift : R) (thetaR dthetaR_dr : list R) : list R :=
  Np.map2 (fun tR d => shift + cos tR - self_rho self * sin tR * d)
          thetaR dthetaR_dr.

Definition get_d2Rdrdtheta
           (thetaR dthetaR_dr dthetaR_dtheta d2thetaR_drdtheta : list R)
  : list R :=
  Np.sub
    (Np.map2 (fun d tR => - d * sin tR) dthetaR_dtheta thetaR)
    (Np.scal (self_rho self)
       (Np.add
          (Np.map2 (fun tR d2 => sin tR * d2) thetaR d2thetaR_drdtheta)
          (Np.map2 (fun dd tR => dd * cos tR)
                   (Np.mul dthetaR_dr dthetaR_dtheta) thetaR))).

(** [get_flux_surface]; the in-place [R *= self.a_minor] acts on the
    arrays just built. *)
Definition get_flux_surface (theta : list R) (normalised : bool)
  : list R * list R :=
  let thetaR := get_thetaR theta in
  let Rs := map (fun tR => self_Rmaj self + self_rho self * cos tR) thetaR in
  let Zs := map (fun t => self_Z0 self
                          + self_kappa self * self_rho self * sin t) theta in
  if negb normalised
  then (map (fun v => v * self_a_minor self) Rs,
        map (fun v => v * self_a_minor self) Zs)
  else (Rs, Zs).

End Engine.

(** ** Exceptions, warnings and the state of the object *)

Inductive exn : Type :=
| ValueError
| IndexError
| Exception (msg : string).

Inductive result (A : Type) : Type :=
| Return (a : A)
| Raise (e : exn).
Arguments Return {A} a.
Arguments Raise {A} e.

(** What a method call can touch: the object, the warnings issued through
    [warnings.warn] and the lines written by [print]. *)
Record world : Type := mkWorld {
  obj : MXH;
  warned : list string;
  printed : list string
}.

Definition M (A : Type) : Type := world -> result A * world.

Definition ret {A} (a : A) : M A := fun w => (Return a, w).

Definition bind {A B} (c : M A) (k : A -> M B) : M B :=
  fun w => match c w with
           | (Return a, w') => k a w'
           | (Raise e, w') => (Raise e, w')
           end.

Definition raise {A} (e : exn) : M A := fun w => (Raise e, w).

Declare Scope mxh_scope.
Delimit Scope mxh_scope with mxh.
Notation "x <- c ;; k" := (bind c (fun x => k))
  (at level 61, c at next level, right associativity) : mxh_scope.
Notation "c ;;; k" := (bind c (fun _ => k))
  (at level 61, right associativity) : mxh_scope.

(** Reading an attribute, or calling a method that only reads. *)
Definition read {A} (f : MXH -> A) : M A := fun w => (Return (f (obj w)), w).

(** Assigning to an attribute. *)
Definition assign (upd : MXH -> MXH) : M unit :=
  fun w => (Return tt, mkWorld (upd (obj w)) (warned w) (printed w)).

Definition warn (msg : string) : M unit :=
  fun w => (Return tt, mkWorld (obj w) (warned w ++ [msg]) (printed w)).

Definition print (msg : string) : M unit :=
  fun w => (Return tt, mkWorld (obj w) (warned w) (printed w ++ [msg])).

(** A builtin that fails on an empty argument. *)
Definition nonempty {A} (o : option A) : M A :=
  match o with Some a => ret a | None => raise ValueError end.

(** [a[i]]. *)
Definition getitem {A} (a : list A) (i : nat) : M A :=
  match nth_error a i with Some v => ret v | None => raise IndexError end.

(** [a[0] = v], and [a[0] += v]. *)
Definition setitem0 (a : list R) (v : R) : M (list R) :=
  match a with [] => raise IndexError | _ :: a' => ret (v :: a') end.

Definition additem0 (a : list R) (v : R) : M (list R) :=
  match a with [] => raise IndexError | u :: a' => ret ((u + v) :: a') end.

(** [a[i:j]] and [a[i:]] never fail. *)
Definition slice {A} (a : list A) (i j : nat) : list A :=
  firstn (j - i) (skipn i a).
Definition slice_from {A} (a : list A) (i : nat) : list A := skipn i a.

(** Assignments to the attributes that [_set_shape_coefficients] writes. *)
Definition set_kappa (v : R) (s : MXH) : MXH :=
  mkMXH (self_rho s) (self_r_minor s) (self_a_minor s) (self_Rmaj s)
    (self_Z0 s) v (self_s_kappa s) (self_shift s) (self_dZ0dr s)
    (self_cn s) (self_sn s) (self_dcndr s) (self_dsndr s) (self_theta_eq s)
    (self_theta s) (self_thetaR s) (self_dthetaR_dtheta s)
    (self_dthetaR_dr s) (self_fit_R s) (self_fit_Z s).
Definition set_s_kappa (v : R) (s : MXH) : MXH :=
  mkMXH (self_rho s) (self_r_minor s) (self_a_minor s) (self_Rmaj s)
    (self_Z0 s) (self_kappa s) v (self_shift s) (self_dZ0dr s)
    (self_cn s) (self_sn s) (self_dcndr s) (self_dsndr s) (self_theta_eq s)
    (self_theta s) (self_thetaR s) (self_dthetaR_dtheta s)
    (self_dthetaR_dr s) (self_fit_R s) (self_fit_Z s).
Definition set_shift (v : R) (s : MXH) : MXH :=
  mkMXH (self_rho s) (self_r_minor s) (self_a_minor s) (self_Rmaj s)
    (self_Z0 s) (self_kappa s) (self_s_kappa s) v (self_dZ0dr s)
    (self_cn s) (self_sn s) (self_dcndr s) (self_dsndr s) (self_theta_eq s)
    (self_theta s) (self_thetaR s) (self_dthetaR_dtheta s)
    (self_dthetaR_dr s) (self_fit_R s) (self_fit_Z s).
Definition set_dZ0dr (v : R) (s : MXH) : MXH :=
  mkMXH (self_rho s) (self_r_minor s) (self_a_minor s) (self_Rmaj s)
    (self_Z0 s) (self_kappa s) (self_s_kappa s) (self_shift s) v
    (self_cn s) (self_sn s) (self_dcndr s) (self_dsndr s) (self_theta_eq s)
    (self_theta s) (self_thetaR s) (self_dthetaR_dtheta s)
    (self_dthetaR_dr s) (self_fit_R s) (self_fit_Z s).
Definition set_cn (v : list R) (s : MXH) : MXH :=
  mkMXH (self_rho s) (self_r_minor s) (self_a_minor s) (self_Rmaj s)
    (self_Z0 s) (self_kappa s) (self_s_kappa s) (self_shift s) (self_dZ0dr s)
    v (self_sn s) (self_dcndr s) (self_dsndr s) (self_theta_eq s)
    (self_theta s) (self_thetaR s) (self_dthetaR_dtheta s)
    (self_dthetaR_dr s) (self_fit_R s) (self_fit_Z s).
Definition set_sn (v : list R) (s : MXH) : MXH :=
  mkMXH (self_rho s) (self_r_minor s) (self_a_minor s) (self_Rmaj s)
    (self_Z0 s) (self_kappa s) (self_s_kappa s) (self_shift s) (self_dZ0dr s)
    (self_cn s) v (self_dcndr s) (self_dsndr s) (self_theta_eq s)
    (self_theta s) (self_thetaR s) (self_dthetaR_dtheta s)
    (self_dthetaR_dr s) (self_fit_R s) (self_fit_Z s).
Definition set_dcndr (v : list R) (s : MXH) : MXH :=
  mkMXH (self_rho s) (self_r_minor s) (self_a_minor s) (self_Rmaj s)
    (self_Z0 s) (self_kappa s) (self_s_kappa s) (self_shift s) (self_dZ0dr s)
    (self_cn s) (self_sn s) v (self_dsndr s) (self_theta_eq s)
    (self_theta s) (self_thetaR s) (self_dthetaR_dtheta s)
    (self_dthetaR_dr s) (self_fit_R s) (self_fit_Z s).
Definition set_dsndr (v : list R) (s : MXH) : MXH :=
  mkMXH (self_rho s) (self_r_minor s) (self_a_minor s) (self_Rmaj s)
    (self_Z0 s) (self_kappa s) (self_s_kappa s) (self_shift s) (self_dZ0dr s)
    (self_cn s) (self_sn s) (self_dcndr s) v (self_theta_eq s)
    (self_theta s) (self_thetaR s) (self_dthetaR_dtheta s)
    (self_dthetaR_dr s) (self_fit_R s) (self_fit_Z s).
Definition set_theta_eq (v : list R) (s : MXH) : MXH :=
  mkMXH (self_rho s) (self_r_minor s) (self_a_minor s) (self_Rmaj s)
    (self_Z0 s) (self_kappa s) (self_s_kappa s) (self_shift s) (self_dZ0dr s)
    (self_cn s) (self_sn s) (self_dcndr s) (self_dsndr s) v
    (self_theta s) (self_thetaR s) (self_dthetaR_dtheta s)
    (self_dthetaR_dr s) (self_fit_R s) (self_fit_Z s).
Definition set_theta (v : list R) (s : MXH) : MXH :=
  mkMXH (self_rho s) (self_r_minor s) (self_a_minor s) (self_Rmaj s)
    (self_Z0 s) (self_kappa s) (self_s_kappa s) (self_shift s) (self_dZ0dr s)
    (self_cn s) (self_sn s) (self_dcndr s) (self_dsndr s) (self_theta_eq s)
    v (self_thetaR s) (self_dthetaR_dtheta s)
    (self_dthetaR_dr s) (self_fit_R s) (self_fit_Z s).
Definition set_thetaR (v : list R) (s : MXH) : MXH :=
  mkMXH (self_rho s) (self_r_minor s) (self_a_minor s) (self_Rmaj s)
    (self_Z0 s) (self_kappa s) (self_s_kappa s) (self_shift s) (self_dZ0dr s)
    (self_cn s) (self_sn s) (self_dcndr s) (self_dsndr s) (self_theta_eq s)
    (self_theta s) v (self_dthetaR_dtheta s)
    (self_dthetaR_dr s) (self_fit_R s) (self_fit_Z s).
Definition set_dthetaR_dtheta (v : list R) (s : MXH) : MXH :=
  mkMXH (self_rho s) (self_r_minor s) (self_a_minor s) (self_Rmaj s)
    (self_Z0 s) (self_kappa s) (self_s_kappa s) (self_shift s) (self_dZ0dr s)
    (self_cn s) (self_sn s) (self_dcndr s) (self_dsndr s) (self_theta_eq s)
    (self_theta s) (self_thetaR s) v
    (self_dthetaR_dr s) (self_fit_R s) (self_fit_Z s).
Definition set_dthetaR_dr (v : list R) (s : MXH) : MXH :=
  mkMXH (self_rho s) (self_r_minor s) (self_a_minor s) (self_Rmaj s)
    (self_Z0 s) (self_kappa s) (self_s_kappa s) (self_shift s) (self_dZ0dr s)
    (self_cn s) (self_sn s) (self_dcndr s) (self_dsndr s) (self_theta_eq s)
    (self_theta s) (self_thetaR s) (self_dthetaR_dtheta s)
    v (self_fit_R s) (self_fit_Z s).
Definition set_fit_RZ (v : list R * list R) (s : MXH) : MXH :=
  mkMXH (self_rho s) (self_r_minor s) (self_a_minor s) (self_Rmaj s)
    (self_Z0 s) (self_kappa s) (self_s_kappa s) (self_shift s) (self_dZ0dr s)
    (self_cn s) (self_sn s) (self_dcndr s) (self_dsndr s) (self_theta_eq s)
    (self_theta s) (self_thetaR s) (self_dthetaR_dtheta s)
    (self_dthetaR_dr s) (fst v) (snd v).

Notation "' p <- c ;; k" :=
  (bind c (fun v => match v with p => k end))
  (at level 61, p pattern, c at next level, right associativity) : mxh_scope.

Open Scope mxh_scope.

(** ** Contour processing and the fit *)

(** What [scipy.optimize.least_squares] returns, as far as it is used. *)
Record OptimizeResult : Type := mkFits {
  fits_x : list R;
  fits_cost : R;
  fits_success : bool;
  fits_message : string
}.

(** The two [np.where(np.isclose(a, +-1.0, atol=...), +-1.0, a)] lines that
    precede each inverse trigonometric function. *)
Definition clamp_unit (atol : R) (a : list R) : list R :=
  let a1 :=
    Np.where_const (map (fun v => Np.isclose Np.rtol_default atol v 1) a)
                   1 a in
  Np.where_const (map (fun v => Np.isclose Np.rtol_default atol v (-1)) a1)
                 (-1) a1.

(** [Zind = np.argmax(abs(Z))] and [R_upper = R[Zind]]. *)
Definition contour_Zind (Zc : list R) : M nat :=
  nonempty (Np.argmax (map Rabs Zc)).

Definition contour_R_upper (Rc Zc : list R) : M R :=
  Zind <- contour_Zind Zc ;;
  getitem Rc Zind.

(** [Zmid = (max(Z) + min(Z)) / 2]. *)
Definition contour_Zmid (Zc : list R) : M R :=
  maxZ <- nonempty (Np.max Zc) ;;
  minZ <- nonempty (Np.min Zc) ;;
  ret ((maxZ + minZ) / 2).

(** The specification's reading of [R_upper], to compare with
    [contour_R_upper]: the index is that of the largest [|Z - Zmid|],
    [np.argmax(abs(Z - Zmid))]. *)
Definition midplane_R_upper (Rc Zc : list R) : M R :=
  Zmid <- contour_Zmid Zc ;;
  Zind <- nonempty (Np.argmax (map (fun z => Rabs (z - Zmid)) Zc)) ;;
  getitem Rc Zind.

(** The normalised height and radius as they enter [arcsin] and [arccos]. *)
Definition normalised_height (kappa r_minor Zmid : R) (Zc : list R) : list R :=
  clamp_unit Np.atol_default
    (map (fun z => (z - Zmid) / (kappa * r_minor)) Zc).

Definition normalised_radius (Rmaj a_minor r_minor : R) (Rc : list R)
  : list R :=
  clamp_unit (1 / 10000)
    (map (fun r => (r - Rmaj * a_minor) / r_minor) Rc).

(** The first part of [_set_shape_coefficients], up to the three
    [np.where] that select the branches: [kappa], [theta], [thetaR]. *)
Definition contour_angles (Rc Zc : list R) : M (R * list R * list R) :=
  maxZ <- nonempty (Np.max Zc) ;;
  minZ <- nonempty (Np.min Zc) ;;
  r_minor <- read self_r_minor ;;
  let kappa := (maxZ - minZ) / (2 * r_minor) in
  Zmid <- contour_Zmid Zc ;;
  R_upper <- contour_R_upper Rc Zc ;;
  let theta := map asin (normalised_height kappa r_minor Zmid Zc) in
  Rmaj <- read self_Rmaj ;;
  a_minor <- read self_a_minor ;;
  let thetaR := map acos (normalised_radius Rmaj a_minor r_minor Rc) in
  let theta :=
    Np.where_ (map (fun r => Np.ltb r R_upper) Rc)
              (map (fun t => PI - t) theta) theta in
  let theta :=
    Np.where_ (Np.map2 andb (map (fun r => Np.geb r R_upper) Rc)
                            (map (fun z => Np.ltb z 0) Zc))
              (map (fun t => 2 * PI + t) theta) theta in
  let thetaR :=
    Np.where_ (map (fun z => Np.ltb z 0) Zc)
              (map (fun t => 2 * PI - t) thetaR) thetaR in
  ret (kappa, theta, thetaR).

(** [if theta[0] > np.pi: theta[0] += -2 * np.pi; thetaR[0] += -2 * np.pi]. *)
Definition wrap_first (theta thetaR : list R) : M (list R * list R) :=
  t0 <- getitem theta 0 ;;
  if Np.gtb t0 PI then
    theta' <- additem0 theta (-2 * PI) ;;
    thetaR' <- additem0 thetaR (-2 * PI) ;;
    ret (theta', thetaR')
  else ret (theta, thetaR).

Section Fit.

(** [scipy.integrate.simpson(y, x)] along one row. *)
Variable simpson : list R -> list R -> R.

(** [scipy.optimize.least_squares(fun, x0)]. *)
Variable least_squares : (list R -> list R) -> list R -> OptimizeResult.

(** The residual [self.minimise_b_poloidal] of the base class
    [LocalGeometry], bound to the object as it is when the solver is
    called. *)
Variable minimise_b_poloidal : MXH -> list R -> list R.

(** The text of a float inside an f-string. *)
Variable str_float : R -> string.

(** The projection on the harmonics: [theta_diff], [ntheta], and the two
    [simpson(..., theta, axis=1) / np.pi]. *)
Definition harmonics (theta thetaR : list R) : list R * list R :=
  let theta_diff := Np.sub thetaR theta in
  let ntheta := Np.outer self_n theta in
  let cn :=
    map (fun y => simpson y theta / PI)
        (Np.rows (fun row => Np.mul theta_diff (map cos row)) ntheta) in
  let sn :=
    map (fun y => simpson y theta / PI)
        (Np.rows (fun row => Np.mul theta_diff (map sin row)) ntheta) in
  (cn, sn).

Definition fit_failed_message (fits : OptimizeResult) : string :=
  ("Least squares fitting in MXH::from_global_eq failed with message : "
   ++ fits_message fits)%string.

Definition fit_verbose_message (fits : OptimizeResult) : string :=
  ("MXH :: Fit to Bpoloidal obtained with residual "
   ++ str_float (fits_cost fits))%string.

Definition fit_poor_message (fits : OptimizeResult) : string :=
  ("Warning Fit to Bpoloidal in MXH::from_global_eq is poor with residual of "
   ++ str_float (fits_cost fits))%string.

(** The part of [_set_shape_coefficients] after the solver has returned. *)
Definition store_fit (verbose : bool) (fits : OptimizeResult) : M unit :=
  (if negb (fits_success fits)
   then raise (Exception (fit_failed_message fits))
   else ret tt) ;;;
  (if verbose then print (fit_verbose_message fits) else ret tt) ;;;
  (if Np.gtb (fits_cost fits) (1 / 10)
   then warn (fit_poor_message fits)
   else ret tt) ;;;
  x0 <- getitem (fits_x fits) 0 ;;
  assign (set_shift x0) ;;;
  x1 <- getitem (fits_x fits) 1 ;;
  assign (set_s_kappa x1) ;;;
  x2 <- getitem (fits_x fits) 2 ;;
  assign (set_dZ0dr x2) ;;;
  assign (set_dcndr (slice (fits_x fits) 3 (n_moments + 3))) ;;;
  assign (set_dsndr (slice_from (fits_x fits) (n_moments + 3))) ;;;
  dsndr <- read self_dsndr ;;
  dsndr' <- setitem0 dsndr 0 ;;
  assign (set_dsndr dsndr') ;;;
  theta <- read self_theta ;;
  dcndr <- read self_dcndr ;;
  dsndr <- read self_dsndr ;;
  assign (set_dthetaR_dr (get_dthetaR_dr theta dcndr dsndr)).

(** The starting point of the solver:
    [[shift, s_kappa_init, 0.0, *[0.0] * self.n_moments * 2]]. *)
Definition initial_params (shift : R) : list R :=
  let s_kappa_init := 0 in
  [shift; s_kappa_init; 0] ++ repeat 0 (n_moments * 2).

(** The part of [_set_shape_coefficients] before the solver is called:
    the contour is turned into angles and harmonics, and the fitted
    surface is evaluated on them. *)
Definition set_shape (Rc Zc : list R) : M unit :=
  ' (kappa, theta, thetaR) <- contour_angles Rc Zc ;;
  ' (theta, thetaR) <- wrap_first theta thetaR ;;
  assign (set_theta_eq theta) ;;;
  let (cn, sn) := harmonics theta thetaR in
  assign (set_kappa kappa) ;;;
  assign (set_sn sn) ;;;
  assign (set_cn cn) ;;;
  assign (set_theta theta) ;;;
  theta <- read self_theta ;;
  thetaR <- read (fun self => get_thetaR self theta) ;;
  assign (set_thetaR thetaR) ;;;
  theta <- read self_theta ;;
  dthetaR_dtheta <- read (fun self => get_dthetaR_dtheta self theta) ;;
  assign (set_dthetaR_dtheta dthetaR_dtheta) ;;;
  theta <- read self_theta ;;
  RZ <- read (fun self => get_flux_surface self theta true) ;;
  assign (set_fit_RZ RZ).

(** [fits = least_squares(self.minimise_b_poloidal, params)]. *)
Definition call_least_squares (shift : R) : M OptimizeResult :=
  residual <- read minimise_b_poloidal ;;
  ret (least_squares residual (initial_params shift)).

Definition _set_shape_coefficients
           (Rc Zc b_poloidal : list R) (verbose : bool) (shift : R)
  : M unit :=
  set_shape Rc Zc ;;;
  fits <- call_least_squares shift ;;
  store_fit verbose fits.

End Fit.

(** ** The derivative bundles *)

(** The first lines of [get_RZ_derivatives]: the shape parameters come
    from the object when [params is None], from [params] otherwise. *)
Definition shape_params (params : option (list R))
  : M (R * R * R * list R * list R) :=
  match params with
  | None =>
      shift <- read self_shift ;;
      s_kappa <- read self_s_kappa ;;
      dZ0dr <- read self_dZ0dr ;;
      dcndr <- read self_dcndr ;;
      dsndr <- read self_dsndr ;;
      ret (shift, s_kappa, dZ0dr, dcndr, dsndr)
  | Some p =>
      shift <- getitem p 0 ;;
      s_kappa <- getitem p 1 ;;
      dZ0dr <- getitem p 2 ;;
      ret (shift, s_kappa, dZ0dr,
           slice p 3 (n_moments + 3), slice_from p (n_moments + 3))
  end.

(** [get_RZ_derivatives(theta, params=None, normalised=False)]. *)
Definition get_RZ_derivatives
           (theta : list R) (params : option (list R)) (normalised : bool)
  : M (list R * list R * list R * list R) :=
  ' (shift, s_kappa, dZ0dr, dcndr, dsndr) <- shape_params params ;;
  thetaR <- read (fun self => get_thetaR self theta) ;;
  let dthetaR_dr := get_dthetaR_dr theta dcndr dsndr in
  dthetaR_dtheta <- read (fun self => get_dthetaR_dtheta self theta) ;;
  dZdtheta <- read (fun self => get_dZdtheta self theta normalised) ;;
  dZdr <- read (fun self => get_dZdr self theta dZ0dr s_kappa) ;;
  dRdtheta <-
    read (fun self => get_dRdtheta self thetaR dthetaR_dtheta normalised) ;;
  dRdr <- read (fun self => get_dRdr self shift thetaR dthetaR_dr) ;;
  ret (dRdtheta, dRdr, dZdtheta, dZdr).

(** [get_RZ_second_derivatives(theta, normalised=False)]. *)
Definition get_RZ_second_derivatives (theta : list R) (normalised : bool)
  : M (list R * list R * list R * list R) :=
  thetaR <- read (fun self => get_thetaR self theta) ;;
  dcndr <- read self_dcndr ;;
  dsndr <- read self_dsndr ;;
  let dthetaR_dr := get_dthetaR_dr theta dcndr dsndr in
  dthetaR_dtheta <- read (fun self => get_dthetaR_dtheta self theta) ;;
  dcndr <- read self_dcndr ;;
  dsndr <- read self_dsndr ;;
  let d2thetaR_drdtheta := get_d2thetaR_drdtheta theta dcndr dsndr in
  d2thetaR_dtheta2 <- read (fun self => get_d2thetaR_dtheta2 self theta) ;;
  d2Zdtheta2 <- read (fun self => get_d2Zdtheta2 self theta normalised) ;;
  s_kappa <- read self_s_kappa ;;
  d2Zdrdtheta <- read (fun self => get_d2Zdrdtheta self theta s_kappa) ;;
  d2Rdtheta2 <-
    read (fun self =>
            get_d2Rdtheta2 self thetaR dthetaR_dtheta d2thetaR_dtheta2
                           normalised) ;;
  d2Rdrdtheta <-
    read (fun self =>
            get_d2Rdrdtheta self thetaR dthetaR_dr dthetaR_dtheta
                            d2thetaR_drdtheta) ;;
  ret (d2Rdtheta2, d2Rdrdtheta, d2Zdtheta2, d2Zdrdtheta).

(** ** Definitions used in the statements *)

(** The harmonic sum of the class docstring, at one angle:
    theta + sum over k of cn[k] cos(k theta) + sn[k] sin(k theta). *)
Definition thetaR_series (cn sn : list R) (t : R) : R :=
  t + Np.sum (map (fun k => nth k cn 0 * cos (INR k * t)
                            + nth k sn 0 * sin (INR k * t))
                  (seq 0 n_moments)).

(** Its first and second derivatives, term by term. *)
Definition dthetaR_series (cn sn : list R) (t : R) : R :=
  1 + Np.sum (map (fun k => - nth k cn 0 * INR k * sin (INR k * t)
                            + nth k sn 0 * INR k * cos (INR k * t))
                  (seq 0 n_moments)).

Definition d2thetaR_series (cn sn : list R) (t : R) : R :=
  - Np.sum (map (fun k => INR k ^ 2 * (nth k cn 0 * cos (INR k * t)
                                       + nth k sn 0 * sin (INR k * t)))
                (seq 0 n_moments)).

(** The radial derivative of the sum, with the radial derivatives of the
    coefficients, and its derivative along theta. *)
Definition dthetaR_dr_series (dcndr dsndr : list R) (t : R) : R :=
  Np.sum (map (fun k => nth k dcndr 0 * cos (INR k * t)
                        + nth k dsndr 0 * sin (INR k * t))
              (seq 0 n_moments)).

Definition d2thetaR_drdtheta_series (dcndr dsndr : list R) (t : R) : R :=
  Np.sum (map (fun k => - INR k * nth k dcndr 0 * sin (INR k * t)
                        + INR k * nth k dsndr 0 * cos (INR k * t))
              (seq 0 n_moments)).

(** Replacement by +1 or -1 within a tolerance [tol] of them. *)
Definition clamp_to_unit (tol x : R) : R :=
  if Rle_dec (Rabs (x - 1)) tol then 1
  else if Rle_dec (Rabs (x + 1)) tol then -1
  else x.

(** The tolerances that [np.isclose] applies around +-1: [atol + rtol * 1]. *)
Definition height_tolerance : R := 1 / 100000000 + 1 / 100000.
Definition radius_tolerance : R := 1 / 10000 + 1 / 100000.

(** The object after [set_shape] has stored [kappa], the angles and their
    harmonics. *)
Definition shaped (kappa : R) (theta cn sn : list R) (s : MXH) : MXH :=
  let s := set_theta_eq theta s in
  let s := set_kappa kappa s in
  let s := set_sn sn s in
  let s := set_cn cn s in
  let s := set_theta theta s in
  let s := set_thetaR (get_thetaR s (self_theta s)) s in
  let s := set_dthetaR_dtheta (get_dthetaR_dtheta s (self_theta s)) s in
  set_fit_RZ (get_flux_surface s (self_theta s) true) s.

(** The object after [store_fit] has stored the solution [x]. *)
Definition fitted (x : list R) (s : MXH) : MXH :=
  let s := set_shift (nth 0 x 0) s in
  let s := set_s_kappa (nth 1 x 0) s in
  let s := set_dZ0dr (nth 2 x 0) s in
  let s := set_dcndr (slice x 3 (n_moments + 3)) s in
  let s := set_dsndr (0 :: tl (slice_from x (n_moments + 3))) s in
  set_dthetaR_dr
    (get_dthetaR_dr (self_theta s) (self_dcndr s) (self_dsndr s)) s.

(** A four-point contour around (3, 0) that starts at its lowest point,
    and an object with [r_minor = 1], [Rmaj = 3], [a_minor = 1]. *)
Definition diamond_R : list R := [3; 4; 3; 2].
Definition diamond_Z : list R := [-1; 0; 1; 0].

Definition unit_self : MXH :=
  mkMXH 1 1 1 3 0 1 0 0 0 [0; 0; 0; 0] [0; 0; 0; 0] [0; 0; 0; 0]
        [0; 0; 0; 0] [] [] [] [] [] [] [].

Definition unit_world : world := mkWorld unit_self [] [].

(** A contour that lies mostly below Z = 0: its highest point (3, 1) comes
    first, its lowest point (5, -3) third. *)
Definition lowered_R : list R := [3; 4; 5; 2].
Definition lowered_Z : list R := [1; 0; -3; 0].

(** An object away from the unit values, with [rho = 1/2], [r_minor = 2],
    [a_minor = 4], [kappa = 3] and harmonics that are not zero. *)
Definition wide_self : MXH :=
  mkMXH (1 / 2) 2 4 3 0 3 0 0 0 [1; 2; 3; 4] [5; 6; 7; 8] [1; 1; 1; 1]
        [0; 2; 2; 2] [] [] [] [] [] [] [].

Definition wide_world : world := mkWorld wide_self [] [].

(** The same object with coefficient arrays that are too short for the
    shaping properties. *)
Definition short_world : world :=
  mkWorld (set_sn [5] (set_dsndr [7; 8] wide_self)) [] [].

(** A parameter vector for [wide_self], and the four arrays that a call
    returned (none when it raised). *)
Definition wide_params : list R := [1; 2; 3; 1; 2; 3; 4; 5; 6; 7; 8].

Definition returned_arrays {S : Type}
           (r : result (list R * list R * list R * list R) * S)
  : list R * list R * list R * list R :=
  match fst r with
  | Return v => v
  | Raise _ => ([], [], [], [])
  end.

(** Solvers for the examples: one that accepts its starting point with a
    given cost, one that gives up with a given cost. *)
Definition accepting_solver (c : R) (f : list R -> list R) (x0 : list R)
  : OptimizeResult :=
  mkFits x0 c true "`gtol` termination condition is satisfied.".

Definition failing_solver (c : R) (f : list R -> list R) (x0 : list R)
  : OptimizeResult :=
  mkFits x0 c false "The maximum number of function evaluations is exceeded.".

(** The trapezoidal rule stands in for the quadrature in the examples. *)
Fixpoint trapezoid (y x : list R) : R :=
  match y, x with
  | y0 :: ((y1 :: _) as y'), x0 :: ((x1 :: _) as x') =>
      (x1 - x0) * (y0 + y1) / 2 + trapezoid y' x'
  | _, _ => 0
  end.

Definition zero_residual (self : MXH) (params : list R) : list R :=
  map (fun _ => 0) (self_theta self).

Definition plain_float (v : R) : string := "<float>".

(** ** The shaping properties of the object *)

(** [a[i] = v]. *)
Definition setitem (a : list R) (i : nat) (v : R) : M (list R) :=
  if (i <? length a)%nat
  then ret (firstn i a ++ v :: skipn (S i) a)
  else raise IndexError.

(** The property [delta] is [np.sin(self.sn[1])]; its setter does
    [self.sn[1] = np.arcsin(value)]. *)
Definition delta : M R :=
  sn <- read self_sn ;;
  sn1 <- getitem sn 1 ;;
  ret (sin sn1).

Definition delta_setter (value : R) : M unit :=
  sn <- read self_sn ;;
  sn' <- setitem sn 1 (asin value) ;;
  assign (set_sn sn').

(** The property [s_delta] is
    [self.dsndr[1] * np.sqrt(1 - self.delta**2) * self.rho]; its setter does
    [self.dsndr[1] = value / np.sqrt(1 - self.delta**2) / self.rho]. *)
Definition s_delta : M R :=
  dsndr <- read self_dsndr ;;
  dsndr1 <- getitem dsndr 1 ;;
  d <- delta ;;
  rho <- read self_rho ;;
  ret (dsndr1 * sqrt (1 - d ^ 2) * rho).

Definition s_delta_setter (value : R) : M unit :=
  d <- delta ;;
  rho <- read self_rho ;;
  dsndr <- read self_dsndr ;;
  dsndr' <- setitem dsndr 1 (value / sqrt (1 - d ^ 2) / rho) ;;
  assign (set_dsndr dsndr').

(** The property [zeta] is [-self["sn"][2]]; its setter does
    [self["sn"][2] = -value].  The item ["sn"] of the object is its
    attribute [sn]: the class keeps its data in the dictionary it is. *)
Definition zeta : M R :=
  sn <- read self_sn ;;
  sn2 <- getitem sn 2 ;;
  ret (- sn2).

Definition zeta_setter (value : R) : M unit :=
  sn <- read self_sn ;;
  sn' <- setitem sn 2 (- value) ;;
  assign (set_sn sn').

(** The property [s_zeta] is [-self.dsndr[2] * self.rho]; its setter does
    [self.dsndr[2] = -value / self.rho]. *)
Definition s_zeta : M R :=
  dsndr <- read self_dsndr ;;
  dsndr2 <- getitem dsndr 2 ;;
  rho <- read self_rho ;;
  ret (- dsndr2 * rho).

(** The quotient [-value / self.rho] is taken before the store; it is the
    quotient of the source for [rho] other than zero. *)
Definition s_zeta_setter (value : R) : M unit :=
  rho <- read self_rho ;;
  dsndr <- read self_dsndr ;;
  dsndr' <- setitem dsndr 2 (- value / rho) ;;
  assign (set_dsndr dsndr').

(** An object whose radius, major radius, elongation, midplane and
    harmonics are those of [s] with the given values in their place: the
    surface at another radius. *)
Definition at_radius (s : MXH) (rho Rmaj Z0 kappa : R) (cn sn : list R)
  : MXH :=
  mkMXH rho (self_r_minor s) (self_a_minor s) Rmaj Z0 kappa
        (self_s_kappa s) (self_shift s) (self_dZ0dr s) cn sn
        (self_dcndr s) (self_dsndr s) (self_theta_eq s) (self_theta s)
        (self_thetaR s) (self_dthetaR_dtheta s) (self_dthetaR_dr s)
        (self_fit_R s) (self_fit_Z s).

(** The four first derivatives at one angle, as [get_RZ_derivatives]
    returns them from the stored parameters; an exception reads as zeros. *)
Definition first_derivatives_at (w : world) (normalised : bool) (u : R)
  : R * R * R * R :=
  match fst (get_RZ_derivatives [u] None normalised w) with
  | Return (dRdtheta, dRdr, dZdtheta, dZdr) =>
      (nth 0 dRdtheta 0, nth 0 dRdr 0, nth 0 dZdtheta 0, nth 0 dZdr 0)
  | Raise _ => (0, 0, 0, 0)
  end.

(** ** The helpers of the tests *)

(** The outcome of a function that only asserts. *)
Inductive check : Type :=
| Passed
| AssertionError (msg : string).

(** [assert_within_ten_percent] of [tests/equilibrium/test_equilibrium.py].
    When the smaller modulus is 0 and the values differ, the quotient by it
    is infinite and the comparison with 0.1 is false. *)
Definition assert_within_ten_percent (key : string) (cdf_value gq_value : R)
  : check :=
  let difference := Rabs (cdf_value - gq_value) in
  let smallest_value := Rmin (Rabs cdf_value) (Rabs gq_value) in
  if Req_EM_T smallest_value 0 then
    if Req_EM_T difference 0 then Passed
    else AssertionError (key ++ " not within 10 percent")
  else
    if Rlt_dec (difference / smallest_value) (5 / 10) then Passed
    else AssertionError (key ++ " not within 10 percent").

(** The analytic expressions for a circular equilibrium of
    [tests/local_geometry/test_metric_terms.py]. *)
Definition circle_d2alphadrdtheta
           (dqdr q D mu0dPdr r R0 dpsidr X theta : R) : R :=
  dqdr * D / (X + cos theta)
  + (mu0dPdr * (r ^ 2) * R0 / (dpsidr ^ 2))
    * (q * D / (r * X))
    * (X + cos theta - X * D / (X + cos theta))
  - (2 * q * D / r)
    * (cos theta / ((X + cos theta) ^ 2)
       + (1 / D ^ 2) / (X + cos theta)).

Definition circle_dalphadr
           (dqdr q D mu0dPdr r R0 dpsidr X theta : R) : R :=
  let A := 2 * atan (sqrt ((X - 1) / (X + 1)) * tan (theta / 2)) in
  dqdr * A
  + (mu0dPdr * (r ^ 2) * R0 / (dpsidr ^ 2))
    * (q * D / (r * X))
    * (X * theta + sin theta - X * A)
  - (2 * q / r) * (X / D) * sin theta / (X + cos theta).

(** ** Facts about the numpy functions *)

Lemma ltb_true (a b : R) : a < b -> Np.ltb a b = true.
Proof. intros H. unfold Np.ltb. destruct (Rlt_dec a b); [reflexivity | lra]. Qed.





Lemma map2_map_same {A B} (f : A -> A -> B) (g h : R -> A) (l : list R) :
  Np.map2 f (map g l) (map h l) = map (fun v => f (g v) (h v)) l.
Proof. induction l as [|x l IH]; simpl; [reflexivity | now rewrite IH]. Qed.

Lemma map2_map_right {A B} (f : A -> A -> B) (h : A -> A) (l : list A) :
  Np.map2 f l (map h l) = map (fun v => f v (h v)) l.
Proof. induction l as [|x l IH]; simpl; [reflexivity | now rewrite IH]. Qed.

Lemma fold_max_spec (l : list R) (v : R) :
  In (fold_left Rmax l v) (v :: l)
  /\ forall u, In u (v :: l) -> u <= fold_left Rmax l v.
Proof.
  revert v. induction l as [|x l IH]; intros v; simpl.
  - split; [now left | intros u [Hu | []]; subst; lra].
  - destruct (IH (Rmax v x)) as [Hin Hub]. split.
    + destruct Hin as [Hin | Hin]; [| now right; right].
      unfold Rmax in Hin at 1. destruct (Rle_dec v x); rewrite <- Hin; auto.
    + intros u [Hu | [Hu | Hu]]; subst.
      * apply Rle_trans with (Rmax u x); [apply Rmax_l | apply Hub; now left].
      * apply Rle_trans with (Rmax v u); [apply Rmax_r | apply Hub; now left].
      * apply Hub. now right.
Qed.

Lemma fold_min_spec (l : list R) (v : R) :
  In (fold_left Rmin l v) (v :: l)
  /\ forall u, In u (v :: l) -> fold_left Rmin l v <= u.
Proof.
  revert v. induction l as [|x l IH]; intros v; simpl.
  - split; [now left | intros u [Hu | []]; subst; lra].
  - destruct (IH (Rmin v x)) as [Hin Hlb]. split.
    + destruct Hin as [Hin | Hin]; [| now right; right].
      unfold Rmin in Hin at 1. destruct (Rle_dec v x); rewrite <- Hin; auto.
    + intros u [Hu | [Hu | Hu]]; subst.
      * apply Rle_trans with (Rmin u x); [apply Hlb; now left | apply Rmin_l].
      * apply Rle_trans with (Rmin v u); [apply Hlb; now left | apply Rmin_r].
      * apply Hlb. now right.
Qed.

Lemma argmax_from_spec (l pre : list R) (best : R) (besti : nat) :
  nth_error pre besti = Some best ->
  (forall v, In v pre -> v <= best) ->
  exists b,
    nth_error (pre ++ l) (Np.argmax_from best besti (length pre) l) = Some b
    /\ forall v, In v (pre ++ l) -> v <= b.
Proof.
  revert pre best besti.
  induction l as [|x l IH]; intros pre best besti Hnth Hub; simpl.
  - exists best. rewrite app_nil_r. auto.
  - replace (pre ++ x :: l) with ((pre ++ [x]) ++ l)
      by (now rewrite <- app_assoc).
    replace (S (length pre)) with (length (pre ++ [x]))
      by (rewrite length_app; simpl; lia).
    destruct (Rlt_dec best x) as [Hlt | Hge].
    + apply IH.
      * rewrite nth_error_app2 by lia. now rewrite Nat.sub_diag.
      * intros v Hv. apply in_app_or in Hv.
        destruct Hv as [Hv | [Hv | []]]; [| subst; lra].
        specialize (Hub v Hv). lra.
    + apply IH.
      * rewrite nth_error_app1; [assumption |].
        apply nth_error_Some. congruence.
      * intros v Hv. apply in_app_or in Hv.
        destruct Hv as [Hv | [Hv | []]]; [auto | subst; lra].
Qed.

Lemma argmax_spec (l : list R) :
  l <> [] ->
  exists j b,
    Np.argmax l = Some j /\ nth_error l j = Some b
    /\ forall v, In v l -> v <= b.
Proof.
  destruct l as [|x l]; [congruence | intros _].
  destruct (@argmax_from_spec l [x] x 0%nat) as [b [Hb Hub]].
  - reflexivity.
  - intros v [Hv | []]. subst. lra.
  - exists (Np.argmax_from x 0 1 l), b. simpl in *. auto.
Qed.

(** ** The extremum that gives [R_upper] *)

(** An entry of largest modulus between the bounds [lo] and [hi] is as far
    from their mean as any entry can be. *)
Lemma largest_modulus_is_extremal (lo hi zj zi : R) :
  lo <= zi <= hi -> lo <= zj <= hi ->
  Rabs hi <= Rabs zj -> Rabs lo <= Rabs zj ->
  Rabs (zi - (hi + lo) / 2) <= Rabs (zj - (hi + lo) / 2).
Proof.
  unfold Rabs. intros Hi Hj Hhi Hlo.
  repeat match goal with
         | |- context [Rcase_abs ?v] => destruct (Rcase_abs v)
         | H : context [Rcase_abs ?v] |- _ => destruct (Rcase_abs v)
         end; lra.
Qed.

Lemma run_nonempty {A} (o : option A) (a : A) (w : world) :
  o = Some a -> nonempty o w = (Return a, w).
Proof. intros ->. reflexivity. Qed.

Lemma run_getitem {A} (l : list A) (i : nat) (a : A) (w : world) :
  nth_error l i = Some a -> getitem l i w = (Return a, w).
Proof. intros H. unfold getitem. now rewrite H. Qed.

Lemma run_bind {A B} (c : M A) (k : A -> M B) (a : A) (w w' : world) :
  c w = (Return a, w') -> bind c k w = k a w'.
Proof. intros H. unfold bind. now rewrite H. Qed.



Lemma contour_Zmid_run (Zc : list R) (w : world) :
  Zc <> [] ->
  exists lo hi,
    contour_Zmid Zc w = (Return ((hi + lo) / 2), w)
    /\ Np.max Zc = Some hi /\ Np.min Zc = Some lo
    /\ In hi Zc /\ In lo Zc
    /\ forall z, In z Zc -> lo <= z <= hi.
Proof.
  destruct Zc as [|z0 Zc]; [congruence | intros _].
  destruct (fold_max_spec Zc z0) as [Hmax_in Hmax].
  destruct (fold_min_spec Zc z0) as [Hmin_in Hmin].
  exists (fold_left Rmin Zc z0), (fold_left Rmax Zc z0).
  repeat split; auto.
Qed.

Lemma R_upper_index_exists (Rc Zc : list R) :
  Zc <> [] -> length Rc = length Zc ->
  exists j ru,
    Np.argmax (map Rabs Zc) = Some j /\ nth_error Rc j = Some ru.
Proof.
  intros Hne Hlen.
  destruct (@argmax_spec (map Rabs Zc)) as (j & b & Harg & Hj & _).
  { destruct Zc; [congruence | discriminate]. }
  assert (Hjlt : (j < length Rc)%nat).
  { rewrite Hlen, <- (length_map Rabs). apply nth_error_Some. congruence. }
  destruct (nth_error Rc j) as [ru|] eqn:HR.
  - now exists j, ru.
  - apply nth_error_None in HR. lia.
Qed.

Ltac absurd_R := try lra; try (exfalso; lra).

(** Comparisons whose operands contain no comparison are decided first. *)
Ltac plain_R a :=
  lazymatch a with
  | context [Rlt_dec _ _] => fail
  | context [Rle_dec _ _] => fail
  | context [Rcase_abs _] => fail
  | _ => idtac
  end.

Ltac decide_R :=
  repeat match goal with
         | |- context [Rlt_dec ?a ?b] =>
             plain_R a; plain_R b; destruct (Rlt_dec a b); absurd_R
         | |- context [Rle_dec ?a ?b] =>
             plain_R a; plain_R b; destruct (Rle_dec a b); absurd_R
         | |- context [Rcase_abs ?a] =>
             plain_R a; destruct (Rcase_abs a); absurd_R
         end.

(** The scan of [np.argmax] stops at the first occurrence: every entry
    before the index it returns is strictly smaller. *)
Lemma argmax_from_first (l pre : list R) (best : R) (besti : nat) :
  nth_error pre besti = Some best ->
  (forall v, In v pre -> v <= best) ->
  (forall i v, (i < besti)%nat -> nth_error pre i = Some v -> v < best) ->
  exists b,
    nth_error (pre ++ l) (Np.argmax_from best besti (length pre) l) = Some b
    /\ (forall v, In v (pre ++ l) -> v <= b)
    /\ forall i v,
        (i < Np.argmax_from best besti (length pre) l)%nat ->
        nth_error (pre ++ l) i = Some v -> v < b.
Proof.
  revert pre best besti.
  induction l as [|x l IH]; intros pre best besti Hnth Hub Hfirst; simpl.
  - exists best. rewrite app_nil_r. auto.
  - assert (Hlt_pre : (besti < length pre)%nat)
      by (apply nth_error_Some; congruence).
    replace (pre ++ x :: l) with ((pre ++ [x]) ++ l)
      by (now rewrite <- app_assoc).
    replace (S (length pre)) with (length (pre ++ [x]))
      by (rewrite length_app; simpl; lia).
    destruct (Rlt_dec best x) as [Hlt | Hge].
    + apply IH.
      * rewrite nth_error_app2 by lia. now rewrite Nat.sub_diag.
      * intros v Hv. apply in_app_or in Hv.
        destruct Hv as [Hv | [Hv | []]]; [| subst; lra].
        specialize (Hub v Hv). lra.
      * intros i v Hi Hv. rewrite nth_error_app1 in Hv by exact Hi.
        apply nth_error_In in Hv. specialize (Hub v Hv). lra.
    + apply IH.
      * rewrite nth_error_app1; [assumption | exact Hlt_pre].
      * intros v Hv. apply in_app_or in Hv.
        destruct Hv as [Hv | [Hv | []]]; [auto | subst; lra].
      * intros i v Hi Hv. rewrite nth_error_app1 in Hv by lia.
        exact (Hfirst i v Hi Hv).
Qed.

Lemma argmax_first (l : list R) :
  l <> [] ->
  exists j b,
    Np.argmax l = Some j /\ nth_error l j = Some b
    /\ (forall v, In v l -> v <= b)
    /\ forall i v, (i < j)%nat -> nth_error l i = Some v -> v < b.
Proof.
  destruct l as [|x l]; [congruence | intros _].
  destruct (@argmax_from_first l [x] x 0%nat) as (b & Hb & Hub & Hfirst).
  - reflexivity.
  - intros v [Hv | []]. subst. lra.
  - intros i v Hi. lia.
  - exists (Np.argmax_from x 0 1 l), b. simpl in *. auto.
Qed.

(** An entry of largest modulus between the bounds is one of the bounds. *)
Lemma largest_modulus_is_bound (lo hi zj : R) :
  lo <= zj <= hi -> Rabs hi <= Rabs zj -> Rabs lo <= Rabs zj ->
  zj = hi \/ zj = lo.
Proof.
  unfold Rabs. intros Hj Hhi Hlo.
  repeat match goal with
         | H : context [Rcase_abs ?v] |- _ => destruct (Rcase_abs v)
         end; lra.
Qed.

(** C2: [R_upper] is the [R] value at the first contour index where [|Z|]
    is largest: the index is [np.argmax(abs(Z))], so the height is measured
    from Z = 0 and not from the midplane
    [Zmid = (max(Z) + min(Z)) / 2].  That index is a highest or a lowest
    point of the contour, where [|Z - Zmid|] is largest as well. *)
Theorem R_upper_at_first_largest_modulus (Rc Zc : list R) (w : world) :
  Zc <> [] -> length Rc = length Zc ->
  exists Zind lo hi R_upper,
    contour_Zind Zc w = (Return Zind, w)
    /\ Np.min Zc = Some lo /\ Np.max Zc = Some hi
    /\ contour_Zmid Zc w = (Return ((hi + lo) / 2), w)
    /\ contour_R_upper Rc Zc w = (Return R_upper, w)
    /\ nth_error Rc Zind = Some R_upper
    /\ (Zind < length Zc)%nat
    /\ (forall i, (i < length Zc)%nat ->
                  Rabs (nth i Zc 0) <= Rabs (nth Zind Zc 0))
    /\ (forall i, (i < Zind)%nat ->
                  Rabs (nth i Zc 0) < Rabs (nth Zind Zc 0))
    /\ (nth Zind Zc 0 = hi \/ nth Zind Zc 0 = lo)
    /\ forall i, (i < length Zc)%nat ->
                 Rabs (nth i Zc 0 - (hi + lo) / 2)
                 <= Rabs (nth Zind Zc 0 - (hi + lo) / 2).
Proof.
  intros Hne Hlen.
  destruct (contour_Zmid_run w Hne)
    as (lo & hi & Hmid & Hmax & Hmin & Hhi & Hlo & Hbd).
  destruct (@argmax_first (map Rabs Zc)) as (j & b & Harg & Hj & Hub & Hfirst).
  { destruct Zc; [congruence | discriminate]. }
  assert (Hjlt : (j < length Zc)%nat).
  { rewrite <- (length_map Rabs). apply nth_error_Some. congruence. }
  destruct (nth_error Rc j) as [ru|] eqn:HR.
  2:{ apply nth_error_None in HR. lia. }
  assert (Hentry : forall i, (i < length Zc)%nat ->
                     nth_error (map Rabs Zc) i = Some (Rabs (nth i Zc 0))).
  { intros i Hi. rewrite nth_error_map.
    now rewrite (nth_error_nth' _ 0 Hi). }
  assert (Hb : b = Rabs (nth j Zc 0)).
  { rewrite (Hentry j Hjlt) in Hj. congruence. }
  exists j, lo, hi, ru.
  assert (HZind : contour_Zind Zc w = (Return j, w)).
  { unfold contour_Zind. now apply run_nonempty. }
  assert (Hhij : Rabs hi <= Rabs (nth j Zc 0))
    by (rewrite <- Hb; apply Hub, in_map, Hhi).
  assert (Hloj : Rabs lo <= Rabs (nth j Zc 0))
    by (rewrite <- Hb; apply Hub, in_map, Hlo).
  split; [exact HZind |].
  split; [exact Hmin |]. split; [exact Hmax |]. split; [exact Hmid |].
  split.
  { unfold contour_R_upper. erewrite run_bind by exact HZind.
    now apply run_getitem. }
  split; [exact HR |]. split; [exact Hjlt |].
  split; [| split; [| split]].
  - intros i Hi. rewrite <- Hb. apply Hub.
    apply in_map, nth_In, Hi.
  - intros i Hi. rewrite <- Hb.
    apply (Hfirst i); [exact Hi | apply Hentry; lia].
  - apply largest_modulus_is_bound; [apply Hbd, nth_In, Hjlt | | ]; assumption.
  - intros i Hi.
    apply largest_modulus_is_extremal; try assumption.
    + apply Hbd, nth_In, Hi.
    + apply Hbd, nth_In, Hjlt.
Qed.

Lemma R_upper_at_first_largest_modulus_witness :
  lowered_Z <> []
  /\ length lowered_R = length lowered_Z
  /\ exists Zind lo hi R_upper,
      contour_Zind lowered_Z wide_world = (Return Zind, wide_world)
      /\ Np.min lowered_Z = Some lo /\ Np.max lowered_Z = Some hi
      /\ contour_R_upper lowered_R lowered_Z wide_world
         = (Return R_upper, wide_world)
      /\ nth_error lowered_R Zind = Some R_upper
      /\ (forall i, (i < Zind)%nat ->
                    Rabs (nth i lowered_Z 0) < Rabs (nth Zind lowered_Z 0)).
Proof.
  assert (Hne : lowered_Z <> []) by discriminate.
  split; [exact Hne | split; [reflexivity |]].
  destruct (@R_upper_at_first_largest_modulus
              lowered_R lowered_Z wide_world Hne eq_refl)
    as (Zind & lo & hi & ru & HZ & Hmin & Hmax & _ & HR & Hnth & _ & _
        & Hfirst & _).
  exists Zind, lo, hi, ru. repeat split; assumption.
Defined.

Lemma lowered_moduli :
  map Rabs lowered_Z = [1; 0; 3; 0].
Proof.
  unfold lowered_Z. cbn [map]. unfold Rabs. decide_R.
  repeat f_equal; lra.
Qed.

Lemma lowered_Zmid (w : world) :
  contour_Zmid lowered_Z w = (Return (-1), w).
Proof.
  unfold contour_Zmid, lowered_Z, bind, nonempty, ret. cbn [Np.max Np.min fold_left].
  unfold Rmax, Rmin. decide_R. do 2 f_equal. lra.
Qed.

Lemma lowered_distances :
  map (fun z => Rabs (z - -1)) lowered_Z = [2; 1; 2; 1].
Proof.
  unfold lowered_Z. cbn [map]. unfold Rabs. decide_R.
  repeat f_equal; lra.
Qed.

(** On a contour whose lowest point is farther from Z = 0 than its
    highest, [R_upper] is taken at the lowest point (R = 5); the first
    index of largest [|Z - Zmid|] is the highest point (R = 3). *)
Lemma R_upper_measured_from_zero :
  contour_R_upper lowered_R lowered_Z unit_world = (Return 5, unit_world)
  /\ midplane_R_upper lowered_R lowered_Z unit_world
     = (Return 3, unit_world)
  /\ contour_R_upper lowered_R lowered_Z unit_world
     <> midplane_R_upper lowered_R lowered_Z unit_world.
Proof.
  assert (Hcode : contour_R_upper lowered_R lowered_Z unit_world
                  = (Return 5, unit_world)).
  { unfold contour_R_upper, contour_Zind. rewrite lowered_moduli.
    unfold bind, nonempty, ret, getitem. cbn [Np.argmax Np.argmax_from].
    decide_R. reflexivity. }
  assert (Hspec : midplane_R_upper lowered_R lowered_Z unit_world
                  = (Return 3, unit_world)).
  { unfold midplane_R_upper.
    rewrite (@run_bind _ _ (contour_Zmid lowered_Z) _ _ _ _
                       (lowered_Zmid unit_world)).
    rewrite lowered_distances.
    unfold bind, nonempty, ret, getitem. cbn [Np.argmax Np.argmax_from].
    decide_R. reflexivity. }
  split; [exact Hcode | split; [exact Hspec |]].
  rewrite Hcode, Hspec. intros H. injection H as H. lra.
Qed.

(** ** Clamping before the inverse trigonometric functions *)

Lemma where_const_map (f : R -> bool) (v : R) (a : list R) :
  Np.where_const (map f a) v a = map (fun u => if f u then v else u) a.
Proof.
  unfold Np.where_const.
  induction a as [|x a IH]; simpl; [reflexivity | now rewrite IH].
Qed.

Lemma isclose_plus_one (atol v : R) :
  Np.isclose Np.rtol_default atol v 1
  = Np.leb (Rabs (v - 1)) (atol + Np.rtol_default).
Proof. unfold Np.isclose. now rewrite Rabs_R1, Rmult_1_r. Qed.

Lemma isclose_minus_one (atol v : R) :
  Np.isclose Np.rtol_default atol v (-1)
  = Np.leb (Rabs (v + 1)) (atol + Np.rtol_default).
Proof.
  unfold Np.isclose.
  replace (v - -1) with (v + 1) by lra.
  replace (Rabs (-1)) with 1; [now rewrite Rmult_1_r |].
  unfold Rabs. decide_R.
Qed.

Lemma clamp_unit_pointwise (atol : R) (a : list R) :
  atol + Np.rtol_default < 2 ->
  clamp_unit atol a = map (clamp_to_unit (atol + Np.rtol_default)) a.
Proof.
  intros Htol. unfold clamp_unit.
  rewrite !where_const_map, map_map.
  apply map_ext. intros v.
  rewrite isclose_plus_one.
  unfold clamp_to_unit, Np.leb.
  destruct (Rle_dec (Rabs (v - 1)) (atol + Np.rtol_default)) as [H1 | H1].
  - rewrite isclose_minus_one. unfold Np.leb.
    destruct (Rle_dec (Rabs (1 + 1)) (atol + Np.rtol_default)) as [H2 | H2];
      [| reflexivity].
    exfalso. revert H2. unfold Rabs. decide_R.
  - rewrite isclose_minus_one. unfold Np.leb.
    destruct (Rle_dec (Rabs (v + 1)) (atol + Np.rtol_default));
      reflexivity.
Qed.

Lemma clamp_to_unit_cases (tol x : R) :
  0 <= tol < 1 ->
  (clamp_to_unit tol x = 1 <-> Rabs (x - 1) <= tol)
  /\ (clamp_to_unit tol x = -1 <-> Rabs (x + 1) <= tol)
  /\ (tol < Rabs (x - 1) -> tol < Rabs (x + 1) -> clamp_to_unit tol x = x).
Proof.
  intros Htol. unfold clamp_to_unit.
  destruct (Rle_dec (Rabs (x - 1)) tol) as [H1 | H1];
    [| destruct (Rle_dec (Rabs (x + 1)) tol) as [H2 | H2]].
  - repeat split; intros; try tauto; try lra.
    revert H1 H. unfold Rabs. decide_R.
  - repeat split; intros; try tauto; try lra.
  - repeat split; intros; try tauto; try lra.
    + subst x. exfalso. apply H1. replace (1 - 1) with 0 by lra.
      rewrite Rabs_R0. lra.
    + subst x. exfalso. apply H2. replace (-1 + 1) with 0 by lra.
      rewrite Rabs_R0. lra.
Qed.

(** C7, as amended: the normalised height is replaced by +1 or -1
    exactly when it is within [1e-8 + 1e-5] of them, the normalised radius
    exactly when it is within [1e-4 + 1e-5]: [np.isclose] adds its default
    relative tolerance [1e-5 * |+-1|] to the absolute one.  Values outside
    both bands are left as they are, and the band of the height is the
    narrower one. *)
Theorem clamp_tolerances
        (kappa r_minor Zmid Rmaj a_minor : R) (Rc Zc : list R) :
  normalised_height kappa r_minor Zmid Zc
  = map (fun z => clamp_to_unit height_tolerance
                    ((z - Zmid) / (kappa * r_minor))) Zc
  /\ normalised_radius Rmaj a_minor r_minor Rc
     = map (fun r => clamp_to_unit radius_tolerance
                       ((r - Rmaj * a_minor) / r_minor)) Rc
  /\ (forall x,
         (clamp_to_unit height_tolerance x = 1
          <-> Rabs (x - 1) <= 1 / 100000000 + 1 / 100000)
         /\ (clamp_to_unit height_tolerance x = -1
             <-> Rabs (x + 1) <= 1 / 100000000 + 1 / 100000)
         /\ (1 / 100000000 + 1 / 100000 < Rabs (x - 1) ->
             1 / 100000000 + 1 / 100000 < Rabs (x + 1) ->
             clamp_to_unit height_tolerance x = x))
  /\ (forall x,
         (clamp_to_unit radius_tolerance x = 1
          <-> Rabs (x - 1) <= 1 / 10000 + 1 / 100000)
         /\ (clamp_to_unit radius_tolerance x = -1
             <-> Rabs (x + 1) <= 1 / 10000 + 1 / 100000)
         /\ (1 / 10000 + 1 / 100000 < Rabs (x - 1) ->
             1 / 10000 + 1 / 100000 < Rabs (x + 1) ->
             clamp_to_unit radius_tolerance x = x))
  /\ height_tolerance < radius_tolerance.
Proof.
  split; [| split; [| split; [| split]]].
  - unfold normalised_height. rewrite clamp_unit_pointwise, map_map.
    + reflexivity.
    + unfold Np.atol_default, Np.rtol_default. lra.
  - unfold normalised_radius. rewrite clamp_unit_pointwise, map_map.
    + reflexivity.
    + unfold Np.rtol_default. lra.
  - intros x. apply clamp_to_unit_cases. unfold height_tolerance. lra.
  - intros x. apply clamp_to_unit_cases. unfold radius_tolerance. lra.
  - unfold height_tolerance, radius_tolerance. lra.
Qed.

(** On a contour with [max(Z) = 1], [min(Z) = -1] and [r_minor = 1] (so
    [kappa = 1] and [Zmid = 0]), the point at height 0.999995 gets the
    normalised height 1 although it is 5e-6 away from 1, far more than
    1e-8. *)
Lemma height_clamped_beyond_1e8 :
  contour_Zmid [-1; 999995 / 1000000; 1] unit_world
  = (Return ((1 + -1) / 2), unit_world)
  /\ normalised_height ((1 - -1) / (2 * 1)) 1 ((1 + -1) / 2)
                       [-1; 999995 / 1000000; 1]
     = [-1; 1; 1]
  /\ ~ Rabs (999995 / 1000000 - 1) <= 1 / 100000000.
Proof.
  split; [| split].
  - unfold contour_Zmid, bind, nonempty, ret. simpl.
    unfold Rmax, Rmin. decide_R. reflexivity.
  - unfold normalised_height. rewrite clamp_unit_pointwise
      by (unfold Np.atol_default, Np.rtol_default; lra).
    simpl. unfold clamp_to_unit, Np.atol_default, Np.rtol_default, Rabs.
    repeat f_equal; decide_R.
  - unfold Rabs. decide_R.
Qed.

(** ** Running the contour processing *)

Lemma contour_angles_run
      (Rc Zc : list R) (w : world) (lo hi ru : R) (j : nat) :
  Np.max Zc = Some hi -> Np.min Zc = Some lo ->
  Np.argmax (map Rabs Zc) = Some j -> nth_error Rc j = Some ru ->
  contour_angles Rc Zc w
  = (Return
       (let r_minor := self_r_minor (obj w) in
        let kappa := (hi - lo) / (2 * r_minor) in
        let theta :=
          map asin (normalised_height kappa r_minor ((hi + lo) / 2) Zc) in
        let thetaR :=
          map acos (normalised_radius (self_Rmaj (obj w))
                                      (self_a_minor (obj w)) r_minor Rc) in
        (kappa,
         Np.where_
           (Np.map2 andb (map (fun r => Np.geb r ru) Rc)
                         (map (fun z => Np.ltb z 0) Zc))
           (map (fun t => 2 * PI + t)
                (Np.where_ (map (fun r => Np.ltb r ru) Rc)
                           (map (fun t => PI - t) theta) theta))
           (Np.where_ (map (fun r => Np.ltb r ru) Rc)
                      (map (fun t => PI - t) theta) theta),
         Np.where_ (map (fun z => Np.ltb z 0) Zc)
                   (map (fun t => 2 * PI - t) thetaR) thetaR)),
     w).
Proof.
  intros Hmax Hmin Harg HR.
  unfold contour_angles, contour_Zmid, contour_R_upper, contour_Zind.
  unfold bind, read, ret. rewrite Hmax, Hmin, Harg. simpl.
  unfold getitem. rewrite HR. reflexivity.
Qed.

Lemma diamond_heights :
  normalised_height ((1 - -1) / (2 * 1)) 1 ((1 + -1) / 2) diamond_Z
  = [-1; 0; 1; 0].
Proof.
  unfold normalised_height. rewrite clamp_unit_pointwise
    by (unfold Np.atol_default, Np.rtol_default; lra).
  simpl.
  replace ((-1 - (1 + -1) / 2) / ((1 - -1) / (2 * 1) * 1)) with (-1) by lra.
  replace ((0 - (1 + -1) / 2) / ((1 - -1) / (2 * 1) * 1)) with 0 by lra.
  replace ((1 - (1 + -1) / 2) / ((1 - -1) / (2 * 1) * 1)) with 1 by lra.
  unfold clamp_to_unit, Np.atol_default, Np.rtol_default, Rabs.
  repeat f_equal; decide_R.
Qed.

Lemma diamond_radii :
  normalised_radius 3 1 1 diamond_R = [0; 1; 0; -1].
Proof.
  unfold normalised_radius. rewrite clamp_unit_pointwise
    by (unfold Np.rtol_default; lra).
  simpl.
  replace ((3 - 3 * 1) / 1) with 0 by lra.
  replace ((4 - 3 * 1) / 1) with 1 by lra.
  replace ((2 - 3 * 1) / 1) with (-1) by lra.
  unfold clamp_to_unit, Np.rtol_default, Rabs.
  repeat f_equal; decide_R.
Qed.

Lemma asin_m1 : asin (-1) = - (PI / 2).
Proof. change (-1) with (- (1)). now rewrite asin_opp, asin_1. Qed.

Lemma acos_m1 : acos (-1) = PI.
Proof. change (-1) with (- (1)). rewrite acos_opp, acos_1. lra. Qed.

Lemma diamond_angles :
  contour_angles diamond_R diamond_Z unit_world
  = (Return (1, [3 * PI / 2; 0; PI / 2; PI], [3 * PI / 2; 0; PI / 2; PI]),
     unit_world).
Proof.
  rewrite (@contour_angles_run diamond_R diamond_Z unit_world (-1) 1 3 0%nat).
  - cbv zeta. change (self_r_minor (obj unit_world)) with 1.
    change (self_Rmaj (obj unit_world)) with 3.
    change (self_a_minor (obj unit_world)) with 1.
    rewrite diamond_heights, diamond_radii. simpl.
    unfold Np.geb, Np.ltb, Np.leb. decide_R. simpl.
    rewrite asin_m1, asin_0, asin_1, acos_0, acos_1, acos_m1.
    replace ((1 - -1) / (2 * 1)) with 1 by lra.
    replace (2 * PI + - (PI / 2)) with (3 * PI / 2) by lra.
    replace (2 * PI - PI / 2) with (3 * PI / 2) by lra.
    replace (PI - 0) with PI by lra.
    reflexivity.
  - simpl. unfold Rmax. decide_R. reflexivity.
  - simpl. unfold Rmin. decide_R. reflexivity.
  - simpl. unfold Rabs. decide_R. reflexivity.
  - reflexivity.
Qed.

(** ** Running the fit *)

Lemma contour_angles_ok (Rc Zc : list R) (w : world) :
  Zc <> [] -> length Rc = length Zc ->
  exists kappa th thR,
    contour_angles Rc Zc w = (Return (kappa, th, thR), w)
    /\ th <> [] /\ thR <> [].
Proof.
  intros Hne Hlen.
  destruct (contour_Zmid_run w Hne) as (lo & hi & _ & Hmax & Hmin & _).
  destruct (@R_upper_index_exists Rc Zc Hne Hlen) as (j & ru & Harg & HR).
  rewrite (@contour_angles_run Rc Zc w lo hi ru j Hmax Hmin Harg HR). cbv zeta.
  do 3 eexists. split; [reflexivity |].
  destruct Zc as [|z Zc]; [congruence |].
  destruct Rc as [|r Rc]; [discriminate |].
  split; unfold normalised_height, normalised_radius, clamp_unit,
         Np.where_const; simpl; discriminate.
Qed.

Lemma wrap_first_ok (th thR : list R) (w : world) :
  th <> [] -> thR <> [] ->
  exists th' thR', wrap_first th thR w = (Return (th', thR'), w).
Proof.
  destruct th as [|t th]; [congruence |].
  destruct thR as [|tR thR]; [congruence |]. intros _ _.
  unfold wrap_first, bind, getitem, additem0, ret. simpl.
  destruct (Np.gtb t PI); eauto.
Qed.

Section FitFacts.

Variable simpson : list R -> list R -> R.
Variable least_squares : (list R -> list R) -> list R -> OptimizeResult.
Variable minimise_b_poloidal : MXH -> list R -> list R.
Variable str_float : R -> string.

Lemma set_shape_run
      (Rc Zc : list R) (w : world) (kappa : R) (th thR th' thR' : list R) :
  contour_angles Rc Zc w = (Return (kappa, th, thR), w) ->
  wrap_first th thR w = (Return (th', thR'), w) ->
  set_shape simpson Rc Zc w
  = (Return tt,
     mkWorld (shaped kappa th' (fst (harmonics simpson th' thR'))
                     (snd (harmonics simpson th' thR')) (obj w))
             (warned w) (printed w)).
Proof.
  intros Hang Hwrap. unfold set_shape.
  rewrite (@run_bind _ _ (contour_angles Rc Zc) _ _ w w Hang).
  rewrite (@run_bind _ _ (wrap_first th thR) _ _ w w Hwrap).
  destruct (harmonics simpson th' thR') as [cn sn].
  reflexivity.
Qed.

Lemma set_shape_ok (Rc Zc : list R) (w : world) :
  Zc <> [] -> length Rc = length Zc ->
  exists w1,
    set_shape simpson Rc Zc w = (Return tt, w1)
    /\ warned w1 = warned w /\ printed w1 = printed w.
Proof.
  intros Hne Hlen.
  destruct (@contour_angles_ok Rc Zc w Hne Hlen) as (kappa & th & thR & Hang & H1 & H2).
  destruct (@wrap_first_ok th thR w H1 H2) as (th' & thR' & Hwrap).
  eexists. split; [exact (@set_shape_run Rc Zc w kappa th thR th' thR' Hang Hwrap) |].
  split; reflexivity.
Qed.

Lemma fit_run (Rc Zc b : list R) (verbose : bool) (shift : R) (w w1 : world) :
  set_shape simpson Rc Zc w = (Return tt, w1) ->
  _set_shape_coefficients simpson least_squares minimise_b_poloidal
                          str_float Rc Zc b verbose shift w
  = store_fit str_float verbose
      (least_squares (minimise_b_poloidal (obj w1)) (initial_params shift))
      w1.
Proof.
  intros H. unfold _set_shape_coefficients.
  rewrite (@run_bind _ _ (set_shape simpson Rc Zc) _ _ w w1 H). reflexivity.
Qed.

Lemma store_fit_failure (verbose : bool) (fits : OptimizeResult) (w : world) :
  fits_success fits = false ->
  store_fit str_float verbose fits w
  = (Raise (Exception (fit_failed_message fits)), w).
Proof. intros H. unfold store_fit, bind. rewrite H. reflexivity. Qed.

Lemma store_fit_success (verbose : bool) (fits : OptimizeResult) (w : world) :
  fits_success fits = true ->
  (n_moments + 3 < length (fits_x fits))%nat ->
  store_fit str_float verbose fits w
  = (Return tt,
     mkWorld (fitted (fits_x fits) (obj w))
             (warned w ++ (if Np.gtb (fits_cost fits) (1 / 10)
                           then [fit_poor_message str_float fits] else []))
             (printed w ++ (if verbose
                            then [fit_verbose_message str_float fits]
                            else []))).
Proof.
  intros Hs Hlen. unfold store_fit. rewrite Hs.
  destruct w as [s wn pr].
  destruct (fits_x fits) as [|x0 [|x1 [|x2 [|x3 [|x4 [|x5 [|x6 [|x7 x]]]]]]]]
    eqn:Hx; simpl in Hlen; try lia.
  unfold bind, getitem, setitem0, assign, read, ret, warn, print, raise.
  simpl. unfold fitted. simpl.
  destruct verbose, (Np.gtb (fits_cost fits) (1 / 10)); simpl;
    rewrite ?app_nil_r; reflexivity.
Qed.

End FitFacts.

(** ** The shift of the first sample *)

(** C1, as amended: if the first theta sample exceeds pi, the first
    element of theta and the first element of thetaR are shifted by -2 pi;
    every later element of both sequences is left as it is. *)
Theorem wrap_shifts_first_sample_only
        (theta thetaR : list R) (w : world) (t0 tR0 : R) :
  nth_error theta 0 = Some t0 -> nth_error thetaR 0 = Some tR0 ->
  t0 > PI ->
  exists theta' thetaR',
    wrap_first theta thetaR w = (Return (theta', thetaR'), w)
    /\ nth_error theta' 0 = Some (t0 - 2 * PI)
    /\ nth_error thetaR' 0 = Some (tR0 - 2 * PI)
    /\ length theta' = length theta
    /\ length thetaR' = length thetaR
    /\ forall i, (0 < i)%nat ->
                 nth_error theta' i = nth_error theta i
                 /\ nth_error thetaR' i = nth_error thetaR i.
Proof.
  intros Ht HtR Hgt.
  destruct theta as [|a theta]; [discriminate |].
  destruct thetaR as [|b thetaR]; [discriminate |].
  simpl in Ht, HtR. injection Ht as ->. injection HtR as ->.
  exists ((t0 + -2 * PI) :: theta), ((tR0 + -2 * PI) :: thetaR).
  split; [| split; [| split; [| split; [| split]]]].
  - unfold wrap_first, bind, getitem, additem0, ret. simpl.
    unfold Np.gtb. now rewrite ltb_true by lra.
  - simpl. f_equal. lra.
  - simpl. f_equal. lra.
  - reflexivity.
  - reflexivity.
  - intros [|i] Hi; [lia |]. split; reflexivity.
Qed.

Lemma wrap_shifts_first_sample_only_witness :
  nth_error [5; 6] 0 = Some 5
  /\ 5 > PI
  /\ exists theta' thetaR',
      wrap_first [5; 6] [5; 6] unit_world
      = (Return (theta', thetaR'), unit_world)
      /\ nth_error theta' 0 = Some (5 - 2 * PI)
      /\ nth_error thetaR' 0 = Some (5 - 2 * PI)
      /\ length theta' = length [5; 6]
      /\ length thetaR' = length [5; 6]
      /\ forall i, (0 < i)%nat ->
                   nth_error theta' i = nth_error [5; 6] i
                   /\ nth_error thetaR' i = nth_error [5; 6] i.
Proof.
  assert (H5 : 5 > PI) by (pose proof PI_4; lra).
  split; [reflexivity | split; [exact H5 |]].
  apply (@wrap_shifts_first_sample_only [5; 6] [5; 6] unit_world 5 5);
    [reflexivity | reflexivity | exact H5].
Defined.

(** The diamond contour starts at its lowest point, so its first theta is
    3 pi / 2 > pi.  After the shift the sequences start at - pi / 2, and
    the samples 0, pi / 2 and pi that follow are where they were: they are
    not shifted by -2 pi. *)
Lemma wrap_leaves_later_samples :
  contour_angles diamond_R diamond_Z unit_world
  = (Return (1, [3 * PI / 2; 0; PI / 2; PI], [3 * PI / 2; 0; PI / 2; PI]),
     unit_world)
  /\ 3 * PI / 2 > PI
  /\ wrap_first [3 * PI / 2; 0; PI / 2; PI] [3 * PI / 2; 0; PI / 2; PI]
                unit_world
     = (Return ([- PI / 2; 0; PI / 2; PI], [- PI / 2; 0; PI / 2; PI]),
        unit_world)
  /\ [- PI / 2; 0; PI / 2; PI]
     <> map (fun t => t - 2 * PI) [3 * PI / 2; 0; PI / 2; PI]
  /\ exists w1,
      set_shape trapezoid diamond_R diamond_Z unit_world = (Return tt, w1)
      /\ self_theta_eq (obj w1) = [- PI / 2; 0; PI / 2; PI].
Proof.
  pose proof PI_RGT_0 as Hpi.
  assert (Hwrap :
            wrap_first [3 * PI / 2; 0; PI / 2; PI]
                       [3 * PI / 2; 0; PI / 2; PI] unit_world
            = (Return ([- PI / 2; 0; PI / 2; PI], [- PI / 2; 0; PI / 2; PI]),
               unit_world)).
  { unfold wrap_first, bind, getitem, additem0, ret. simpl.
    unfold Np.gtb. rewrite ltb_true by lra.
    replace (3 * PI / 2 + -2 * PI) with (- PI / 2) by lra. reflexivity. }
  split; [exact diamond_angles | split; [lra | split; [exact Hwrap | split]]].
  - simpl. intros H. injection H as _ H0 _ _. lra.
  - eexists. split;
      [exact (@set_shape_run trapezoid diamond_R diamond_Z unit_world _ _ _
                             _ _ diamond_angles Hwrap) |].
    reflexivity.
Qed.

(** ** The outcome of the fit *)

Lemma fitted_dsndr (x : list R) (s : MXH) :
  self_dsndr (fitted x s) = 0 :: tl (slice_from x (n_moments + 3)).
Proof. reflexivity. Qed.


Lemma tl_skipn {A} (k : nat) (x : list A) : tl (skipn k x) = skipn (S k) x.
Proof.
  revert x. induction k as [|k IH]; intros [|v x]; try reflexivity.
  change (tl (skipn k x) = skipn (S k) x). apply IH.
Qed.

(** C3: after every fit that the solver reports as successful, the
    stored [dsndr[0]] is exactly 0, whatever the solver returned in that
    component.  ([least_squares] returns a solution [x] of the shape of
    its starting point, here 3 + 2 * n_moments numbers.) *)
Theorem dsndr0_zero_after_successful_fit
        (simpson : list R -> list R -> R)
        (least_squares : (list R -> list R) -> list R -> OptimizeResult)
        (minimise_b_poloidal : MXH -> list R -> list R)
        (str_float : R -> string)
        (Rc Zc b_poloidal : list R) (verbose : bool) (shift : R) (w : world) :
  Zc <> [] -> length Rc = length Zc ->
  exists w1,
    set_shape simpson Rc Zc w = (Return tt, w1)
    /\ let fits :=
         least_squares (minimise_b_poloidal (obj w1)) (initial_params shift) in
       fits_success fits = true ->
       length (fits_x fits) = length (initial_params shift) ->
       exists w2,
         _set_shape_coefficients simpson least_squares minimise_b_poloidal
                                 str_float Rc Zc b_poloidal verbose shift w
         = (Return tt, w2)
         /\ nth_error (self_dsndr (obj w2)) 0 = Some 0
         /\ self_dsndr (obj w2) = 0 :: skipn (n_moments + 4) (fits_x fits).
Proof.
  intros Hne Hlen.
  destruct (@set_shape_ok simpson Rc Zc w Hne Hlen) as (w1 & Hset & _ & _).
  exists w1. split; [exact Hset |]. intros fits Hs Hx.
  rewrite (@fit_run simpson least_squares minimise_b_poloidal str_float
                    Rc Zc b_poloidal verbose shift w w1 Hset).
  fold fits.
  rewrite store_fit_success; [| exact Hs | rewrite Hx; simpl; lia].
  eexists. split; [reflexivity |]. simpl obj. rewrite fitted_dsndr.
  split; [reflexivity |]. f_equal. apply tl_skipn.
Qed.

Lemma dsndr0_zero_after_successful_fit_witness :
  diamond_Z <> []
  /\ length diamond_R = length diamond_Z
  /\ exists w2,
      _set_shape_coefficients trapezoid (accepting_solver 0) zero_residual
                              plain_float diamond_R diamond_Z [] false 0
                              unit_world
      = (Return tt, w2)
      /\ nth_error (self_dsndr (obj w2)) 0 = Some 0.
Proof.
  assert (Hne : diamond_Z <> []) by discriminate.
  split; [exact Hne | split; [reflexivity |]].
  destruct (@dsndr0_zero_after_successful_fit
              trapezoid (accepting_solver 0) zero_residual plain_float
              diamond_R diamond_Z [] false 0 unit_world Hne eq_refl)
    as (w1 & _ & Hfit).
  destruct (Hfit eq_refl eq_refl) as (w2 & Hrun & H0 & _).
  exists w2. split; [exact Hrun | exact H0].
Defined.

(** C8: when the solver reports success and the cost exceeds 0.1, one
    warning is issued through [warnings.warn], nothing is raised, and the
    fitted parameters [shift], [s_kappa], [dZ0dr], [dcndr] and [dsndr] are
    stored from the solution. *)
Theorem poor_fit_warns_and_stores
        (simpson : list R -> list R -> R)
        (least_squares : (list R -> list R) -> list R -> OptimizeResult)
        (minimise_b_poloidal : MXH -> list R -> list R)
        (str_float : R -> string)
        (Rc Zc b_poloidal : list R) (verbose : bool) (shift : R) (w : world) :
  Zc <> [] -> length Rc = length Zc ->
  exists w1,
    set_shape simpson Rc Zc w = (Return tt, w1)
    /\ let fits :=
         least_squares (minimise_b_poloidal (obj w1)) (initial_params shift) in
       fits_success fits = true ->
       length (fits_x fits) = length (initial_params shift) ->
       fits_cost fits > 1 / 10 ->
       exists w2,
         _set_shape_coefficients simpson least_squares minimise_b_poloidal
                                 str_float Rc Zc b_poloidal verbose shift w
         = (Return tt, w2)
         /\ warned w2 = warned w ++ [fit_poor_message str_float fits]
         /\ self_shift (obj w2) = nth 0 (fits_x fits) 0
         /\ self_s_kappa (obj w2) = nth 1 (fits_x fits) 0
         /\ self_dZ0dr (obj w2) = nth 2 (fits_x fits) 0
         /\ self_dcndr (obj w2) = firstn n_moments (skipn 3 (fits_x fits))
         /\ self_dsndr (obj w2) = 0 :: skipn (n_moments + 4) (fits_x fits).
Proof.
  intros Hne Hlen.
  destruct (@set_shape_ok simpson Rc Zc w Hne Hlen) as (w1 & Hset & Hw & _).
  exists w1. split; [exact Hset |]. intros fits Hs Hx Hcost.
  rewrite (@fit_run simpson least_squares minimise_b_poloidal str_float
                    Rc Zc b_poloidal verbose shift w w1 Hset).
  fold fits.
  rewrite store_fit_success; [| exact Hs | rewrite Hx; simpl; lia].
  eexists. split; [reflexivity |].
  unfold Np.gtb. rewrite ltb_true by lra. rewrite Hw.
  split; [reflexivity |].
  simpl obj. rewrite fitted_dsndr.
  repeat split. f_equal. apply tl_skipn.
Qed.

Lemma poor_fit_warns_and_stores_witness :
  diamond_Z <> []
  /\ length diamond_R = length diamond_Z
  /\ exists w2,
      _set_shape_coefficients trapezoid (accepting_solver 5) zero_residual
                              plain_float diamond_R diamond_Z [] false 2
                              unit_world
      = (Return tt, w2)
      /\ warned w2
         = ["Warning Fit to Bpoloidal in MXH::from_global_eq is poor with residual of <float>"%string]
      /\ self_shift (obj w2) = 2
      /\ self_dsndr (obj w2) = [0; 0; 0; 0].
Proof.
  assert (Hne : diamond_Z <> []) by discriminate.
  split; [exact Hne | split; [reflexivity |]].
  destruct (@poor_fit_warns_and_stores
              trapezoid (accepting_solver 5) zero_residual plain_float
              diamond_R diamond_Z [] false 2 unit_world Hne eq_refl)
    as (w1 & _ & Hfit).
  assert (Hcost : 5 > 1 / 10) by lra.
  destruct (Hfit eq_refl eq_refl Hcost)
    as (w2 & Hrun & Hwarn & Hshift & _ & _ & _ & Hds).
  exists w2. repeat split; assumption.
Defined.

(** C4, as amended: whenever the solver reports failure, the fit raises
    an exception whose text is the fixed prefix followed by the solver's
    message; it reaches the caller at once, with no warning, no second call
    of the solver and none of the fitted parameters stored.  The residual
    cost is not part of the exception. *)
Theorem failed_fit_raises_solver_message
        (simpson : list R -> list R -> R)
        (least_squares : (list R -> list R) -> list R -> OptimizeResult)
        (minimise_b_poloidal : MXH -> list R -> list R)
        (str_float : R -> string)
        (Rc Zc b_poloidal : list R) (verbose : bool) (shift : R) (w : world) :
  Zc <> [] -> length Rc = length Zc ->
  exists w1,
    set_shape simpson Rc Zc w = (Return tt, w1)
    /\ warned w1 = warned w
    /\ printed w1 = printed w
    /\ let fits :=
         least_squares (minimise_b_poloidal (obj w1)) (initial_params shift) in
       fits_success fits = false ->
       _set_shape_coefficients simpson least_squares minimise_b_poloidal
                               str_float Rc Zc b_poloidal verbose shift w
       = (Raise
            (Exception
               ("Least squares fitting in MXH::from_global_eq failed with message : "
                ++ fits_message fits)%string),
          w1).
Proof.
  intros Hne Hlen.
  destruct (@set_shape_ok simpson Rc Zc w Hne Hlen) as (w1 & Hset & Hw & Hp).
  exists w1. repeat split; try assumption. intros fits Hs.
  rewrite (@fit_run simpson least_squares minimise_b_poloidal str_float
                    Rc Zc b_poloidal verbose shift w w1 Hset).
  fold fits. now rewrite store_fit_failure.
Qed.

Lemma failed_fit_raises_solver_message_witness :
  diamond_Z <> []
  /\ length diamond_R = length diamond_Z
  /\ fst (_set_shape_coefficients trapezoid (failing_solver 5) zero_residual
                                  plain_float diamond_R diamond_Z [] false 0
                                  unit_world)
     = Raise
         (Exception
            "Least squares fitting in MXH::from_global_eq failed with message : The maximum number of function evaluations is exceeded.").
Proof.
  assert (Hne : diamond_Z <> []) by discriminate.
  split; [exact Hne | split; [reflexivity |]].
  destruct (@failed_fit_raises_solver_message
              trapezoid (failing_solver 5) zero_residual plain_float
              diamond_R diamond_Z [] false 0 unit_world Hne eq_refl)
    as (w1 & _ & _ & _ & Hfit).
  rewrite (Hfit eq_refl). reflexivity.
Defined.

(** Two fits of the diamond contour that fail with the costs 1 and 2
    raise the same exception: the cost cannot be read off the error. *)
Lemma failure_does_not_carry_cost :
  fits_cost (failing_solver 1 (zero_residual unit_self) (initial_params 0)) = 1
  /\ fits_cost (failing_solver 2 (zero_residual unit_self) (initial_params 0))
     = 2
  /\ fst (_set_shape_coefficients trapezoid (failing_solver 1) zero_residual
                                  plain_float diamond_R diamond_Z [] false 0
                                  unit_world)
     = Raise
         (Exception
            "Least squares fitting in MXH::from_global_eq failed with message : The maximum number of function evaluations is exceeded.")
  /\ fst (_set_shape_coefficients trapezoid (failing_solver 2) zero_residual
                                  plain_float diamond_R diamond_Z [] false 0
                                  unit_world)
     = Raise
         (Exception
            "Least squares fitting in MXH::from_global_eq failed with message : The maximum number of function evaluations is exceeded.")
  /\ ~ (exists cost_of : result unit -> R,
          forall c,
            cost_of (fst (_set_shape_coefficients
                            trapezoid (failing_solver c) zero_residual
                            plain_float diamond_R diamond_Z [] false 0
                            unit_world))
            = c).
Proof.
  assert (Hne : diamond_Z <> []) by discriminate.
  assert (Hrun : forall c,
             fst (_set_shape_coefficients
                    trapezoid (failing_solver c) zero_residual plain_float
                    diamond_R diamond_Z [] false 0 unit_world)
             = Raise
                 (Exception
                    "Least squares fitting in MXH::from_global_eq failed with message : The maximum number of function evaluations is exceeded.")).
  { intros c.
    destruct (@set_shape_ok trapezoid diamond_R diamond_Z unit_world
                            Hne eq_refl) as (w1 & Hset & _ & _).
    rewrite (@fit_run trapezoid (failing_solver c) zero_residual plain_float
                      diamond_R diamond_Z [] false 0 unit_world w1 Hset).
    now rewrite store_fit_failure. }
  split; [reflexivity | split; [reflexivity | split; [| split]]].
  - apply Hrun.
  - apply Hrun.
  - intros [cost_of Hc].
    pose proof (Hc 1) as H1. pose proof (Hc 2) as H2.
    rewrite Hrun in H1, H2. lra.
Qed.

(** ** The harmonic decomposition *)



(** ** The derivative bundle and the stored state *)

(** C9: evaluating the R/Z derivative bundle with an explicitly supplied
    parameter vector leaves the object as it was: the stored [shift],
    [s_kappa], [dZ0dr], [cn], [sn], [dcndr], [dsndr] and [kappa] (and every
    other attribute) are the same after the call as before it, for any
    angles and any parameters, also when the call fails on a vector that is
    too short. *)
Theorem get_RZ_derivatives_leaves_state
        (theta params : list R) (normalised : bool) (w : world) :
  let after := snd (get_RZ_derivatives theta (Some params) normalised w) in
  after = w
  /\ self_shift (obj after) = self_shift (obj w)
  /\ self_s_kappa (obj after) = self_s_kappa (obj w)
  /\ self_dZ0dr (obj after) = self_dZ0dr (obj w)
  /\ self_cn (obj after) = self_cn (obj w)
  /\ self_sn (obj after) = self_sn (obj w)
  /\ self_dcndr (obj after) = self_dcndr (obj w)
  /\ self_dsndr (obj after) = self_dsndr (obj w)
  /\ self_kappa (obj after) = self_kappa (obj w).
Proof.
  assert (H : snd (get_RZ_derivatives theta (Some params) normalised w) = w).
  { unfold get_RZ_derivatives, shape_params, bind, getitem, read, ret, raise.
    destruct (nth_error params 0); [| reflexivity].
    destruct (nth_error params 1); [| reflexivity].
    destruct (nth_error params 2); reflexivity. }
  cbv zeta. rewrite H. repeat split; reflexivity.
Qed.

(** C10: of the four arrays that [get_RZ_derivatives] returns, only
    [dRdtheta] and [dZdtheta] follow [normalised]: they are scaled by [rho]
    when it is set and by [r_minor] when it is not.  [dRdr] and [dZdr] are
    the same arrays for both values of the flag, computed from [rho] and
    [kappa] with no [r_minor] in them.  The coefficient arrays have
    [n_moments] entries. *)
Theorem normalised_flag_reaches_theta_derivatives_only
        (theta : list R) (params : option (list R)) (w : world)
        (shift s_kappa dZ0dr : R) (dcndr dsndr : list R) :
  length (self_cn (obj w)) = n_moments ->
  length (self_sn (obj w)) = n_moments ->
  length dcndr = n_moments -> length dsndr = n_moments ->
  shape_params params w = (Return (shift, s_kappa, dZ0dr, dcndr, dsndr), w) ->
  let self := obj w in
  let thetaR := get_thetaR self theta in
  let dRdr :=
    Np.map2 (fun tR d => shift + cos tR - self_rho self * sin tR * d)
            thetaR (get_dthetaR_dr theta dcndr dsndr) in
  let dZdr :=
    map (fun t => dZ0dr + self_kappa self * sin t * (1 + s_kappa)) theta in
  let dRdtheta (rmin : R) :=
    Np.map2 (fun tR d => - rmin * sin tR * d)
            thetaR (get_dthetaR_dtheta self theta) in
  let dZdtheta (rmin : R) :=
    map (fun t => self_kappa self * rmin * cos t) theta in
  get_RZ_derivatives theta params true w
  = (Return (dRdtheta (self_rho self), dRdr, dZdtheta (self_rho self), dZdr),
     w)
  /\ get_RZ_derivatives theta params false w
     = (Return (dRdtheta (self_r_minor self), dRdr,
                dZdtheta (self_r_minor self), dZdr),
        w).
Proof.
  intros _ _ _ _ Hp. cbv zeta. unfold get_RZ_derivatives.
  rewrite !(@run_bind _ _ (shape_params params) _ _ w w Hp).
  split; reflexivity.
Qed.

Lemma normalised_flag_reaches_theta_derivatives_only_witness :
  length (self_cn (obj wide_world)) = n_moments
  /\ length (self_sn (obj wide_world)) = n_moments
  /\ shape_params (Some wide_params) wide_world
     = (Return (1, 2, 3, [1; 2; 3; 4], [5; 6; 7; 8]), wide_world)
  /\ snd (fst (returned_arrays
                 (get_RZ_derivatives [0] (Some wide_params) true wide_world)))
     = [3 * (1 / 2)]
  /\ snd (fst (returned_arrays
                 (get_RZ_derivatives [0] (Some wide_params) false wide_world)))
     = [3 * 2]
  /\ snd (fst (fst (returned_arrays
                 (get_RZ_derivatives [0] (Some wide_params) true wide_world))))
     = snd (fst (fst (returned_arrays
                 (get_RZ_derivatives [0] (Some wide_params) false
                                     wide_world))))
  /\ snd (returned_arrays
            (get_RZ_derivatives [0] (Some wide_params) true wide_world))
     = snd (returned_arrays
              (get_RZ_derivatives [0] (Some wide_params) false wide_world)).
Proof.
  split; [reflexivity | split; [reflexivity | split; [reflexivity |]]].
  destruct (@normalised_flag_reaches_theta_derivatives_only
              [0] (Some wide_params) wide_world
              1 2 3 [1; 2; 3; 4] [5; 6; 7; 8]
              eq_refl eq_refl eq_refl eq_refl eq_refl) as [Ht Hf].
  rewrite Ht, Hf. unfold returned_arrays.
  cbn [fst snd map obj wide_world wide_self self_kappa self_rho self_r_minor].
  rewrite cos_0.
  split; [f_equal; lra | split; [f_equal; lra | split; reflexivity]].
Defined.

(** ** The derivative engine in closed form *)

Lemma sum_axis1_rows (f : list R -> list R) (theta ks : list R) :
  Np.sum_axis1 (Np.rows f (Np.outer theta ks))
  = map (fun t => Np.sum (f (map (fun v => t * v) ks))) theta.
Proof.
  unfold Np.sum_axis1, Np.rows, Np.outer. now rewrite !map_map.
Qed.

Lemma add_map_right (g : R -> R) (theta : list R) :
  Np.add theta (map g theta) = map (fun t => t + g t) theta.
Proof. unfold Np.add. apply map2_map_right. Qed.

Ltac four_coefficients l H :=
  destruct l as [|? [|? [|? [|? [|? ?]]]]]; try discriminate H; clear H.

Lemma get_thetaR_series (self : MXH) (theta : list R) :
  length (self_cn self) = n_moments -> length (self_sn self) = n_moments ->
  get_thetaR self theta
  = map (thetaR_series (self_cn self) (self_sn self)) theta.
Proof.
  intros Hc Hs.
  unfold get_thetaR. rewrite sum_axis1_rows, add_map_right.
  apply map_ext. intros t. unfold thetaR_series.
  four_coefficients (self_cn self) Hc. four_coefficients (self_sn self) Hs.
  simpl. rewrite !(Rmult_comm t). reflexivity.
Qed.

Lemma get_dthetaR_dtheta_series (self : MXH) (theta : list R) :
  length (self_cn self) = n_moments -> length (self_sn self) = n_moments ->
  get_dthetaR_dtheta self theta
  = map (dthetaR_series (self_cn self) (self_sn self)) theta.
Proof.
  intros Hc Hs.
  unfold get_dthetaR_dtheta, Np.shiftc. rewrite sum_axis1_rows, map_map.
  apply map_ext. intros t. unfold dthetaR_series.
  four_coefficients (self_cn self) Hc. four_coefficients (self_sn self) Hs.
  simpl. rewrite !(Rmult_comm t). reflexivity.
Qed.

Lemma get_d2thetaR_dtheta2_series (self : MXH) (theta : list R) :
  length (self_cn self) = n_moments -> length (self_sn self) = n_moments ->
  get_d2thetaR_dtheta2 self theta
  = map (d2thetaR_series (self_cn self) (self_sn self)) theta.
Proof.
  intros Hc Hs.
  unfold get_d2thetaR_dtheta2, Np.neg. rewrite sum_axis1_rows, map_map.
  apply map_ext. intros t. unfold d2thetaR_series.
  four_coefficients (self_cn self) Hc. four_coefficients (self_sn self) Hs.
  simpl. rewrite !(Rmult_comm t). reflexivity.
Qed.

Lemma get_dthetaR_dr_series (theta dcndr dsndr : list R) :
  length dcndr = n_moments -> length dsndr = n_moments ->
  get_dthetaR_dr theta dcndr dsndr
  = map (dthetaR_dr_series dcndr dsndr) theta.
Proof.
  intros Hc Hs.
  unfold get_dthetaR_dr. rewrite sum_axis1_rows.
  apply map_ext. intros t. unfold dthetaR_dr_series.
  four_coefficients dcndr Hc. four_coefficients dsndr Hs.
  simpl. rewrite !(Rmult_comm t). reflexivity.
Qed.

Lemma get_d2thetaR_drdtheta_series (theta dcndr dsndr : list R) :
  length dcndr = n_moments -> length dsndr = n_moments ->
  get_d2thetaR_drdtheta theta dcndr dsndr
  = map (d2thetaR_drdtheta_series dcndr dsndr) theta.
Proof.
  intros Hc Hs.
  unfold get_d2thetaR_drdtheta. rewrite sum_axis1_rows.
  apply map_ext. intros t. unfold d2thetaR_drdtheta_series.
  four_coefficients dcndr Hc. four_coefficients dsndr Hs.
  simpl. rewrite !(Rmult_comm t). reflexivity.
Qed.

(** ** Term-by-term differentiation *)

Lemma derive_as (f g : R -> R) (x l l' : R) :
  derivable_pt_lim f x l -> (forall z, f z = g z) -> l = l' ->
  derivable_pt_lim g x l'.
Proof.
  intros Hf Hfg <-. exact (derivable_pt_lim_ext f g x l Hfg Hf).
Qed.

Lemma derive_linear (k x : R) : derivable_pt_lim (fun u => k * u) x k.
Proof.
  apply derive_as with (f := mult_real_fct k id) (l := k * 1).
  - apply derivable_pt_lim_scal, derivable_pt_lim_id.
  - reflexivity.
  - lra.
Qed.

Lemma derive_cos_of (f : R -> R) (x l : R) :
  derivable_pt_lim f x l ->
  derivable_pt_lim (fun u => cos (f u)) x (- sin (f x) * l).
Proof.
  intros Hf.
  apply derive_as with (f := comp cos f) (l := - sin (f x) * l).
  - apply derivable_pt_lim_comp; [exact Hf | apply derivable_pt_lim_cos].
  - reflexivity.
  - reflexivity.
Qed.

Lemma derive_sin_of (f : R -> R) (x l : R) :
  derivable_pt_lim f x l ->
  derivable_pt_lim (fun u => sin (f u)) x (cos (f x) * l).
Proof.
  intros Hf.
  apply derive_as with (f := comp sin f) (l := cos (f x) * l).
  - apply derivable_pt_lim_comp; [exact Hf | apply derivable_pt_lim_sin].
  - reflexivity.
  - reflexivity.
Qed.

Lemma derive_plus (f g : R -> R) (x l1 l2 : R) :
  derivable_pt_lim f x l1 -> derivable_pt_lim g x l2 ->
  derivable_pt_lim (fun u => f u + g u) x (l1 + l2).
Proof. intros Hf Hg. exact (derivable_pt_lim_plus f g x l1 l2 Hf Hg). Qed.

Lemma derive_scal (a : R) (f : R -> R) (x l : R) :
  derivable_pt_lim f x l -> derivable_pt_lim (fun u => a * f u) x (a * l).
Proof. intros Hf. exact (derivable_pt_lim_scal f a x l Hf). Qed.

Lemma derive_mult (f g : R -> R) (x l1 l2 : R) :
  derivable_pt_lim f x l1 -> derivable_pt_lim g x l2 ->
  derivable_pt_lim (fun u => f u * g u) x (l1 * g x + f x * l2).
Proof. intros Hf Hg. exact (derivable_pt_lim_mult f g x l1 l2 Hf Hg). Qed.

Lemma derive_const (a x : R) : derivable_pt_lim (fun _ => a) x 0.
Proof. exact (derivable_pt_lim_const a x). Qed.

(** One harmonic: a cos(k u) + b sin(k u). *)
Lemma derive_harmonic (a b k x : R) :
  derivable_pt_lim (fun u => a * cos (k * u) + b * sin (k * u)) x
                   (- a * k * sin (k * x) + b * k * cos (k * x)).
Proof.
  apply derive_as
    with (f := fun u => a * cos (k * u) + b * sin (k * u))
         (l := a * (- sin (k * x) * k) + b * (cos (k * x) * k)).
  - apply derive_plus; apply derive_scal.
    + apply derive_cos_of, derive_linear.
    + apply derive_sin_of, derive_linear.
  - reflexivity.
  - ring.
Qed.

(** A finite sum is differentiated term by term. *)
Lemma derive_sum (ks : list nat) (f df : nat -> R -> R) (x : R) :
  (forall k, derivable_pt_lim (f k) x (df k x)) ->
  derivable_pt_lim (fun u => Np.sum (map (fun k => f k u) ks)) x
                   (Np.sum (map (fun k => df k x) ks)).
Proof.
  intros H. induction ks as [|k ks IH]; simpl.
  - apply derive_const.
  - apply derive_plus; [apply H | exact IH].
Qed.

Lemma thetaR_series_derivative (cn sn : list R) (x : R) :
  derivable_pt_lim (thetaR_series cn sn) x (dthetaR_series cn sn x).
Proof.
  unfold thetaR_series, dthetaR_series.
  apply derive_plus.
  - exact (derivable_pt_lim_id x).
  - apply (derive_sum (seq 0 n_moments)
             (fun k u => nth k cn 0 * cos (INR k * u)
                         + nth k sn 0 * sin (INR k * u))
             (fun k u => - nth k cn 0 * INR k * sin (INR k * u)
                         + nth k sn 0 * INR k * cos (INR k * u))).
    intros k. apply derive_harmonic.
Qed.

Lemma dthetaR_series_derivative (cn sn : list R) (x : R) :
  derivable_pt_lim (dthetaR_series cn sn) x (d2thetaR_series cn sn x).
Proof.
  apply derive_as
    with (f := fun u =>
                 1 + Np.sum (map (fun k =>
                                    (nth k sn 0 * INR k) * cos (INR k * u)
                                    + (- nth k cn 0 * INR k) * sin (INR k * u))
                                 (seq 0 n_moments)))
         (l := 0 + Np.sum (map (fun k =>
                                  - (nth k sn 0 * INR k) * INR k
                                    * sin (INR k * x)
                                  + (- nth k cn 0 * INR k) * INR k
                                    * cos (INR k * x))
                               (seq 0 n_moments))).
  - apply derive_plus; [apply derive_const |].
    apply (derive_sum (seq 0 n_moments)
             (fun k u => (nth k sn 0 * INR k) * cos (INR k * u)
                         + (- nth k cn 0 * INR k) * sin (INR k * u))
             (fun k u => - (nth k sn 0 * INR k) * INR k * sin (INR k * u)
                         + (- nth k cn 0 * INR k) * INR k
                           * cos (INR k * u))).
    intros k. apply derive_harmonic.
  - intros z. unfold dthetaR_series. simpl. ring.
  - unfold d2thetaR_series. simpl. ring.
Qed.

Lemma dthetaR_dr_series_derivative (dcndr dsndr : list R) (x : R) :
  derivable_pt_lim (dthetaR_dr_series dcndr dsndr) x
                   (d2thetaR_drdtheta_series dcndr dsndr x).
Proof.
  apply derive_as
    with (f := dthetaR_dr_series dcndr dsndr)
         (l := Np.sum (map (fun k =>
                              - nth k dcndr 0 * INR k * sin (INR k * x)
                              + nth k dsndr 0 * INR k * cos (INR k * x))
                           (seq 0 n_moments))).
  - apply (derive_sum (seq 0 n_moments)
             (fun k u => nth k dcndr 0 * cos (INR k * u)
                         + nth k dsndr 0 * sin (INR k * u))
             (fun k u => - nth k dcndr 0 * INR k * sin (INR k * u)
                         + nth k dsndr 0 * INR k * cos (INR k * u))).
    intros k. apply derive_harmonic.
  - reflexivity.
  - unfold d2thetaR_drdtheta_series. simpl. ring.
Qed.

(** R along theta: the chain rule through thetaR, then the product rule. *)
Lemma R_theta_derivative (cn sn : list R) (Rmaj r x : R) :
  derivable_pt_lim (fun u => Rmaj + r * cos (thetaR_series cn sn u)) x
                   (- r * sin (thetaR_series cn sn x)
                    * dthetaR_series cn sn x).
Proof.
  apply derive_as
    with (f := fun u => Rmaj + r * cos (thetaR_series cn sn u))
         (l := 0 + r * (- sin (thetaR_series cn sn x)
                        * dthetaR_series cn sn x)).
  - apply derive_plus; [apply derive_const |].
    apply derive_scal, derive_cos_of, thetaR_series_derivative.
  - reflexivity.
  - ring.
Qed.

Lemma dRdtheta_derivative (cn sn : list R) (r x : R) :
  derivable_pt_lim
    (fun u => - r * sin (thetaR_series cn sn u) * dthetaR_series cn sn u) x
    (- r * sin (thetaR_series cn sn x) * d2thetaR_series cn sn x
     - r * dthetaR_series cn sn x ^ 2 * cos (thetaR_series cn sn x)).
Proof.
  apply derive_as
    with (f := fun u => (- r * sin (thetaR_series cn sn u))
                        * dthetaR_series cn sn u)
         (l := (- r * (cos (thetaR_series cn sn x) * dthetaR_series cn sn x))
               * dthetaR_series cn sn x
               + (- r * sin (thetaR_series cn sn x))
                 * d2thetaR_series cn sn x).
  - apply (@derive_mult (fun u => - r * sin (thetaR_series cn sn u))
                        (dthetaR_series cn sn)).
    + apply (@derive_scal (- r) (fun u => sin (thetaR_series cn sn u))).
      apply derive_sin_of, thetaR_series_derivative.
    + apply dthetaR_series_derivative.
  - reflexivity.
  - ring.
Qed.

Lemma sub_map_same (g h : R -> R) (l : list R) :
  Np.sub (map g l) (map h l) = map (fun v => g v - h v) l.
Proof. unfold Np.sub. apply map2_map_same. Qed.

Lemma get_dRdtheta_series (self : MXH) (theta : list R) (normalised : bool) :
  length (self_cn self) = n_moments -> length (self_sn self) = n_moments ->
  get_dRdtheta self (get_thetaR self theta) (get_dthetaR_dtheta self theta)
               normalised
  = map (fun t =>
           - rmin_of self normalised
           * sin (thetaR_series (self_cn self) (self_sn self) t)
           * dthetaR_series (self_cn self) (self_sn self) t) theta.
Proof.
  intros Hc Hs.
  rewrite get_thetaR_series, get_dthetaR_dtheta_series by assumption.
  unfold get_dRdtheta. now rewrite map2_map_same.
Qed.

Lemma get_d2Rdtheta2_series (self : MXH) (theta : list R) (normalised : bool) :
  length (self_cn self) = n_moments -> length (self_sn self) = n_moments ->
  get_d2Rdtheta2 self (get_thetaR self theta) (get_dthetaR_dtheta self theta)
                 (get_d2thetaR_dtheta2 self theta) normalised
  = map (fun t =>
           - rmin_of self normalised
             * sin (thetaR_series (self_cn self) (self_sn self) t)
             * d2thetaR_series (self_cn self) (self_sn self) t
           - rmin_of self normalised
             * cos (thetaR_series (self_cn self) (self_sn self) t)
             * dthetaR_series (self_cn self) (self_sn self) t ^ 2) theta.
Proof.
  intros Hc Hs.
  rewrite get_thetaR_series, get_dthetaR_dtheta_series,
    get_d2thetaR_dtheta2_series by assumption.
  unfold get_d2Rdtheta2. rewrite !map2_map_same, sub_map_same.
  apply map_ext. intros t. ring.
Qed.

(** C6: with the stored coefficients [cn] and [sn] (n_moments of each),
    for every array of angles
    - [get_thetaR] is theta + sum_k (cn[k] cos(k theta) + sn[k] sin(k theta));
    - the second derivative of R along theta, as [get_d2Rdtheta2] returns
      it from the arrays of [get_thetaR], [get_dthetaR_dtheta] and
      [get_d2thetaR_dtheta2], is
      - r sin(thetaR) d2thetaR/dtheta2 - r cos(thetaR) (dthetaR/dtheta)^2,
      with r the [rho] or [r_minor] that [normalised] selects;
    - [get_dthetaR_dtheta], [get_d2thetaR_dtheta2] and
      [get_d2thetaR_drdtheta] are the harmonic sums differentiated term by
      term, and they are the exact derivatives along theta of [get_thetaR],
      [get_dthetaR_dtheta] and [get_dthetaR_dr]; likewise what
      [get_dRdtheta] returns is the exact derivative of
      R = Rmaj + r cos(thetaR), and what [get_d2Rdtheta2] returns is the
      exact derivative of that.  No difference quotient occurs. *)
Theorem derivative_engine_closed_form (self : MXH) :
  length (self_cn self) = n_moments -> length (self_sn self) = n_moments ->
  let cn := self_cn self in
  let sn := self_sn self in
  (forall theta,
      get_thetaR self theta
      = map (fun t =>
               t + Np.sum (map (fun k => nth k cn 0 * cos (INR k * t)
                                         + nth k sn 0 * sin (INR k * t))
                               (seq 0 n_moments))) theta)
  /\ (forall theta normalised,
         let r := rmin_of self normalised in
         get_d2Rdtheta2 self (get_thetaR self theta)
                        (get_dthetaR_dtheta self theta)
                        (get_d2thetaR_dtheta2 self theta) normalised
         = map (fun t =>
                  - r * sin (thetaR_series cn sn t) * d2thetaR_series cn sn t
                  - r * cos (thetaR_series cn sn t)
                    * dthetaR_series cn sn t ^ 2) theta)
  /\ (forall theta,
         get_dthetaR_dtheta self theta = map (dthetaR_series cn sn) theta)
  /\ (forall theta,
         get_d2thetaR_dtheta2 self theta = map (d2thetaR_series cn sn) theta)
  /\ (forall theta normalised,
         get_dRdtheta self (get_thetaR self theta)
                      (get_dthetaR_dtheta self theta) normalised
         = map (fun t =>
                  - rmin_of self normalised * sin (thetaR_series cn sn t)
                  * dthetaR_series cn sn t) theta)
  /\ (forall t,
         derivable_pt_lim (thetaR_series cn sn) t (dthetaR_series cn sn t))
  /\ (forall t,
         derivable_pt_lim (dthetaR_series cn sn) t (d2thetaR_series cn sn t))
  /\ (forall Rmaj r t,
         derivable_pt_lim
           (fun u => Rmaj + r * cos (thetaR_series cn sn u)) t
           (- r * sin (thetaR_series cn sn t) * dthetaR_series cn sn t))
  /\ (forall r t,
         derivable_pt_lim
           (fun u => - r * sin (thetaR_series cn sn u)
                     * dthetaR_series cn sn u) t
           (- r * sin (thetaR_series cn sn t) * d2thetaR_series cn sn t
            - r * cos (thetaR_series cn sn t) * dthetaR_series cn sn t ^ 2))
  /\ (forall dcndr dsndr,
         length dcndr = n_moments -> length dsndr = n_moments ->
         (forall theta,
             get_dthetaR_dr theta dcndr dsndr
             = map (dthetaR_dr_series dcndr dsndr) theta)
         /\ (forall theta,
                get_d2thetaR_drdtheta theta dcndr dsndr
                = map (d2thetaR_drdtheta_series dcndr dsndr) theta)
         /\ forall t,
             derivable_pt_lim (dthetaR_dr_series dcndr dsndr) t
                              (d2thetaR_drdtheta_series dcndr dsndr t)).
Proof.
  intros Hc Hs cn sn.
  split; [| split; [| split; [| split; [| split; [| split;
    [| split; [| split; [| split]]]]]]]].
  - intros theta. now rewrite get_thetaR_series.
  - intros theta normalised r. now apply get_d2Rdtheta2_series.
  - intros theta. now apply get_dthetaR_dtheta_series.
  - intros theta. now apply get_d2thetaR_dtheta2_series.
  - intros theta normalised. now apply get_dRdtheta_series.
  - intros t. apply thetaR_series_derivative.
  - intros t. apply dthetaR_series_derivative.
  - intros Rmaj r t. apply R_theta_derivative.
  - intros r t.
    apply derive_as
      with (f := fun u => - r * sin (thetaR_series cn sn u)
                          * dthetaR_series cn sn u)
           (l := - r * sin (thetaR_series cn sn t) * d2thetaR_series cn sn t
                 - r * dthetaR_series cn sn t ^ 2
                   * cos (thetaR_series cn sn t)).
    + apply dRdtheta_derivative.
    + reflexivity.
    + ring.
  - intros dcndr dsndr Hdc Hds. split; [| split].
    + intros theta. now apply get_dthetaR_dr_series.
    + intros theta. now apply get_d2thetaR_drdtheta_series.
    + intros t. apply dthetaR_dr_series_derivative.
Qed.

Lemma derivative_engine_closed_form_witness :
  length (self_cn unit_self) = n_moments
  /\ length (self_sn unit_self) = n_moments
  /\ get_thetaR unit_self [0; PI]
     = map (fun t =>
              t + Np.sum (map (fun k =>
                                 nth k [0; 0; 0; 0] 0 * cos (INR k * t)
                                 + nth k [0; 0; 0; 0] 0 * sin (INR k * t))
                              (seq 0 n_moments))) [0; PI].
Proof.
  split; [reflexivity | split; [reflexivity |]].
  destruct (@derivative_engine_closed_form unit_self eq_refl eq_refl)
    as [H _].
  exact (H [0; PI]).
Defined.

Unset Implicit Arguments.

(** ** The shaping properties: round trips and errors *)

Lemma setitem_run (a : list R) (i : nat) (v : R) (w : world) :
  (i < length a)%nat ->
  setitem a i v w = (Return (firstn i a ++ v :: skipn (S i) a), w).
Proof.
  intros H. unfold setitem.
  destruct (Nat.ltb_spec i (length a)); [reflexivity | lia].
Qed.

Lemma setitem_short (a : list R) (i : nat) (v : R) (w : world) :
  (length a <= i)%nat -> setitem a i v w = (Raise IndexError, w).
Proof.
  intros H. unfold setitem.
  destruct (Nat.ltb_spec i (length a)); [lia | reflexivity].
Qed.

Lemma getitem_short {A} (a : list A) (i : nat) (w : world) :
  (length a <= i)%nat -> getitem a i w = (Raise IndexError, w).
Proof.
  intros H. unfold getitem.
  now rewrite (proj2 (nth_error_None a i) H).
Qed.

Lemma updated_same (a : list R) (i : nat) (v : R) :
  (i < length a)%nat ->
  nth_error (firstn i a ++ v :: skipn (S i) a) i = Some v.
Proof.
  intros H. rewrite nth_error_app2; rewrite length_firstn, Nat.min_l by lia;
    [| lia].
  now rewrite Nat.sub_diag.
Qed.

Lemma updated_other (a : list R) (i j : nat) (v : R) :
  (i < length a)%nat -> j <> i ->
  nth_error (firstn i a ++ v :: skipn (S i) a) j = nth_error a j.
Proof.
  intros H Hj. destruct (Nat.lt_ge_cases j i) as [Hlt | Hge].
  - rewrite nth_error_app1 by (rewrite length_firstn; lia).
    rewrite nth_error_firstn.
    destruct (Nat.ltb_spec j i); [reflexivity | lia].
  - rewrite nth_error_app2; rewrite length_firstn, Nat.min_l by lia; [| lia].
    destruct (j - i)%nat as [|d] eqn:Hd; [lia |]. cbn [nth_error].
    rewrite nth_error_skipn. f_equal. lia.
Qed.

Lemma updated_length (a : list R) (i : nat) (v : R) :
  (i < length a)%nat ->
  length (firstn i a ++ v :: skipn (S i) a) = length a.
Proof.
  intros H. rewrite length_app, length_firstn. cbn [length].
  rewrite length_skipn. lia.
Qed.

Lemma updated_with_itself (a : list R) (i : nat) (v : R) :
  nth_error a i = Some v -> firstn i a ++ v :: skipn (S i) a = a.
Proof.
  revert i. induction a as [|x a IH]; intros [|i] H; simpl in *;
    try discriminate.
  - now injection H as ->.
  - f_equal. now apply IH.
Qed.

Lemma world_eta (w : world) : mkWorld (obj w) (warned w) (printed w) = w.
Proof. now destruct w. Qed.

Lemma set_sn_same (s : MXH) : set_sn (self_sn s) s = s.
Proof. now destruct s. Qed.

Lemma set_dsndr_same (s : MXH) : set_dsndr (self_dsndr s) s = s.
Proof. now destruct s. Qed.

Lemma delta_run (w : world) (x : R) :
  nth_error (self_sn (obj w)) 1 = Some x -> delta w = (Return (sin x), w).
Proof.
  intros H. unfold delta, bind, read, getitem, ret. now rewrite H.
Qed.

Lemma delta_setter_run (w : world) (v : R) :
  (1 < length (self_sn (obj w)))%nat ->
  delta_setter v w
  = (Return tt,
     mkWorld (set_sn (firstn 1 (self_sn (obj w))
                      ++ asin v :: skipn 2 (self_sn (obj w))) (obj w))
             (warned w) (printed w)).
Proof.
  intros H. unfold delta_setter, bind, read.
  rewrite (setitem_run _ 1%nat (asin v) w H). reflexivity.
Qed.

(** X1: assigning a value between -1 and 1 to [delta] and reading
    [delta] back gives that value.  The assignment writes [sn[1]] only, and
    what it writes lies between -pi/2 and pi/2. *)
Theorem delta_set_then_get (w : world) (v : R) :
  (1 < length (self_sn (obj w)))%nat -> -1 <= v <= 1 ->
  exists w',
    delta_setter v w = (Return tt, w')
    /\ delta w' = (Return v, w')
    /\ length (self_sn (obj w')) = length (self_sn (obj w))
    /\ (forall i, i <> 1%nat ->
                  nth_error (self_sn (obj w')) i
                  = nth_error (self_sn (obj w)) i)
    /\ (exists x, nth_error (self_sn (obj w')) 1 = Some x
                  /\ - (PI / 2) <= x <= PI / 2)
    /\ self_dsndr (obj w') = self_dsndr (obj w)
    /\ self_cn (obj w') = self_cn (obj w).
Proof.
  intros Hlen Hv. eexists. split; [exact (delta_setter_run w v Hlen) |].
  assert (H1 : nth_error (firstn 1 (self_sn (obj w))
                          ++ asin v :: skipn 2 (self_sn (obj w))) 1
               = Some (asin v)) by (now apply updated_same).
  split; [| split; [| split; [| split; [| split]]]].
  - rewrite (delta_run _ (asin v)) by exact H1.
    now rewrite sin_asin.
  - cbn [obj self_sn set_sn]. now apply updated_length.
  - intros i Hi. cbn [obj self_sn set_sn]. now apply updated_other.
  - exists (asin v). split; [exact H1 | apply asin_bound].
  - reflexivity.
  - reflexivity.
Qed.

Lemma delta_set_then_get_witness :
  (1 < length (self_sn (obj unit_world)))%nat
  /\ -1 <= 1 / 2 <= 1
  /\ exists w',
      delta_setter (1 / 2) unit_world = (Return tt, w')
      /\ delta w' = (Return (1 / 2), w').
Proof.
  assert (Hlen : (1 < length (self_sn (obj unit_world)))%nat)
    by (simpl; lia).
  assert (Hv : -1 <= 1 / 2 <= 1) by lra.
  split; [exact Hlen | split; [exact Hv |]].
  destruct (delta_set_then_get unit_world (1 / 2) Hlen Hv)
    as (w' & Hset & Hget & _).
  exists w'. split; assumption.
Defined.

(** X2: [self.delta = self.delta] keeps [delta] but replaces [sn[1]]
    by arcsin(sin(sn[1])): the object is unchanged exactly when the stored
    [sn[1]] lies between -pi/2 and pi/2, and otherwise [sn[1]] is folded
    into that range. *)
Theorem delta_reassigned (w : world) (x : R) :
  nth_error (self_sn (obj w)) 1 = Some x ->
  exists w',
    bind delta delta_setter w = (Return tt, w')
    /\ fst (delta w') = fst (delta w)
    /\ nth_error (self_sn (obj w')) 1 = Some (asin (sin x))
    /\ (- (PI / 2) <= x <= PI / 2 -> w' = w)
    /\ (w' = w -> - (PI / 2) <= x <= PI / 2).
Proof.
  intros Hx.
  assert (Hlen : (1 < length (self_sn (obj w)))%nat)
    by (apply nth_error_Some; congruence).
  eexists. split.
  { unfold bind at 1. rewrite (delta_run w x Hx).
    exact (delta_setter_run w (sin x) Hlen). }
  assert (H1 : nth_error (firstn 1 (self_sn (obj w))
                          ++ asin (sin x) :: skipn 2 (self_sn (obj w))) 1
               = Some (asin (sin x))) by (now apply updated_same).
  split; [| split; [exact H1 | split]].
  - rewrite (delta_run _ (asin (sin x))) by exact H1.
    rewrite (delta_run w x Hx). cbn [fst].
    rewrite sin_asin by apply SIN_bound. reflexivity.
  - intros Hr. rewrite asin_sin by exact Hr.
    rewrite (updated_with_itself _ _ _ Hx), set_sn_same. apply world_eta.
  - intros Hw.
    assert (Hs : nth_error (self_sn (obj w)) 1 = Some (asin (sin x))).
    { rewrite <- Hw at 1. exact H1. }
    rewrite Hx in Hs. injection Hs as Hs. rewrite Hs. apply asin_bound.
Qed.

Lemma delta_reassigned_witness :
  nth_error (self_sn (obj unit_world)) 1 = Some 0
  /\ exists w',
      bind delta delta_setter unit_world = (Return tt, w')
      /\ w' = unit_world.
Proof.
  split; [reflexivity |].
  destruct (delta_reassigned unit_world 0 eq_refl)
    as (w' & Hrun & _ & _ & Hsame & _).
  exists w'. split; [exact Hrun |].
  apply Hsame. pose proof PI_RGT_0. lra.
Defined.

(** X3: [zeta] and its setter are inverse to each other: after
    [self.zeta = v], [zeta] is [v] and only [sn[2]] has changed; and
    [self.zeta = self.zeta] leaves the object as it is. *)
Theorem zeta_round_trips (w : world) (v : R) :
  (2 < length (self_sn (obj w)))%nat ->
  (exists w',
      zeta_setter v w = (Return tt, w')
      /\ zeta w' = (Return v, w')
      /\ length (self_sn (obj w')) = length (self_sn (obj w))
      /\ forall i, i <> 2%nat ->
                   nth_error (self_sn (obj w')) i
                   = nth_error (self_sn (obj w)) i)
  /\ bind zeta zeta_setter w = (Return tt, w).
Proof.
  intros Hlen.
  destruct (nth_error (self_sn (obj w)) 2) as [x|] eqn:Hx.
  2:{ apply nth_error_None in Hx. lia. }
  split.
  - eexists. split.
    { unfold zeta_setter, bind, read.
      rewrite (setitem_run _ 2%nat (- v) w Hlen). reflexivity. }
    split; [| split].
    + unfold zeta, bind, read, getitem, ret. cbn [obj self_sn set_sn].
      rewrite updated_same by exact Hlen. f_equal. f_equal. lra.
    + cbn [obj self_sn set_sn]. now apply updated_length.
    + intros i Hi. cbn [obj self_sn set_sn]. now apply updated_other.
  - unfold bind at 1. unfold zeta, bind, read, getitem, ret. rewrite Hx.
    unfold zeta_setter, bind, read.
    rewrite (setitem_run _ 2%nat (- - x) w Hlen).
    unfold assign. cbn [obj warned printed].
    rewrite Ropp_involutive, (updated_with_itself _ _ _ Hx), set_sn_same.
    now rewrite world_eta.
Qed.

Lemma zeta_round_trips_witness :
  (2 < length (self_sn (obj unit_world)))%nat
  /\ bind zeta zeta_setter unit_world = (Return tt, unit_world).
Proof.
  assert (Hlen : (2 < length (self_sn (obj unit_world)))%nat)
    by (simpl; lia).
  split; [exact Hlen |].
  exact (proj2 (zeta_round_trips unit_world 0 Hlen)).
Defined.

(** X4: for a non-zero [rho], [s_zeta] and its setter are inverse to each
    other: after [self.s_zeta = v], [s_zeta] is [v] and only [dsndr[2]] has
    changed; and [self.s_zeta = self.s_zeta] leaves the object as it is. *)
Theorem s_zeta_round_trips (w : world) (v : R) :
  (2 < length (self_dsndr (obj w)))%nat -> self_rho (obj w) <> 0 ->
  (exists w',
      s_zeta_setter v w = (Return tt, w')
      /\ s_zeta w' = (Return v, w')
      /\ self_sn (obj w') = self_sn (obj w)
      /\ self_rho (obj w') = self_rho (obj w)
      /\ forall i, i <> 2%nat ->
                   nth_error (self_dsndr (obj w')) i
                   = nth_error (self_dsndr (obj w)) i)
  /\ bind s_zeta s_zeta_setter w = (Return tt, w).
Proof.
  intros Hlen Hrho.
  destruct (nth_error (self_dsndr (obj w)) 2) as [x|] eqn:Hx.
  2:{ apply nth_error_None in Hx. lia. }
  split.
  - eexists. split.
    { unfold s_zeta_setter, bind, read.
      rewrite (setitem_run _ 2%nat (- v / self_rho (obj w)) w Hlen).
      reflexivity. }
    split; [| split; [| split]]; try reflexivity.
    + unfold s_zeta, bind, read, getitem, ret. cbn [obj self_dsndr set_dsndr].
      rewrite updated_same by exact Hlen.
      cbn [obj self_rho set_dsndr].
      replace (- (- v / self_rho (obj w)) * self_rho (obj w)) with v
        by (field; exact Hrho).
      reflexivity.
    + intros i Hi. cbn [obj self_dsndr set_dsndr]. now apply updated_other.
  - unfold bind at 1. unfold s_zeta, bind, read, getitem, ret. rewrite Hx.
    unfold s_zeta_setter, bind, read.
    rewrite (setitem_run _ 2%nat _ w Hlen).
    unfold assign. cbn [obj warned printed].
    replace (- (- x * self_rho (obj w)) / self_rho (obj w)) with x
      by (field; exact Hrho).
    rewrite (updated_with_itself _ _ _ Hx), set_dsndr_same.
    now rewrite world_eta.
Qed.

Lemma s_zeta_round_trips_witness :
  (2 < length (self_dsndr (obj unit_world)))%nat
  /\ self_rho (obj unit_world) <> 0
  /\ bind s_zeta s_zeta_setter unit_world = (Return tt, unit_world).
Proof.
  assert (Hlen : (2 < length (self_dsndr (obj unit_world)))%nat)
    by (simpl; lia).
  assert (Hrho : self_rho (obj unit_world) <> 0) by (simpl; lra).
  split; [exact Hlen | split; [exact Hrho |]].
  exact (proj2 (s_zeta_round_trips unit_world 0 Hlen Hrho)).
Defined.

Lemma sqrt_one_minus_sin2 (x : R) : sqrt (1 - sin x ^ 2) = Rabs (cos x).
Proof.
  rewrite <- sqrt_Rsqr_abs. f_equal. rewrite cos2. unfold Rsqr. ring.
Qed.

Lemma sqrt_one_minus_sin2_nonzero (x : R) :
  cos x <> 0 -> sqrt (1 - sin x ^ 2) <> 0.
Proof.
  intros H. rewrite sqrt_one_minus_sin2. now apply Rabs_no_R0.
Qed.

Lemma s_delta_run (w : world) (x d1 : R) :
  nth_error (self_sn (obj w)) 1 = Some x ->
  nth_error (self_dsndr (obj w)) 1 = Some d1 ->
  s_delta w = (Return (d1 * sqrt (1 - sin x ^ 2) * self_rho (obj w)), w).
Proof.
  intros Hx Hd. unfold s_delta, delta, bind, read, getitem, ret.
  rewrite Hd, Hx. reflexivity.
Qed.

Lemma s_delta_setter_run (w : world) (x v : R) :
  nth_error (self_sn (obj w)) 1 = Some x ->
  (1 < length (self_dsndr (obj w)))%nat ->
  s_delta_setter v w
  = (Return tt,
     mkWorld (set_dsndr
                (firstn 1 (self_dsndr (obj w))
                 ++ v / sqrt (1 - sin x ^ 2) / self_rho (obj w)
                    :: skipn 2 (self_dsndr (obj w))) (obj w))
             (warned w) (printed w)).
Proof.
  intros Hx Hlen. unfold s_delta_setter, delta, bind, read, getitem, ret.
  rewrite Hx. rewrite (setitem_run _ 1%nat _ w Hlen). reflexivity.
Qed.

(** X5: for a non-zero [rho] and a stored [sn[1]] whose cosine is not
    zero (so [delta] is neither 1 nor -1), [s_delta] and its setter are
    inverse to each other: after [self.s_delta = v], [s_delta] is [v], with
    only [dsndr[1]] changed; and [self.s_delta = self.s_delta] leaves the
    object as it is. *)
Theorem s_delta_round_trips (w : world) (x v : R) :
  nth_error (self_sn (obj w)) 1 = Some x -> cos x <> 0 ->
  (1 < length (self_dsndr (obj w)))%nat -> self_rho (obj w) <> 0 ->
  (exists w',
      s_delta_setter v w = (Return tt, w')
      /\ s_delta w' = (Return v, w')
      /\ self_sn (obj w') = self_sn (obj w)
      /\ forall i, i <> 1%nat ->
                   nth_error (self_dsndr (obj w')) i
                   = nth_error (self_dsndr (obj w)) i)
  /\ bind s_delta s_delta_setter w = (Return tt, w).
Proof.
  intros Hx Hcos Hlen Hrho.
  pose proof (sqrt_one_minus_sin2_nonzero x Hcos) as Hsq.
  destruct (nth_error (self_dsndr (obj w)) 1) as [d1|] eqn:Hd.
  2:{ apply nth_error_None in Hd. lia. }
  split.
  - eexists. split; [exact (s_delta_setter_run w x v Hx Hlen) |].
    split; [| split; [reflexivity |]].
    + rewrite (s_delta_run _ x (v / sqrt (1 - sin x ^ 2) / self_rho (obj w)));
        [| exact Hx | cbn [obj self_dsndr set_dsndr]; now apply updated_same].
      cbn [obj self_rho set_dsndr].
      replace (v / sqrt (1 - sin x ^ 2) / self_rho (obj w)
               * sqrt (1 - sin x ^ 2) * self_rho (obj w)) with v
        by (field; split; assumption).
      reflexivity.
    + intros i Hi. cbn [obj self_dsndr set_dsndr]. now apply updated_other.
  - unfold bind at 1. rewrite (s_delta_run w x d1 Hx Hd).
    rewrite (s_delta_setter_run w x _ Hx Hlen).
    replace (d1 * sqrt (1 - sin x ^ 2) * self_rho (obj w)
             / sqrt (1 - sin x ^ 2) / self_rho (obj w)) with d1
      by (field; split; assumption).
    rewrite (updated_with_itself _ _ _ Hd), set_dsndr_same.
    now rewrite world_eta.
Qed.

Lemma s_delta_round_trips_witness :
  nth_error (self_sn (obj unit_world)) 1 = Some 0
  /\ cos 0 <> 0
  /\ (1 < length (self_dsndr (obj unit_world)))%nat
  /\ self_rho (obj unit_world) <> 0
  /\ bind s_delta s_delta_setter unit_world = (Return tt, unit_world).
Proof.
  assert (Hcos : cos 0 <> 0) by (rewrite cos_0; lra).
  assert (Hlen : (1 < length (self_dsndr (obj unit_world)))%nat)
    by (simpl; lia).
  assert (Hrho : self_rho (obj unit_world) <> 0) by (simpl; lra).
  split; [reflexivity | split; [exact Hcos | split; [exact Hlen |
    split; [exact Hrho |]]]].
  exact (proj2 (s_delta_round_trips unit_world 0 0 eq_refl Hcos Hlen Hrho)).
Defined.

(** X6: [s_delta] is tied to [delta]: assigning [d] (between -1 and 1) to
    [delta] leaves [dsndr] untouched but changes what [s_delta] returns to
    [dsndr[1] * sqrt(1 - d^2) * rho]. *)
Theorem delta_assignment_rescales_s_delta (w : world) (d d1 : R) :
  (1 < length (self_sn (obj w)))%nat -> -1 <= d <= 1 ->
  nth_error (self_dsndr (obj w)) 1 = Some d1 ->
  exists w',
    delta_setter d w = (Return tt, w')
    /\ self_dsndr (obj w') = self_dsndr (obj w)
    /\ s_delta w' = (Return (d1 * sqrt (1 - d ^ 2) * self_rho (obj w)), w').
Proof.
  intros Hlen Hd Hd1.
  eexists. split; [exact (delta_setter_run w d Hlen) |].
  split; [reflexivity |].
  rewrite (s_delta_run _ (asin d) d1);
    [| cbn [obj self_sn set_sn]; now apply updated_same | exact Hd1].
  rewrite sin_asin by exact Hd. reflexivity.
Qed.

Lemma delta_assignment_rescales_s_delta_witness :
  (1 < length (self_sn (obj unit_world)))%nat
  /\ -1 <= 1 <= 1
  /\ nth_error (self_dsndr (obj unit_world)) 1 = Some 0
  /\ exists w',
      delta_setter 1 unit_world = (Return tt, w')
      /\ s_delta w' = (Return (0 * sqrt (1 - 1 ^ 2) * 1), w').
Proof.
  assert (Hlen : (1 < length (self_sn (obj unit_world)))%nat)
    by (simpl; lia).
  assert (Hd : -1 <= 1 <= 1) by lra.
  split; [exact Hlen | split; [exact Hd | split; [reflexivity |]]].
  destruct (delta_assignment_rescales_s_delta unit_world 1 0 Hlen Hd eq_refl)
    as (w' & Hset & _ & Hget).
  exists w'. split; [exact Hset | exact Hget].
Defined.

(** X7: on coefficient arrays that are too short the shaping properties
    raise [IndexError] and change nothing: [delta] and both setters that
    read it need [sn[1]], [zeta] needs [sn[2]], [s_delta] needs [dsndr[1]]
    and [s_zeta] needs [dsndr[2]].  The setter of [s_zeta] divides by
    [rho] before it stores, so for it [rho] is not zero. *)
Theorem shaping_properties_index_errors (w : world) (v : R) :
  ((length (self_sn (obj w)) <= 1)%nat ->
   delta w = (Raise IndexError, w)
   /\ delta_setter v w = (Raise IndexError, w)
   /\ s_delta_setter v w = (Raise IndexError, w)
   /\ fst (s_delta w) = Raise IndexError /\ snd (s_delta w) = w)
  /\ ((length (self_sn (obj w)) <= 2)%nat ->
      zeta w = (Raise IndexError, w)
      /\ zeta_setter v w = (Raise IndexError, w))
  /\ ((length (self_dsndr (obj w)) <= 1)%nat ->
      s_delta w = (Raise IndexError, w)
      /\ fst (s_delta_setter v w) = Raise IndexError
      /\ snd (s_delta_setter v w) = w)
  /\ ((length (self_dsndr (obj w)) <= 2)%nat ->
      s_zeta w = (Raise IndexError, w)
      /\ (self_rho (obj w) <> 0 ->
          s_zeta_setter v w = (Raise IndexError, w))).
Proof.
  split; [| split; [| split]].
  - intros H.
    pose proof (proj2 (nth_error_None (self_sn (obj w)) 1) H) as Hn.
    split; [| split; [| split]].
    + unfold delta, bind, read. now rewrite (getitem_short _ 1%nat w H).
    + unfold delta_setter, bind, read.
      now rewrite (setitem_short _ 1%nat _ w H).
    + unfold s_delta_setter, delta, bind, read, getitem. now rewrite Hn.
    + unfold s_delta, bind, read, getitem.
      destruct (nth_error (self_dsndr (obj w)) 1); [| split; reflexivity].
      unfold ret, delta, bind, read, getitem. cbn beta iota.
      rewrite Hn. split; reflexivity.
  - intros H. split.
    + unfold zeta, bind, read. now rewrite (getitem_short _ 2%nat w H).
    + unfold zeta_setter, bind, read.
      now rewrite (setitem_short _ 2%nat _ w H).
  - intros H. split.
    + unfold s_delta, bind, read.
      now rewrite (getitem_short _ 1%nat w H).
    + unfold s_delta_setter, delta, bind, read, getitem, ret.
      destruct (nth_error (self_sn (obj w)) 1); [| split; reflexivity].
      rewrite (setitem_short _ 1%nat _ w H). split; reflexivity.
  - intros H. split.
    + unfold s_zeta, bind, read. now rewrite (getitem_short _ 2%nat w H).
    + intros _. unfold s_zeta_setter, bind, read.
      now rewrite (setitem_short _ 2%nat _ w H).
Qed.

Lemma shaping_properties_index_errors_witness :
  (length (self_sn (obj short_world)) <= 1)%nat
  /\ (length (self_dsndr (obj short_world)) <= 2)%nat
  /\ self_rho (obj short_world) <> 0
  /\ delta short_world = (Raise IndexError, short_world)
  /\ s_zeta_setter 1 short_world = (Raise IndexError, short_world).
Proof.
  assert (Hsn : (length (self_sn (obj short_world)) <= 1)%nat)
    by (simpl; lia).
  assert (Hds : (length (self_dsndr (obj short_world)) <= 2)%nat)
    by (simpl; lia).
  assert (Hrho : self_rho (obj short_world) <> 0) by (simpl; lra).
  split; [exact Hsn | split; [exact Hds | split; [exact Hrho |]]].
  destruct (shaping_properties_index_errors short_world 1)
    as (Hdelta & _ & _ & Hzeta).
  split.
  - exact (proj1 (Hdelta Hsn)).
  - exact (proj2 (Hzeta Hds) Hrho).
Defined.

(** ** More on the derivative engine *)

Lemma get_thetaR_pointwise (self : MXH) (theta : list R) :
  get_thetaR self theta
  = map (fun t =>
           t + Np.sum (Np.add (Np.mul (self_cn self)
                                      (map cos (map (fun v => t * v) self_n)))
                              (Np.mul (self_sn self)
                                      (map sin (map (fun v => t * v) self_n)))))
        theta.
Proof. unfold get_thetaR. now rewrite sum_axis1_rows, add_map_right. Qed.

Lemma nth_map_in (f : R -> R) (l : list R) (i : nat) (d d' : R) :
  (i < length l)%nat -> nth i (map f l) d = f (nth i l d').
Proof.
  intros H. rewrite (nth_indep _ d (f d')) by (rewrite length_map; exact H).
  apply map_nth.
Qed.

Lemma flux_surface_normalised (self : MXH) (theta : list R) :
  get_flux_surface self theta true
  = (map (fun tR => self_Rmaj self + self_rho self * cos tR)
         (get_thetaR self theta),
     map (fun t => self_Z0 self + self_kappa self * self_rho self * sin t)
         theta).
Proof. reflexivity. Qed.

(** X8: with all harmonics zero ([np.zeros(n_moments)], the default of
    [default_mxh_inputs]) the angle thetaR is theta itself, its derivative
    is 1 and its second derivative 0, and the flux surface is the ellipse
    R = Rmaj + rho cos(theta), Z = Z0 + kappa rho sin(theta): for non-zero
    [rho] and [kappa] every point satisfies
    ((R - Rmaj) / rho)^2 + ((Z - Z0) / (kappa rho))^2 = 1. *)
Theorem zero_harmonics_give_ellipse (self : MXH) (theta : list R) :
  self_cn self = repeat 0 n_moments -> self_sn self = repeat 0 n_moments ->
  get_thetaR self theta = theta
  /\ get_dthetaR_dtheta self theta = map (fun _ => 1) theta
  /\ get_d2thetaR_dtheta2 self theta = map (fun _ => 0) theta
  /\ get_flux_surface self theta true
     = (map (fun t => self_Rmaj self + self_rho self * cos t) theta,
        map (fun t => self_Z0 self + self_kappa self * self_rho self * sin t)
            theta)
  /\ (self_rho self <> 0 -> self_kappa self <> 0 ->
      forall i, (i < length theta)%nat ->
        ((nth i (fst (get_flux_surface self theta true)) 0 - self_Rmaj self)
         / self_rho self) ^ 2
        + ((nth i (snd (get_flux_surface self theta true)) 0 - self_Z0 self)
           / (self_kappa self * self_rho self)) ^ 2
        = 1).
Proof.
  intros Hc Hs.
  assert (HtR : get_thetaR self theta = theta).
  { rewrite get_thetaR_series by (rewrite ?Hc, ?Hs; reflexivity).
    rewrite Hc, Hs. rewrite <- (map_id theta) at 2.
    apply map_ext. intros t. unfold thetaR_series. simpl. ring. }
  assert (Hfs : get_flux_surface self theta true
                = (map (fun t => self_Rmaj self + self_rho self * cos t) theta,
                   map (fun t => self_Z0 self
                                 + self_kappa self * self_rho self * sin t)
                       theta)).
  { rewrite flux_surface_normalised, HtR. reflexivity. }
  split; [exact HtR | split; [| split; [| split; [exact Hfs |]]]].
  - rewrite get_dthetaR_dtheta_series by (rewrite ?Hc, ?Hs; reflexivity).
    rewrite Hc, Hs. apply map_ext. intros t. unfold dthetaR_series.
    simpl. ring.
  - rewrite get_d2thetaR_dtheta2_series by (rewrite ?Hc, ?Hs; reflexivity).
    rewrite Hc, Hs. apply map_ext. intros t. unfold d2thetaR_series.
    simpl. ring.
  - intros Hrho Hk i Hi. rewrite Hfs. cbn [fst snd].
    rewrite !(nth_map_in _ _ _ 0 0) by exact Hi.
    pose proof (sin2_cos2 (nth i theta 0)) as H. unfold Rsqr in H.
    replace ((self_Rmaj self + self_rho self * cos (nth i theta 0)
              - self_Rmaj self) / self_rho self)
      with (cos (nth i theta 0)) by (field; exact Hrho).
    replace ((self_Z0 self
              + self_kappa self * self_rho self * sin (nth i theta 0)
              - self_Z0 self) / (self_kappa self * self_rho self))
      with (sin (nth i theta 0)) by (field; split; assumption).
    lra.
Qed.

Lemma zero_harmonics_give_ellipse_witness :
  self_cn unit_self = repeat 0 n_moments
  /\ self_sn unit_self = repeat 0 n_moments
  /\ get_thetaR unit_self [0; PI / 2; PI] = [0; PI / 2; PI].
Proof.
  split; [reflexivity | split; [reflexivity |]].
  exact (proj1 (zero_harmonics_give_ellipse unit_self [0; PI / 2; PI]
                                            eq_refl eq_refl)).
Defined.

Lemma row_without_sine0 (c : list R) (s0 s0' : R) (s : list R) (t : R) :
  Np.add (Np.mul c (map cos (map (fun v => t * v) self_n)))
         (Np.mul (s0 :: s) (map sin (map (fun v => t * v) self_n)))
  = Np.add (Np.mul c (map cos (map (fun v => t * v) self_n)))
           (Np.mul (s0' :: s) (map sin (map (fun v => t * v) self_n))).
Proof.
  unfold Np.add, Np.mul, self_n, Np.linspace0. simpl.
  rewrite Rmult_0_r, sin_0, !Rmult_0_r. reflexivity.
Qed.

Lemma get_dthetaR_dr_sine0 (theta dcndr : list R) (d0 d0' : R) (d : list R) :
  get_dthetaR_dr theta dcndr (d0 :: d) = get_dthetaR_dr theta dcndr (d0' :: d).
Proof.
  unfold get_dthetaR_dr. rewrite !sum_axis1_rows.
  apply map_ext. intros t. now rewrite (row_without_sine0 dcndr d0 d0').
Qed.

(** X9: the n = 0 sine harmonic has no effect (the comment on the forced
    [dsndr[0]] says so): for coefficient arrays of [n_moments] entries,
    changing [sn[0]] changes none of [get_thetaR], [get_dthetaR_dtheta],
    [get_d2thetaR_dtheta2] and [get_flux_surface], and changing [dsndr[0]]
    changes neither [get_dthetaR_dr] nor [get_d2thetaR_drdtheta]. *)
Theorem sine_harmonic_0_has_no_effect
        (self : MXH) (theta : list R) (normalised : bool)
        (s0 s0' : R) (s : list R) (dcndr : list R) (d0 d0' : R) (d : list R) :
  length (self_cn self) = n_moments -> length (s0 :: s) = n_moments ->
  length dcndr = n_moments -> length (d0 :: d) = n_moments ->
  get_thetaR (set_sn (s0 :: s) self) theta
  = get_thetaR (set_sn (s0' :: s) self) theta
  /\ get_dthetaR_dtheta (set_sn (s0 :: s) self) theta
     = get_dthetaR_dtheta (set_sn (s0' :: s) self) theta
  /\ get_d2thetaR_dtheta2 (set_sn (s0 :: s) self) theta
     = get_d2thetaR_dtheta2 (set_sn (s0' :: s) self) theta
  /\ get_flux_surface (set_sn (s0 :: s) self) theta normalised
     = get_flux_surface (set_sn (s0' :: s) self) theta normalised
  /\ get_dthetaR_dr theta dcndr (d0 :: d)
     = get_dthetaR_dr theta dcndr (d0' :: d)
  /\ get_d2thetaR_drdtheta theta dcndr (d0 :: d)
     = get_d2thetaR_drdtheta theta dcndr (d0' :: d).
Proof.
  intros _ _ _ _.
  assert (HtR : get_thetaR (set_sn (s0 :: s) self) theta
                = get_thetaR (set_sn (s0' :: s) self) theta).
  { rewrite !get_thetaR_pointwise. cbn [self_cn self_sn set_sn].
    apply map_ext. intros t.
    now rewrite (row_without_sine0 (self_cn self) s0 s0'). }
  split; [exact HtR | split; [| split; [| split; [| split]]]].
  - unfold get_dthetaR_dtheta. rewrite !sum_axis1_rows.
    cbn [self_cn self_sn set_sn]. f_equal. apply map_ext. intros t.
    unfold Np.add, Np.mul, Np.neg, self_n, Np.linspace0. simpl.
    rewrite !Rmult_0_r, !Rmult_0_l. reflexivity.
  - unfold get_d2thetaR_dtheta2. rewrite !sum_axis1_rows.
    cbn [self_cn self_sn set_sn]. f_equal. apply map_ext. intros t.
    unfold Np.add, Np.mul, self_n, Np.linspace0. simpl.
    rewrite !Rmult_0_r, sin_0, !Rmult_0_r. reflexivity.
  - unfold get_flux_surface. rewrite HtR. reflexivity.
  - apply get_dthetaR_dr_sine0.
  - unfold get_d2thetaR_drdtheta. rewrite !sum_axis1_rows.
    apply map_ext. intros t.
    unfold Np.add, Np.mul, Np.neg, self_n, Np.linspace0. simpl.
    rewrite !Rmult_0_l. reflexivity.
Qed.

Lemma sine_harmonic_0_has_no_effect_witness :
  length (self_cn wide_self) = n_moments
  /\ length [5; 6; 7; 8] = n_moments
  /\ length [1; 1; 1; 1] = n_moments
  /\ length [9; 2; 2; 2] = n_moments
  /\ get_dthetaR_dtheta (set_sn [5; 6; 7; 8] wide_self) [0; PI]
     = get_dthetaR_dtheta (set_sn [-5; 6; 7; 8] wide_self) [0; PI]
  /\ get_dthetaR_dr [0; PI] [1; 1; 1; 1] [9; 2; 2; 2]
     = get_dthetaR_dr [0; PI] [1; 1; 1; 1] [0; 2; 2; 2].
Proof.
  repeat (split; [reflexivity |]).
  destruct (sine_harmonic_0_has_no_effect
              wide_self [0; PI] true 5 (-5) [6; 7; 8] [1; 1; 1; 1]
              9 0 [2; 2; 2] eq_refl eq_refl eq_refl eq_refl)
    as (_ & Hd & _ & _ & Hr & _).
  split; [exact Hd | exact Hr].
Defined.

(** X10: a parameter vector with fewer than three entries makes
    [get_RZ_derivatives] raise [IndexError], whatever the angles and the
    flag, and the object is unchanged. *)
Theorem short_params_raise_IndexError
        (theta params : list R) (normalised : bool) (w : world) :
  (length params < 3)%nat ->
  get_RZ_derivatives theta (Some params) normalised w = (Raise IndexError, w).
Proof.
  intros H. unfold get_RZ_derivatives, shape_params, bind, getitem, ret.
  destruct params as [|p0 [|p1 [|p2 p]]]; simpl in H; try lia; reflexivity.
Qed.

Lemma short_params_raise_IndexError_witness :
  (length [1; 2] < 3)%nat
  /\ get_RZ_derivatives [0] (Some [1; 2]) false unit_world
     = (Raise IndexError, unit_world).
Proof.
  assert (H : (length [1; 2] < 3)%nat) by (simpl; lia).
  split; [exact H |].
  exact (short_params_raise_IndexError [0] [1; 2] false unit_world H).
Defined.

Lemma bundle_of_fitted (x : list R) (s : MXH) (wn pr : list string)
      (theta : list R) (normalised : bool) :
  length x = (3 + 2 * n_moments)%nat ->
  get_RZ_derivatives theta (Some x) normalised (mkWorld (fitted x s) wn pr)
  = get_RZ_derivatives theta None normalised (mkWorld (fitted x s) wn pr).
Proof.
  intros Hx.
  destruct x as [|x0 [|x1 [|x2 [|x3 [|x4 [|x5 [|x6 [|x7 x]]]]]]]];
    simpl in Hx; try lia.
  unfold get_RZ_derivatives, shape_params, bind, read, getitem, ret.
  cbn [nth_error obj]. unfold fitted. cbn -[get_thetaR get_dthetaR_dr
    get_dthetaR_dtheta get_dZdtheta get_dZdr get_dRdtheta get_dRdr].
  rewrite (get_dthetaR_dr_sine0 theta _ x7 0 x). reflexivity.
Qed.

(** X11: after a successful fit the stored parameters stand for the
    solution of the solver: the derivative bundle evaluated with the
    solution [fits.x] as [params] is the bundle evaluated from the object,
    for all angles and both values of the flag, although [dsndr[0]] was
    overwritten. *)
Theorem stored_fit_reproduces_solution
        (simpson : list R -> list R -> R)
        (least_squares : (list R -> list R) -> list R -> OptimizeResult)
        (minimise_b_poloidal : MXH -> list R -> list R)
        (str_float : R -> string)
        (Rc Zc b_poloidal : list R) (verbose : bool) (shift : R) (w : world) :
  Zc <> [] -> length Rc = length Zc ->
  exists w1,
    set_shape simpson Rc Zc w = (Return tt, w1)
    /\ let fits :=
         least_squares (minimise_b_poloidal (obj w1)) (initial_params shift) in
       fits_success fits = true ->
       length (fits_x fits) = length (initial_params shift) ->
       exists w2,
         _set_shape_coefficients simpson least_squares minimise_b_poloidal
                                 str_float Rc Zc b_poloidal verbose shift w
         = (Return tt, w2)
         /\ forall theta normalised,
             get_RZ_derivatives theta (Some (fits_x fits)) normalised w2
             = get_RZ_derivatives theta None normalised w2.
Proof.
  intros Hne Hlen.
  destruct (@set_shape_ok simpson Rc Zc w Hne Hlen) as (w1 & Hset & _ & _).
  exists w1. split; [exact Hset |]. intros fits Hs Hx.
  rewrite (@fit_run simpson least_squares minimise_b_poloidal str_float
                   Rc Zc b_poloidal verbose shift w w1 Hset).
  fold fits.
  rewrite store_fit_success; [| exact Hs | rewrite Hx; simpl; lia].
  eexists. split; [reflexivity |].
  intros theta normalised. apply bundle_of_fitted. exact Hx.
Qed.

Lemma stored_fit_reproduces_solution_witness :
  diamond_Z <> []
  /\ length diamond_R = length diamond_Z
  /\ exists w2,
      _set_shape_coefficients trapezoid (accepting_solver 0) zero_residual
                              plain_float diamond_R diamond_Z [] false 0
                              unit_world
      = (Return tt, w2)
      /\ get_RZ_derivatives [0] (Some (initial_params 0)) false w2
         = get_RZ_derivatives [0] None false w2.
Proof.
  assert (Hne : diamond_Z <> []) by discriminate.
  split; [exact Hne | split; [reflexivity |]].
  destruct (stored_fit_reproduces_solution
              trapezoid (accepting_solver 0) zero_residual plain_float
              diamond_R diamond_Z [] false 0 unit_world Hne eq_refl)
    as (w1 & _ & Hfit).
  destruct (Hfit eq_refl eq_refl) as (w2 & Hrun & Hsame).
  exists w2. split; [exact Hrun | exact (Hsame [0] false)].
Defined.

Lemma get_thetaR_length (self : MXH) (theta : list R) :
  length (get_thetaR self theta) = length theta.
Proof. rewrite get_thetaR_pointwise. apply length_map. Qed.

Lemma Rabs_scaled_cos (a x : R) : Rabs (a * cos x) <= Rabs a.
Proof.
  rewrite Rabs_mult. rewrite <- (Rmult_1_r (Rabs a)) at 2.
  apply Rmult_le_compat_l; [apply Rabs_pos |].
  apply Rabs_le. apply COS_bound.
Qed.

Lemma Rabs_scaled_sin (a x : R) : Rabs (a * sin x) <= Rabs a.
Proof.
  rewrite Rabs_mult. rewrite <- (Rmult_1_r (Rabs a)) at 2.
  apply Rmult_le_compat_l; [apply Rabs_pos |].
  apply Rabs_le. apply SIN_bound.
Qed.

(** X12: [get_flux_surface] returns one R and one Z for each angle.  The
    normalised surface lies in the box |R - Rmaj| <= |rho|,
    |Z - Z0| <= |kappa rho|, whatever the harmonics, and the surface that
    is not normalised is the normalised one with R and Z multiplied by
    [a_minor]. *)
Theorem flux_surface_in_box (self : MXH) (theta : list R) :
  length (self_cn self) = n_moments -> length (self_sn self) = n_moments ->
  let Rs := fst (get_flux_surface self theta true) in
  let Zs := snd (get_flux_surface self theta true) in
  length Rs = length theta
  /\ length Zs = length theta
  /\ (forall i, (i < length theta)%nat ->
        Rabs (nth i Rs 0 - self_Rmaj self) <= Rabs (self_rho self)
        /\ Rabs (nth i Zs 0 - self_Z0 self)
           <= Rabs (self_kappa self * self_rho self))
  /\ get_flux_surface self theta false
     = (map (fun v => v * self_a_minor self) Rs,
        map (fun v => v * self_a_minor self) Zs).
Proof.
  intros _ _ Rs Zs. subst Rs Zs. rewrite flux_surface_normalised.
  cbn [fst snd].
  split; [| split; [| split]].
  - now rewrite length_map, get_thetaR_length.
  - apply length_map.
  - intros i Hi. split.
    + rewrite (nth_map_in _ _ _ 0 0) by (now rewrite get_thetaR_length).
      replace (self_Rmaj self
               + self_rho self * cos (nth i (get_thetaR self theta) 0)
               - self_Rmaj self)
        with (self_rho self * cos (nth i (get_thetaR self theta) 0)) by ring.
      apply Rabs_scaled_cos.
    + rewrite (nth_map_in _ _ _ 0 0) by exact Hi.
      replace (self_Z0 self
               + self_kappa self * self_rho self * sin (nth i theta 0)
               - self_Z0 self)
        with (self_kappa self * self_rho self * sin (nth i theta 0)) by ring.
      apply Rabs_scaled_sin.
  - reflexivity.
Qed.

Lemma flux_surface_in_box_witness :
  length (self_cn unit_self) = n_moments
  /\ length (self_sn unit_self) = n_moments
  /\ length (fst (get_flux_surface unit_self [0; 1] true)) = length [0; 1].
Proof.
  split; [reflexivity | split; [reflexivity |]].
  exact (proj1 (flux_surface_in_box unit_self [0; 1] eq_refl eq_refl)).
Defined.

(** X13: the theta derivatives that the engine returns are the
    derivatives of the surface that [get_flux_surface] returns.  With
    [normalised] set on both sides this holds for every object; with it
    unset on both sides it holds when [r_minor = rho * a_minor]. *)
Theorem theta_derivatives_match_flux_surface (self : MXH) (t : R) :
  length (self_cn self) = n_moments -> length (self_sn self) = n_moments ->
  let R_at (normalised : bool) (u : R) :=
    nth 0 (fst (get_flux_surface self [u] normalised)) 0 in
  let Z_at (normalised : bool) (u : R) :=
    nth 0 (snd (get_flux_surface self [u] normalised)) 0 in
  let dRdtheta (normalised : bool) :=
    nth 0 (get_dRdtheta self (get_thetaR self [t])
                        (get_dthetaR_dtheta self [t]) normalised) 0 in
  let dZdtheta (normalised : bool) :=
    nth 0 (get_dZdtheta self [t] normalised) 0 in
  derivable_pt_lim (R_at true) t (dRdtheta true)
  /\ derivable_pt_lim (Z_at true) t (dZdtheta true)
  /\ (self_r_minor self = self_rho self * self_a_minor self ->
      derivable_pt_lim (R_at false) t (dRdtheta false)
      /\ derivable_pt_lim (Z_at false) t (dZdtheta false)).
Proof.
  intros Hc Hs R_at Z_at dRdtheta dZdtheta.
  set (cn := self_cn self). set (sn := self_sn self).
  assert (HR : forall a,
             derivable_pt_lim
               (fun u => (self_Rmaj self
                          + self_rho self * cos (thetaR_series cn sn u)) * a)
               t
               (- (self_rho self * a) * sin (thetaR_series cn sn t)
                * dthetaR_series cn sn t)).
  { intros a.
    apply derive_as
      with (f := fun u => a * (self_Rmaj self
                               + self_rho self * cos (thetaR_series cn sn u)))
           (l := a * (- self_rho self * sin (thetaR_series cn sn t)
                      * dthetaR_series cn sn t)).
    - apply (@derive_scal a
               (fun u => self_Rmaj self
                         + self_rho self * cos (thetaR_series cn sn u))).
      apply R_theta_derivative.
    - intros z. ring.
    - ring. }
  assert (HZ : forall a,
             derivable_pt_lim
               (fun u => (self_Z0 self
                          + self_kappa self * self_rho self * sin u) * a)
               t (self_kappa self * (self_rho self * a) * cos t)).
  { intros a.
    apply derive_as
      with (f := fun u => self_Z0 self * a
                          + (self_kappa self * self_rho self * a) * sin u)
           (l := 0 + (self_kappa self * self_rho self * a) * cos t).
    - apply (@derive_plus (fun _ => self_Z0 self * a)
                         (fun u => (self_kappa self * self_rho self * a)
                                   * sin u)).
      + apply derive_const.
      + apply (@derive_scal (self_kappa self * self_rho self * a) sin).
        apply derivable_pt_lim_sin.
    - intros z. ring.
    - ring. }
  assert (HtR : forall u, get_thetaR self [u] = [thetaR_series cn sn u]).
  { intros u. now rewrite get_thetaR_series. }
  assert (Hd : get_dthetaR_dtheta self [t] = [dthetaR_series cn sn t]).
  { now rewrite get_dthetaR_dtheta_series. }
  split; [| split; [| intros Hr; split]].
  - apply derive_as
      with (f := fun u => (self_Rmaj self
                           + self_rho self * cos (thetaR_series cn sn u)) * 1)
           (l := - (self_rho self * 1) * sin (thetaR_series cn sn t)
                 * dthetaR_series cn sn t).
    + apply HR.
    + intros z. unfold R_at. rewrite flux_surface_normalised, HtR.
      cbn [fst map nth]. ring.
    + unfold dRdtheta. rewrite HtR, Hd. cbn. ring.
  - apply derive_as
      with (f := fun u => (self_Z0 self
                           + self_kappa self * self_rho self * sin u) * 1)
           (l := self_kappa self * (self_rho self * 1) * cos t).
    + apply HZ.
    + intros z. unfold Z_at. rewrite flux_surface_normalised.
      cbn [snd map nth]. ring.
    + unfold dZdtheta. cbn. ring.
  - apply derive_as
      with (f := fun u => (self_Rmaj self
                           + self_rho self * cos (thetaR_series cn sn u))
                          * self_a_minor self)
           (l := - (self_rho self * self_a_minor self)
                 * sin (thetaR_series cn sn t) * dthetaR_series cn sn t).
    + apply HR.
    + intros z. unfold R_at, get_flux_surface. rewrite HtR. reflexivity.
    + unfold dRdtheta. rewrite HtR, Hd. cbn. rewrite Hr. ring.
  - apply derive_as
      with (f := fun u => (self_Z0 self
                           + self_kappa self * self_rho self * sin u)
                          * self_a_minor self)
           (l := self_kappa self * (self_rho self * self_a_minor self) * cos t).
    + apply HZ.
    + intros z. reflexivity.
    + unfold dZdtheta. cbn. rewrite Hr. ring.
Qed.

Lemma theta_derivatives_match_flux_surface_witness :
  length (self_cn unit_self) = n_moments
  /\ length (self_sn unit_self) = n_moments
  /\ derivable_pt_lim
       (fun u => nth 0 (fst (get_flux_surface unit_self [u] true)) 0) 0
       (nth 0 (get_dRdtheta unit_self (get_thetaR unit_self [0])
                            (get_dthetaR_dtheta unit_self [0]) true) 0).
Proof.
  split; [reflexivity | split; [reflexivity |]].
  exact (proj1 (theta_derivatives_match_flux_surface unit_self 0
                                                     eq_refl eq_refl)).
Defined.

Lemma first_derivatives_closed_form (w : world) (normalised : bool) (u : R) :
  length (self_cn (obj w)) = n_moments ->
  length (self_sn (obj w)) = n_moments ->
  length (self_dcndr (obj w)) = n_moments ->
  length (self_dsndr (obj w)) = n_moments ->
  let self := obj w in
  let tR := thetaR_series (self_cn self) (self_sn self) in
  let dtR := dthetaR_series (self_cn self) (self_sn self) in
  let dtRdr := dthetaR_dr_series (self_dcndr self) (self_dsndr self) in
  first_derivatives_at w normalised u
  = (- rmin_of self normalised * sin (tR u) * dtR u,
     self_shift self + cos (tR u) - self_rho self * sin (tR u) * dtRdr u,
     self_kappa self * rmin_of self normalised * cos u,
     self_dZ0dr self + self_kappa self * sin u * (1 + self_s_kappa self)).
Proof.
  intros Hc Hs Hdc Hds. cbv zeta.
  unfold first_derivatives_at, get_RZ_derivatives, shape_params, bind, read,
    ret.
  cbn [fst].
  rewrite (get_thetaR_series (obj w) [u] Hc Hs).
  rewrite (get_dthetaR_dtheta_series (obj w) [u] Hc Hs).
  rewrite (get_dthetaR_dr_series [u] _ _ Hdc Hds).
  reflexivity.
Qed.

(** X14: the second derivatives are the derivatives of the first ones.
    For stored coefficient arrays of [n_moments] entries,
    [get_RZ_second_derivatives] returns at every angle the derivatives
    along theta of the four arrays that [get_RZ_derivatives] returns from
    the stored parameters, for either value of [normalised]. *)
Theorem second_derivatives_differentiate_first
        (w : world) (normalised : bool) (t : R) :
  length (self_cn (obj w)) = n_moments ->
  length (self_sn (obj w)) = n_moments ->
  length (self_dcndr (obj w)) = n_moments ->
  length (self_dsndr (obj w)) = n_moments ->
  exists d2Rdtheta2 d2Rdrdtheta d2Zdtheta2 d2Zdrdtheta,
    get_RZ_second_derivatives [t] normalised w
    = (Return ([d2Rdtheta2], [d2Rdrdtheta], [d2Zdtheta2], [d2Zdrdtheta]), w)
    /\ derivable_pt_lim
         (fun u => fst (fst (fst (first_derivatives_at w normalised u))))
         t d2Rdtheta2
    /\ derivable_pt_lim
         (fun u => snd (fst (fst (first_derivatives_at w normalised u))))
         t d2Rdrdtheta
    /\ derivable_pt_lim
         (fun u => snd (fst (first_derivatives_at w normalised u)))
         t d2Zdtheta2
    /\ derivable_pt_lim
         (fun u => snd (first_derivatives_at w normalised u))
         t d2Zdrdtheta.
Proof.
  intros Hc Hs Hdc Hds.
  set (self := obj w).
  set (cn := self_cn self). set (sn := self_sn self).
  set (dc := self_dcndr self). set (ds := self_dsndr self).
  set (r := rmin_of self normalised).
  do 4 eexists. split.
  { unfold get_RZ_second_derivatives, bind, read, ret.
    subst self cn sn dc ds r.
    rewrite (get_thetaR_series (obj w) [t] Hc Hs).
    rewrite (get_dthetaR_dtheta_series (obj w) [t] Hc Hs).
    rewrite (get_d2thetaR_dtheta2_series (obj w) [t] Hc Hs).
    rewrite (get_dthetaR_dr_series [t] _ _ Hdc Hds).
    rewrite (get_d2thetaR_drdtheta_series [t] _ _ Hdc Hds).
    reflexivity. }
  assert (Hfirst := fun u =>
            first_derivatives_closed_form w normalised u Hc Hs Hdc Hds).
  cbv zeta in Hfirst. fold self cn sn dc ds r in Hfirst.
  split; [| split; [| split]].
  - apply derive_as
      with (f := fun u => - r * sin (thetaR_series cn sn u)
                          * dthetaR_series cn sn u)
           (l := - r * sin (thetaR_series cn sn t) * d2thetaR_series cn sn t
                 - r * dthetaR_series cn sn t ^ 2
                   * cos (thetaR_series cn sn t)).
    + apply dRdtheta_derivative.
    + intros z. now rewrite Hfirst.
    + cbn. fold self cn sn r. ring.
  - apply derive_as
      with (f := fun u => self_shift self
                          + (cos (thetaR_series cn sn u)
                             + (- self_rho self * sin (thetaR_series cn sn u))
                               * dthetaR_dr_series dc ds u))
           (l := 0
                 + (- sin (thetaR_series cn sn t) * dthetaR_series cn sn t
                    + ((- self_rho self
                        * (cos (thetaR_series cn sn t)
                           * dthetaR_series cn sn t))
                       * dthetaR_dr_series dc ds t
                       + (- self_rho self * sin (thetaR_series cn sn t))
                         * d2thetaR_drdtheta_series dc ds t))).
    + apply (@derive_plus (fun _ => self_shift self)
               (fun u => cos (thetaR_series cn sn u)
                         + (- self_rho self * sin (thetaR_series cn sn u))
                           * dthetaR_dr_series dc ds u)).
      * apply derive_const.
      * apply (@derive_plus (fun u => cos (thetaR_series cn sn u))
                 (fun u => (- self_rho self * sin (thetaR_series cn sn u))
                           * dthetaR_dr_series dc ds u)).
        -- apply derive_cos_of, thetaR_series_derivative.
        -- apply (@derive_mult
                    (fun u => - self_rho self * sin (thetaR_series cn sn u))
                    (dthetaR_dr_series dc ds)).
           ++ apply (@derive_scal (- self_rho self)
                       (fun u => sin (thetaR_series cn sn u))).
              apply derive_sin_of, thetaR_series_derivative.
           ++ apply dthetaR_dr_series_derivative.
    + intros z. rewrite Hfirst. cbn [fst snd]. ring.
    + cbn. fold self cn sn dc ds. ring.
  - apply derive_as
      with (f := fun u => (self_kappa self * r) * cos u)
           (l := (self_kappa self * r) * (- sin t)).
    + apply (@derive_scal (self_kappa self * r) cos).
      apply derivable_pt_lim_cos.
    + intros z. rewrite Hfirst. reflexivity.
    + cbn. fold self r. ring.
  - apply derive_as
      with (f := fun u => self_dZ0dr self
                          + (self_kappa self * (1 + self_s_kappa self))
                            * sin u)
           (l := 0 + (self_kappa self * (1 + self_s_kappa self)) * cos t).
    + apply (@derive_plus (fun _ => self_dZ0dr self)
               (fun u => (self_kappa self * (1 + self_s_kappa self)) * sin u)).
      * apply derive_const.
      * apply (@derive_scal (self_kappa self * (1 + self_s_kappa self)) sin).
        apply derivable_pt_lim_sin.
    + intros z. rewrite Hfirst. cbn [snd]. ring.
    + cbn. fold self. ring.
Qed.

Lemma second_derivatives_differentiate_first_witness :
  length (self_cn (obj unit_world)) = n_moments
  /\ length (self_sn (obj unit_world)) = n_moments
  /\ length (self_dcndr (obj unit_world)) = n_moments
  /\ length (self_dsndr (obj unit_world)) = n_moments
  /\ exists a b c d,
      get_RZ_second_derivatives [0] false unit_world
      = (Return ([a], [b], [c], [d]), unit_world)
      /\ derivable_pt_lim
           (fun u => snd (first_derivatives_at unit_world false u)) 0 d.
Proof.
  split; [reflexivity | split; [reflexivity | split; [reflexivity |
    split; [reflexivity |]]]].
  destruct (second_derivatives_differentiate_first
              unit_world false 0 eq_refl eq_refl eq_refl eq_refl)
    as (a & b & c & d & Hrun & _ & _ & _ & Hd).
  exists a, b, c, d. split; [exact Hrun | exact Hd].
Defined.

Lemma derive_scal_right (f : R -> R) (c x l : R) :
  derivable_pt_lim f x l -> derivable_pt_lim (fun u => f u * c) x (l * c).
Proof.
  intros Hf.
  apply derive_as with (f := fun u => c * f u) (l := c * l).
  - now apply (@derive_scal c f).
  - intros z. ring.
  - ring.
Qed.

(** The harmonic sum at a fixed angle, along a family of coefficients. *)
Lemma thetaR_series_radial_derivative
      (cn_of sn_of : R -> list R) (dcndr dsndr : list R) (t r0 : R) :
  (forall k, derivable_pt_lim (fun r => nth k (cn_of r) 0) r0 (nth k dcndr 0)) ->
  (forall k, derivable_pt_lim (fun r => nth k (sn_of r) 0) r0 (nth k dsndr 0)) ->
  derivable_pt_lim (fun r => thetaR_series (cn_of r) (sn_of r) t) r0
                   (dthetaR_dr_series dcndr dsndr t).
Proof.
  intros Hc Hs. unfold thetaR_series, dthetaR_dr_series.
  apply derive_as
    with (f := fun r =>
                 t + Np.sum (map (fun k =>
                                    nth k (cn_of r) 0 * cos (INR k * t)
                                    + nth k (sn_of r) 0 * sin (INR k * t))
                                 (seq 0 n_moments)))
         (l := 0 + Np.sum (map (fun k =>
                                  nth k dcndr 0 * cos (INR k * t)
                                  + nth k dsndr 0 * sin (INR k * t))
                               (seq 0 n_moments))).
  - apply (@derive_plus (fun _ => t)
             (fun r => Np.sum (map (fun k =>
                                      nth k (cn_of r) 0 * cos (INR k * t)
                                      + nth k (sn_of r) 0 * sin (INR k * t))
                                   (seq 0 n_moments)))).
    + apply derive_const.
    + apply (@derive_sum (seq 0 n_moments)
               (fun k r => nth k (cn_of r) 0 * cos (INR k * t)
                           + nth k (sn_of r) 0 * sin (INR k * t))
               (fun k _ => nth k dcndr 0 * cos (INR k * t)
                           + nth k dsndr 0 * sin (INR k * t))).
      intros k.
      apply (@derive_plus (fun r => nth k (cn_of r) 0 * cos (INR k * t))
                          (fun r => nth k (sn_of r) 0 * sin (INR k * t))).
      * apply derive_scal_right, Hc.
      * apply derive_scal_right, Hs.
  - reflexivity.
  - ring.
Qed.

(** X15: [get_dRdr] and [get_dZdr] are the radial derivatives of the
    surface.  Let the major radius, the midplane, the elongation and the
    harmonics vary differentiably with the radius, through the object at
    its own radius [rho], with the derivatives [shift], [dZ0dr], [dkappa],
    [dcndr] and [dsndr] there.  Then R and Z of [get_flux_surface] at a
    fixed angle have the derivatives along the radius that [get_dRdr]
    returns and that [get_dZdr] returns for [s_kappa = rho dkappa / kappa]. *)
Theorem radial_derivatives_match_flux_surface
        (self : MXH) (Rmaj_of Z0_of kappa_of : R -> R)
        (cn_of sn_of : R -> list R)
        (shift dZ0dr dkappa : R) (dcndr dsndr : list R) (t : R) :
  let r0 := self_rho self in
  let surface (r : R) :=
    get_flux_surface
      (at_radius self r (Rmaj_of r) (Z0_of r) (kappa_of r) (cn_of r) (sn_of r))
      [t] true in
  at_radius self r0 (Rmaj_of r0) (Z0_of r0) (kappa_of r0) (cn_of r0) (sn_of r0)
  = self ->
  (forall r, length (cn_of r) = n_moments) ->
  (forall r, length (sn_of r) = n_moments) ->
  length dcndr = n_moments -> length dsndr = n_moments ->
  derivable_pt_lim Rmaj_of r0 shift ->
  derivable_pt_lim Z0_of r0 dZ0dr ->
  derivable_pt_lim kappa_of r0 dkappa ->
  (forall k, derivable_pt_lim (fun r => nth k (cn_of r) 0) r0 (nth k dcndr 0)) ->
  (forall k, derivable_pt_lim (fun r => nth k (sn_of r) 0) r0 (nth k dsndr 0)) ->
  self_kappa self <> 0 ->
  derivable_pt_lim
    (fun r => nth 0 (fst (surface r)) 0) r0
    (nth 0 (get_dRdr self shift (get_thetaR self [t])
                     (get_dthetaR_dr [t] dcndr dsndr)) 0)
  /\ derivable_pt_lim
       (fun r => nth 0 (snd (surface r)) 0) r0
       (nth 0 (get_dZdr self [t] dZ0dr (r0 * dkappa / self_kappa self)) 0).
Proof.
  intros r0 surface Hself Hlc Hls Hdc Hds HR HZ Hk Hcn Hsn Hkappa.
  assert (Ecn : cn_of r0 = self_cn self) by exact (f_equal self_cn Hself).
  assert (Esn : sn_of r0 = self_sn self) by exact (f_equal self_sn Hself).
  assert (Ek : kappa_of r0 = self_kappa self)
    by exact (f_equal self_kappa Hself).
  pose proof (thetaR_series_radial_derivative cn_of sn_of dcndr dsndr t r0
                                              Hcn Hsn) as Hg.
  set (g := fun r => thetaR_series (cn_of r) (sn_of r) t) in *.
  split.
  - apply derive_as
      with (f := fun r => Rmaj_of r + id r * cos (g r))
           (l := shift + (1 * cos (g r0)
                          + id r0 * (- sin (g r0)
                                     * dthetaR_dr_series dcndr dsndr t))).
    + apply (@derive_plus Rmaj_of (fun r => id r * cos (g r))); [exact HR |].
      apply (@derive_mult id (fun r => cos (g r))).
      * apply derivable_pt_lim_id.
      * apply derive_cos_of. exact Hg.
    + intros r. unfold surface. rewrite flux_surface_normalised.
      rewrite get_thetaR_series by (cbn; auto). reflexivity.
    + rewrite get_thetaR_series by (rewrite <- ?Ecn, <- ?Esn; auto).
      rewrite get_dthetaR_dr_series by assumption.
      cbn. unfold g, id. rewrite Ecn, Esn. fold r0. ring.
  - apply derive_as
      with (f := fun r => Z0_of r + (kappa_of r * id r) * sin t)
           (l := dZ0dr + (dkappa * id r0 + kappa_of r0 * 1) * sin t).
    + apply (@derive_plus Z0_of (fun r => (kappa_of r * id r) * sin t));
        [exact HZ |].
      apply (derive_scal_right (fun r => kappa_of r * id r)).
      apply (@derive_mult kappa_of id); [exact Hk |].
      apply derivable_pt_lim_id.
    + intros r. reflexivity.
    + cbn. unfold id. rewrite Ek. fold r0. field. exact Hkappa.
Qed.

Lemma radial_derivatives_match_flux_surface_witness :
  derivable_pt_lim
    (fun r =>
       nth 0 (fst (get_flux_surface
                     (at_radius unit_self r 3 0 1 [0; 0; 0; 0] [0; 0; 0; 0])
                     [0] true)) 0)
    1
    (nth 0 (get_dRdr unit_self 0 (get_thetaR unit_self [0])
                     (get_dthetaR_dr [0] [0; 0; 0; 0] [0; 0; 0; 0])) 0).
Proof.
  assert (Hzero : forall k,
             derivable_pt_lim (fun _ : R => nth k [0; 0; 0; 0] 0) 1
                              (nth k [0; 0; 0; 0] 0)).
  { intros k.
    replace (nth k [0; 0; 0; 0] 0) with 0
      by (do 5 (destruct k as [|k]; [reflexivity |]); reflexivity).
    apply derive_const. }
  assert (Hone : self_kappa unit_self <> 0) by (simpl; lra).
  exact (proj1 (radial_derivatives_match_flux_surface
                  unit_self (fun _ => 3) (fun _ => 0) (fun _ => 1)
                  (fun _ => [0; 0; 0; 0]) (fun _ => [0; 0; 0; 0])
                  0 0 0 [0; 0; 0; 0] [0; 0; 0; 0] 0
                  eq_refl (fun _ => eq_refl) (fun _ => eq_refl)
                  eq_refl eq_refl
                  (derive_const 3 1) (derive_const 0 1) (derive_const 1 1)
                  Hzero Hzero Hone)).
Defined.

(** ** More on the contour and the fit *)

(** X16: a contour without points makes [_set_shape_coefficients] raise
    [ValueError] (from [max] of an empty sequence), and one whose R array
    ends before the index of the largest |Z| makes it raise [IndexError];
    in both cases nothing has been assigned, warned or printed. *)
Theorem bad_contour_raises_before_any_assignment
        (simpson : list R -> list R -> R)
        (least_squares : (list R -> list R) -> list R -> OptimizeResult)
        (minimise_b_poloidal : MXH -> list R -> list R)
        (str_float : R -> string)
        (Rc Zc b_poloidal : list R) (verbose : bool) (shift : R) (w : world) :
  (Zc = [] ->
   _set_shape_coefficients simpson least_squares minimise_b_poloidal
                           str_float Rc Zc b_poloidal verbose shift w
   = (Raise ValueError, w))
  /\ (forall Zind,
         Np.argmax (map Rabs Zc) = Some Zind -> (length Rc <= Zind)%nat ->
         _set_shape_coefficients simpson least_squares minimise_b_poloidal
                                 str_float Rc Zc b_poloidal verbose shift w
         = (Raise IndexError, w)).
Proof.
  split.
  - intros ->. reflexivity.
  - intros Zind Harg Hshort.
    destruct Zc as [|z Zc]; [discriminate |].
    unfold _set_shape_coefficients, set_shape, contour_angles, contour_Zmid,
      contour_R_upper, contour_Zind.
    unfold bind, nonempty, read, ret. rewrite Harg. cbn [Np.max Np.min].
    unfold ret.
    now rewrite (getitem_short Rc Zind w Hshort).
Qed.

Lemma set_shape_explicit
      (simpson : list R -> list R -> R) (Rc Zc : list R) (w : world) :
  Zc <> [] -> length Rc = length Zc ->
  exists lo hi theta thetaR,
    Np.max Zc = Some hi /\ Np.min Zc = Some lo
    /\ length theta = length Zc
    /\ set_shape simpson Rc Zc w
       = (Return tt,
          mkWorld (shaped ((hi - lo) / (2 * self_r_minor (obj w))) theta
                          (fst (harmonics simpson theta thetaR))
                          (snd (harmonics simpson theta thetaR)) (obj w))
                  (warned w) (printed w)).
Proof.
  intros Hne Hlen.
  destruct (@contour_Zmid_run Zc w Hne) as (lo & hi & _ & Hmax & Hmin & _).
  destruct (@R_upper_index_exists Rc Zc Hne Hlen) as (j & ru & Harg & HR).
  pose proof (@contour_angles_run Rc Zc w lo hi ru j Hmax Hmin Harg HR) as Hang.
  cbv zeta in Hang.
  match type of Hang with
  | _ = (Return (_, ?th, ?thR), _) =>
      assert (Hth : length th = length Zc /\ length thR = length Zc)
  end.
  { clear Hang.
    unfold normalised_height, normalised_radius, clamp_unit, Np.where_const.
    generalize (self_r_minor (obj w)) (self_Rmaj (obj w))
      (self_a_minor (obj w)) ((hi - lo) / (2 * self_r_minor (obj w)))
      ((hi + lo) / 2).
    intros a b c k m. clear - Hlen. revert Rc Hlen.
    induction Zc as [|z Zc IH]; intros [|r Rc] Hlen; try discriminate;
      [split; reflexivity |].
    injection Hlen as Hlen. destruct (IH Rc Hlen) as [H1 H2].
    split; simpl; f_equal; assumption. }
  destruct Hth as [Hth HthR].
  match type of Hang with
  | _ = (Return (_, ?th, ?thR), _) =>
      destruct th as [|t0 th'] eqn:Eth;
      [destruct Zc; [congruence | discriminate] |];
      destruct thR as [|tR0 thR'] eqn:EthR;
      [destruct Zc; [congruence | discriminate] |]
  end.
  assert (Hwrap : exists u uR,
             wrap_first (t0 :: th') (tR0 :: thR') w
             = (Return (u :: th', uR :: thR'), w)).
  { unfold wrap_first, bind, getitem, additem0, ret. simpl.
    destruct (Np.gtb t0 PI); eauto. }
  destruct Hwrap as (u & uR & Hwrap).
  exists lo, hi, (u :: th'), (uR :: thR').
  split; [exact Hmax | split; [exact Hmin | split; [exact Hth |]]].
  exact (@set_shape_run simpson Rc Zc w _ _ _ _ _ Hang Hwrap).
Qed.

Lemma harmonics_lengths (simpson : list R -> list R -> R)
      (theta thetaR : list R) :
  length (fst (harmonics simpson theta thetaR)) = n_moments
  /\ length (snd (harmonics simpson theta thetaR)) = n_moments.
Proof.
  unfold harmonics, Np.rows, Np.outer, self_n, Np.linspace0. cbn [fst snd].
  rewrite !length_map, length_seq. split; reflexivity.
Qed.

(** X17: a fit that fails is not rolled back.  When the solver reports
    failure the exception leaves behind an object whose [kappa],
    [theta_eq], [theta], [cn] and [sn] are those of the new contour, while
    [shift], [s_kappa], [dZ0dr], [dcndr], [dsndr] and [dthetaR_dr] are
    still the old ones. *)
Theorem failed_fit_leaves_new_shape_and_old_shear
        (simpson : list R -> list R -> R)
        (least_squares : (list R -> list R) -> list R -> OptimizeResult)
        (minimise_b_poloidal : MXH -> list R -> list R)
        (str_float : R -> string)
        (Rc Zc b_poloidal : list R) (verbose : bool) (shift : R) (w : world) :
  Zc <> [] -> length Rc = length Zc ->
  exists w1 lo hi,
    set_shape simpson Rc Zc w = (Return tt, w1)
    /\ Np.max Zc = Some hi /\ Np.min Zc = Some lo
    /\ (fits_success
          (least_squares (minimise_b_poloidal (obj w1)) (initial_params shift))
        = false ->
        snd (_set_shape_coefficients simpson least_squares minimise_b_poloidal
                                     str_float Rc Zc b_poloidal verbose shift w)
        = w1)
    /\ self_kappa (obj w1) = (hi - lo) / (2 * self_r_minor (obj w))
    /\ length (self_theta_eq (obj w1)) = length Zc
    /\ self_theta (obj w1) = self_theta_eq (obj w1)
    /\ length (self_cn (obj w1)) = n_moments
    /\ length (self_sn (obj w1)) = n_moments
    /\ self_shift (obj w1) = self_shift (obj w)
    /\ self_s_kappa (obj w1) = self_s_kappa (obj w)
    /\ self_dZ0dr (obj w1) = self_dZ0dr (obj w)
    /\ self_dcndr (obj w1) = self_dcndr (obj w)
    /\ self_dsndr (obj w1) = self_dsndr (obj w)
    /\ self_dthetaR_dr (obj w1) = self_dthetaR_dr (obj w).
Proof.
  intros Hne Hlen.
  destruct (set_shape_explicit simpson Rc Zc w Hne Hlen)
    as (lo & hi & theta & thetaR & Hmax & Hmin & Hth & Hset).
  destruct (harmonics_lengths simpson theta thetaR) as [Hc Hs].
  eexists. exists lo, hi.
  split; [exact Hset | split; [exact Hmax | split; [exact Hmin | split]]].
  - intros Hfail.
    rewrite (@fit_run simpson least_squares minimise_b_poloidal str_float
                      Rc Zc b_poloidal verbose shift w _ Hset).
    now rewrite store_fit_failure.
  - cbn [obj]. unfold shaped. cbn.
    repeat split; assumption.
Qed.

Lemma failed_fit_leaves_new_shape_and_old_shear_witness :
  diamond_Z <> []
  /\ length diamond_R = length diamond_Z
  /\ exists w1,
      snd (_set_shape_coefficients trapezoid (failing_solver 5) zero_residual
                                   plain_float diamond_R diamond_Z [] false 0
                                   unit_world)
      = w1
      /\ length (self_theta_eq (obj w1)) = length diamond_Z
      /\ self_dsndr (obj w1) = self_dsndr (obj unit_world).
Proof.
  assert (Hne : diamond_Z <> []) by discriminate.
  split; [exact Hne | split; [reflexivity |]].
  destruct (failed_fit_leaves_new_shape_and_old_shear
              trapezoid (failing_solver 5) zero_residual plain_float
              diamond_R diamond_Z [] false 0 unit_world Hne eq_refl)
    as (w1 & lo & hi & _ & _ & _ & Hfail & _ & Hth & _ & _ & _ & _ & _ & _
        & _ & Hds & _).
  exists w1. split; [exact (Hfail eq_refl) | split; [exact Hth | exact Hds]].
Defined.

(** X18: what a successful fit writes out.  It issues no warning when the
    cost is at most 0.1 (the comparison is strict) and exactly one when it
    is above; it prints exactly one line when [verbose] is set and nothing
    otherwise. *)
Theorem successful_fit_output
        (simpson : list R -> list R -> R)
        (least_squares : (list R -> list R) -> list R -> OptimizeResult)
        (minimise_b_poloidal : MXH -> list R -> list R)
        (str_float : R -> string)
        (Rc Zc b_poloidal : list R) (verbose : bool) (shift : R) (w : world) :
  Zc <> [] -> length Rc = length Zc ->
  exists w1,
    set_shape simpson Rc Zc w = (Return tt, w1)
    /\ let fits :=
         least_squares (minimise_b_poloidal (obj w1)) (initial_params shift) in
       fits_success fits = true ->
       length (fits_x fits) = length (initial_params shift) ->
       exists w2,
         _set_shape_coefficients simpson least_squares minimise_b_poloidal
                                 str_float Rc Zc b_poloidal verbose shift w
         = (Return tt, w2)
         /\ (fits_cost fits <= 1 / 10 -> warned w2 = warned w)
         /\ (1 / 10 < fits_cost fits ->
             warned w2 = warned w ++ [fit_poor_message str_float fits])
         /\ printed w2
            = printed w
              ++ (if verbose
                  then [("MXH :: Fit to Bpoloidal obtained with residual "
                         ++ str_float (fits_cost fits))%string]
                  else []).
Proof.
  intros Hne Hlen.
  destruct (@set_shape_ok simpson Rc Zc w Hne Hlen) as (w1 & Hset & Hw & Hp).
  exists w1. split; [exact Hset |]. intros fits Hs Hx.
  rewrite (@fit_run simpson least_squares minimise_b_poloidal str_float
                    Rc Zc b_poloidal verbose shift w w1 Hset).
  fold fits.
  rewrite store_fit_success; [| exact Hs | rewrite Hx; simpl; lia].
  eexists. split; [reflexivity |]. cbn [warned printed]. rewrite Hw, Hp.
  unfold Np.gtb, Np.ltb.
  split; [| split].
  - intros Hc. destruct (Rlt_dec (1 / 10) (fits_cost fits)); [lra |].
    apply app_nil_r.
  - intros Hc. destruct (Rlt_dec (1 / 10) (fits_cost fits)); [| lra].
    reflexivity.
  - reflexivity.
Qed.

Lemma successful_fit_output_witness :
  diamond_Z <> []
  /\ length diamond_R = length diamond_Z
  /\ exists w2,
      _set_shape_coefficients trapezoid (accepting_solver (1 / 10))
                              zero_residual plain_float diamond_R diamond_Z
                              [] true 0 unit_world
      = (Return tt, w2)
      /\ warned w2 = []
      /\ printed w2
         = ["MXH :: Fit to Bpoloidal obtained with residual <float>"%string].
Proof.
  assert (Hne : diamond_Z <> []) by discriminate.
  split; [exact Hne | split; [reflexivity |]].
  destruct (successful_fit_output
              trapezoid (accepting_solver (1 / 10)) zero_residual plain_float
              diamond_R diamond_Z [] true 0 unit_world Hne eq_refl)
    as (w1 & _ & Hfit).
  destruct (Hfit eq_refl eq_refl) as (w2 & Hrun & Hquiet & _ & Hpr).
  exists w2. split; [exact Hrun | split; [| exact Hpr]].
  apply Hquiet. simpl. lra.
Defined.

(** X19: after a successful fit the arrays cached on the object agree
    with its coefficients: [thetaR], [dthetaR_dtheta], [R], [Z] and
    [dthetaR_dr] are what [get_thetaR], [get_dthetaR_dtheta],
    [get_flux_surface] and [get_dthetaR_dr] return for the stored [theta]
    and the stored coefficients, [theta] is [theta_eq] with one angle for
    each point of the contour, and each of [cn], [sn], [dcndr], [dsndr]
    has [n_moments] entries. *)
Theorem successful_fit_is_consistent
        (simpson : list R -> list R -> R)
        (least_squares : (list R -> list R) -> list R -> OptimizeResult)
        (minimise_b_poloidal : MXH -> list R -> list R)
        (str_float : R -> string)
        (Rc Zc b_poloidal : list R) (verbose : bool) (shift : R) (w : world) :
  Zc <> [] -> length Rc = length Zc ->
  exists w1,
    set_shape simpson Rc Zc w = (Return tt, w1)
    /\ let fits :=
         least_squares (minimise_b_poloidal (obj w1)) (initial_params shift) in
       fits_success fits = true ->
       length (fits_x fits) = length (initial_params shift) ->
       exists w2,
         _set_shape_coefficients simpson least_squares minimise_b_poloidal
                                 str_float Rc Zc b_poloidal verbose shift w
         = (Return tt, w2)
         /\ let self := obj w2 in
            self_thetaR self = get_thetaR self (self_theta self)
            /\ self_dthetaR_dtheta self
               = get_dthetaR_dtheta self (self_theta self)
            /\ (self_fit_R self, self_fit_Z self)
               = get_flux_surface self (self_theta self) true
            /\ self_dthetaR_dr self
               = get_dthetaR_dr (self_theta self) (self_dcndr self)
                                (self_dsndr self)
            /\ self_theta self = self_theta_eq self
            /\ length (self_theta self) = length Zc
            /\ length (self_cn self) = n_moments
            /\ length (self_sn self) = n_moments
            /\ length (self_dcndr self) = n_moments
            /\ length (self_dsndr self) = n_moments.
Proof.
  intros Hne Hlen.
  destruct (set_shape_explicit simpson Rc Zc w Hne Hlen)
    as (lo & hi & theta & thetaR & Hmax & Hmin & Hth & Hset).
  destruct (harmonics_lengths simpson theta thetaR) as [Hc Hs].
  eexists. split; [exact Hset |]. intros fits Hsucc Hx.
  rewrite (@fit_run simpson least_squares minimise_b_poloidal str_float
                    Rc Zc b_poloidal verbose shift w _ Hset).
  fold fits.
  rewrite store_fit_success; [| exact Hsucc | rewrite Hx; simpl; lia].
  eexists. split; [reflexivity |].
  cbn [obj].
  destruct (fits_x fits) as [|x0 [|x1 [|x2 [|x3 [|x4 [|x5 [|x6 [|x7
    [|x8 [|x9 [|x10 [|x11 x]]]]]]]]]]]]; simpl in Hx; try lia.
  cbv zeta. unfold fitted, shaped.
  cbn -[get_thetaR get_dthetaR_dtheta get_flux_surface get_dthetaR_dr
        harmonics].
  repeat split; assumption.
Qed.

Lemma successful_fit_is_consistent_witness :
  diamond_Z <> []
  /\ length diamond_R = length diamond_Z
  /\ exists w2,
      _set_shape_coefficients trapezoid (accepting_solver 0) zero_residual
                              plain_float diamond_R diamond_Z [] false 0
                              unit_world
      = (Return tt, w2)
      /\ self_thetaR (obj w2) = get_thetaR (obj w2) (self_theta (obj w2)).
Proof.
  assert (Hne : diamond_Z <> []) by discriminate.
  split; [exact Hne | split; [reflexivity |]].
  destruct (successful_fit_is_consistent
              trapezoid (accepting_solver 0) zero_residual plain_float
              diamond_R diamond_Z [] false 0 unit_world Hne eq_refl)
    as (w1 & _ & Hfit).
  destruct (Hfit eq_refl eq_refl) as (w2 & Hrun & HtR & _).
  exists w2. split; [exact Hrun | exact HtR].
Defined.

Lemma clamp_to_unit_in_range (tol x : R) :
  -1 <= x <= 1 -> -1 <= clamp_to_unit tol x <= 1.
Proof.
  intros H. unfold clamp_to_unit.
  destruct (Rle_dec (Rabs (x - 1)) tol); [lra |].
  destruct (Rle_dec (Rabs (x + 1)) tol); lra.
Qed.

Lemma clamp_to_unit_fixes_units (tol : R) :
  0 <= tol < 1 -> clamp_to_unit tol 1 = 1 /\ clamp_to_unit tol (-1) = -1.
Proof.
  intros H. unfold clamp_to_unit. split.
  - destruct (Rle_dec (Rabs (1 - 1)) tol) as [|n]; [reflexivity |].
    exfalso. apply n. replace (1 - 1) with 0 by lra. rewrite Rabs_R0. lra.
  - destruct (Rle_dec (Rabs (-1 - 1)) tol) as [H1|_].
    + exfalso. revert H1. unfold Rabs. decide_R.
    + destruct (Rle_dec (Rabs (-1 + 1)) tol) as [|n]; [reflexivity |].
      exfalso. apply n. replace (-1 + 1) with 0 by lra.
      rewrite Rabs_R0. lra.
Qed.

Lemma normalised_height_entry
      (kappa r_minor Zmid : R) (Zc : list R) (i : nat) :
  (i < length Zc)%nat ->
  nth i (normalised_height kappa r_minor Zmid Zc) 0
  = clamp_to_unit height_tolerance
      ((nth i Zc 0 - Zmid) / (kappa * r_minor)).
Proof.
  intros Hi. unfold normalised_height.
  rewrite clamp_unit_pointwise
    by (unfold Np.atol_default, Np.rtol_default; lra).
  rewrite map_map.
  now rewrite (nth_map_in
                 (fun z => clamp_to_unit (Np.atol_default + Np.rtol_default)
                             ((z - Zmid) / (kappa * r_minor))) Zc i 0 0).
Qed.

(** X20: the argument of [arcsin] is in its domain.  For a contour that
    is not flat ([min(Z) < max(Z)]) and a non-zero [r_minor], every
    normalised height that [_set_shape_coefficients] computes lies between
    -1 and 1; it does not depend on [r_minor]; and the highest points get
    exactly 1, the lowest exactly -1. *)
Theorem normalised_height_in_arcsin_domain
        (Zc : list R) (lo hi r_minor : R) :
  Np.max Zc = Some hi -> Np.min Zc = Some lo -> lo < hi -> r_minor <> 0 ->
  let kappa := (hi - lo) / (2 * r_minor) in
  let Zmid := (hi + lo) / 2 in
  forall i, (i < length Zc)%nat ->
    -1 <= nth i (normalised_height kappa r_minor Zmid Zc) 0 <= 1
    /\ nth i (normalised_height kappa r_minor Zmid Zc) 0
       = nth i (normalised_height ((hi - lo) / 2) 1 Zmid Zc) 0
    /\ (nth i Zc 0 = hi ->
        nth i (normalised_height kappa r_minor Zmid Zc) 0 = 1)
    /\ (nth i Zc 0 = lo ->
        nth i (normalised_height kappa r_minor Zmid Zc) 0 = -1).
Proof.
  intros Hmax Hmin Hlt Hr kappa Zmid i Hi.
  assert (Hbd : lo <= nth i Zc 0 <= hi).
  { destruct Zc as [|z0 Zc]; [simpl in Hi; lia |].
    simpl in Hmax, Hmin. injection Hmax as <-. injection Hmin as <-.
    destruct (fold_max_spec Zc z0) as [_ Hub].
    destruct (fold_min_spec Zc z0) as [_ Hlb].
    split; [apply Hlb | apply Hub]; apply nth_In; exact Hi. }
  rewrite !normalised_height_entry by exact Hi.
  assert (Hq : forall z, (z - Zmid) / (kappa * r_minor)
                         = (2 * z - hi - lo) / (hi - lo)).
  { intros z. unfold kappa, Zmid. field. split; lra. }
  assert (Hq1 : forall z, (z - Zmid) / ((hi - lo) / 2 * 1)
                          = (2 * z - hi - lo) / (hi - lo)).
  { intros z. unfold Zmid. field. lra. }
  rewrite Hq, Hq1.
  assert (Htol : 0 <= height_tolerance < 1)
    by (unfold height_tolerance; lra).
  split; [| split; [reflexivity | split]].
  - apply clamp_to_unit_in_range.
    assert (H0 : 0 < hi - lo) by lra.
    split.
    + apply Rmult_le_reg_r with (hi - lo); [exact H0 |].
      unfold Rdiv. rewrite Rmult_assoc, Rinv_l by lra. lra.
    + apply Rmult_le_reg_r with (hi - lo); [exact H0 |].
      unfold Rdiv. rewrite Rmult_assoc, Rinv_l by lra. lra.
  - intros ->. replace ((2 * hi - hi - lo) / (hi - lo)) with 1
      by (field; lra).
    apply clamp_to_unit_fixes_units. exact Htol.
  - intros ->. replace ((2 * lo - hi - lo) / (hi - lo)) with (-1)
      by (field; lra).
    apply clamp_to_unit_fixes_units. exact Htol.
Qed.

Lemma normalised_height_in_arcsin_domain_witness :
  Np.max diamond_Z = Some 1
  /\ Np.min diamond_Z = Some (-1)
  /\ -1 <= nth 1 (normalised_height ((1 - -1) / (2 * 2)) 2 ((1 + -1) / 2)
                                    diamond_Z) 0 <= 1.
Proof.
  assert (Hmax : Np.max diamond_Z = Some 1).
  { simpl. unfold Rmax. decide_R. reflexivity. }
  assert (Hmin : Np.min diamond_Z = Some (-1)).
  { simpl. unfold Rmin. decide_R. reflexivity. }
  assert (Hlt : -1 < 1) by lra.
  assert (Hr : 2 <> 0) by lra.
  assert (Hi : (1 < length diamond_Z)%nat) by (simpl; lia).
  split; [exact Hmax | split; [exact Hmin |]].
  exact (proj1 (normalised_height_in_arcsin_domain
                  diamond_Z (-1) 1 2 Hmax Hmin Hlt Hr 1%nat Hi)).
Defined.

Lemma branch_range (ru : R) (th0 : list R) :
  Forall (fun t => - (PI / 2) <= t <= PI / 2) th0 ->
  forall Rc Zc,
    Forall (fun t => - (PI / 2) <= t <= 5 * PI / 2)
           (Np.where_
              (Np.map2 andb (map (fun r => Np.geb r ru) Rc)
                            (map (fun z => Np.ltb z 0) Zc))
              (map (fun t => 2 * PI + t)
                   (Np.where_ (map (fun r => Np.ltb r ru) Rc)
                              (map (fun t => PI - t) th0) th0))
              (Np.where_ (map (fun r => Np.ltb r ru) Rc)
                         (map (fun t => PI - t) th0) th0)).
Proof.
  pose proof PI_RGT_0 as Hpi.
  induction 1 as [|t th0 Ht _ IH]; intros Rc Zc.
  - destruct Rc, Zc; simpl; constructor.
  - destruct Rc as [|r Rc]; [simpl; constructor |].
    destruct Zc as [|z Zc]; [simpl; constructor |].
    simpl. constructor; [| apply IH].
    unfold Np.geb, Np.leb, Np.ltb.
    destruct (Rle_dec ru r), (Rlt_dec z 0), (Rlt_dec r ru); simpl; lra.
Qed.

(** X21: the angles start near 0.  For a contour that is not flat and a
    non-zero [r_minor] (so that [arcsin] stays in its domain), every theta
    before the shift of the first sample lies between -pi/2 and 5 pi/2,
    and after it the first theta lies in the interval (-pi, pi]. *)
Theorem first_angle_near_zero (Rc Zc : list R) (w : world) (lo hi : R) :
  Np.max Zc = Some hi -> Np.min Zc = Some lo -> lo < hi ->
  self_r_minor (obj w) <> 0 -> length Rc = length Zc ->
  exists kappa th thR th' thR' t0,
    contour_angles Rc Zc w = (Return (kappa, th, thR), w)
    /\ wrap_first th thR w = (Return (th', thR'), w)
    /\ Forall (fun t => - (PI / 2) <= t <= 5 * PI / 2) th
    /\ nth_error th' 0 = Some t0
    /\ - PI < t0 <= PI.
Proof.
  intros Hmax Hmin _ _ Hlen.
  pose proof PI_RGT_0 as Hpi.
  assert (Hne : Zc <> []) by (intros ->; discriminate).
  destruct (@R_upper_index_exists Rc Zc Hne Hlen) as (j & ru & Harg & HR).
  pose proof (@contour_angles_run Rc Zc w lo hi ru j Hmax Hmin Harg HR) as Hang.
  cbv zeta in Hang.
  match type of Hang with
  | _ = (Return (?k, ?th, ?thR), _) =>
      assert (Hrange : Forall (fun t => - (PI / 2) <= t <= 5 * PI / 2) th);
      [| set (theta := th) in *; set (thetaR := thR) in * ]
  end.
  { apply branch_range. apply Forall_forall. intros t Ht.
    apply in_map_iff in Ht. destruct Ht as (x & <- & _). apply asin_bound. }
  assert (Hcons : exists t rest tR restR,
             theta = t :: rest /\ thetaR = tR :: restR).
  { subst theta thetaR.
    destruct Zc as [|z Zc]; [congruence |].
    destruct Rc as [|r Rc]; [discriminate |].
    unfold normalised_height, normalised_radius, clamp_unit,
      Np.where_const. simpl. eauto 6. }
  destruct Hcons as (t & rest & tR & restR & Et & EtR).
  rewrite Et in Hrange. inversion Hrange as [|? ? Ht _]; subst.
  destruct (Rlt_dec PI t) as [Hgt | Hle].
  - exists ((hi - lo) / (2 * self_r_minor (obj w))), theta, thetaR,
      ((t + -2 * PI) :: rest), ((tR + -2 * PI) :: restR), (t + -2 * PI).
    split; [exact Hang | split; [| split; [| split]]].
    + rewrite Et, EtR. unfold wrap_first, bind, getitem, additem0, ret.
      simpl. unfold Np.gtb. now rewrite ltb_true by exact Hgt.
    + rewrite Et. exact Hrange.
    + reflexivity.
    + lra.
  - exists ((hi - lo) / (2 * self_r_minor (obj w))), theta, thetaR,
      (t :: rest), (tR :: restR), t.
    split; [exact Hang | split; [| split; [| split]]].
    + rewrite Et, EtR. unfold wrap_first, bind, getitem, additem0, ret.
      simpl. unfold Np.gtb, Np.ltb.
      destruct (Rlt_dec PI t); [contradiction | reflexivity].
    + rewrite Et. exact Hrange.
    + reflexivity.
    + lra.
Qed.

Lemma first_angle_near_zero_witness :
  Np.max diamond_Z = Some 1
  /\ Np.min diamond_Z = Some (-1)
  /\ exists kappa th thR th' thR' t0,
      contour_angles diamond_R diamond_Z unit_world
      = (Return (kappa, th, thR), unit_world)
      /\ wrap_first th thR unit_world = (Return (th', thR'), unit_world)
      /\ nth_error th' 0 = Some t0
      /\ - PI < t0 <= PI.
Proof.
  assert (Hmax : Np.max diamond_Z = Some 1).
  { simpl. unfold Rmax. decide_R. reflexivity. }
  assert (Hmin : Np.min diamond_Z = Some (-1)).
  { simpl. unfold Rmin. decide_R. reflexivity. }
  assert (Hlt : -1 < 1) by lra.
  assert (Hr : self_r_minor (obj unit_world) <> 0) by (simpl; lra).
  split; [exact Hmax | split; [exact Hmin |]].
  destruct (first_angle_near_zero diamond_R diamond_Z unit_world (-1) 1
                                  Hmax Hmin Hlt Hr eq_refl)
    as (kappa & th & thR & th' & thR' & t0 & H1 & H2 & _ & H3 & H4).
  exists kappa, th, thR, th', thR', t0. repeat split; assumption || apply H4.
Defined.

(** ** The helpers of the tests *)

Lemma assert_within_ten_percent_passes (key : string) (a b : R) :
  assert_within_ten_percent key a b = Passed
  <-> a = b
      \/ (a <> 0 /\ b <> 0
          /\ Rabs (a - b) < 5 / 10 * Rmin (Rabs a) (Rabs b)).
Proof.
  assert (Hmin0 : Rmin (Rabs a) (Rabs b) = 0 <-> a = 0 \/ b = 0).
  { unfold Rmin. destruct (Rle_dec (Rabs a) (Rabs b)) as [Hle | Hgt].
    - split.
      + intros H. left. destruct (Req_dec a 0) as [|Ha]; [assumption |].
        apply Rabs_no_R0 in Ha. contradiction.
      + intros [-> | ->]; [apply Rabs_R0 |].
        rewrite Rabs_R0 in Hle. pose proof (Rabs_pos a). lra.
    - split.
      + intros H. right. destruct (Req_dec b 0) as [|Hb]; [assumption |].
        apply Rabs_no_R0 in Hb. contradiction.
      + intros [-> | ->]; [| apply Rabs_R0].
        rewrite Rabs_R0 in Hgt. pose proof (Rabs_pos b). lra. }
  assert (Hdiff0 : Rabs (a - b) = 0 <-> a = b).
  { split.
    - intros H. destruct (Req_dec (a - b) 0) as [|Hn]; [lra |].
      apply Rabs_no_R0 in Hn. contradiction.
    - intros ->. replace (b - b) with 0 by lra. apply Rabs_R0. }
  unfold assert_within_ten_percent.
  destruct (Req_EM_T (Rmin (Rabs a) (Rabs b)) 0) as [Hz | Hnz].
  - destruct (Req_EM_T (Rabs (a - b)) 0) as [Hd | Hd].
    + split; [intros _; left; now apply Hdiff0 | reflexivity].
    + split; [discriminate |].
      intros [Heq | (Ha & Hb & _)].
      * exfalso. apply Hd. now apply Hdiff0.
      * exfalso. apply Hmin0 in Hz. tauto.
  - assert (Hpos : 0 < Rmin (Rabs a) (Rabs b)).
    { pose proof (Rabs_pos a). pose proof (Rabs_pos b).
      unfold Rmin in *. destruct (Rle_dec (Rabs a) (Rabs b)); lra. }
    assert (Hq : Rabs (a - b) / Rmin (Rabs a) (Rabs b) < 5 / 10
                 <-> Rabs (a - b) < 5 / 10 * Rmin (Rabs a) (Rabs b)).
    { split; intros H.
      - apply Rmult_lt_reg_r with (/ Rmin (Rabs a) (Rabs b));
          [now apply Rinv_0_lt_compat |].
        rewrite Rmult_assoc, Rinv_r by lra. unfold Rdiv in H. lra.
      - unfold Rdiv.
        apply Rmult_lt_reg_r with (Rmin (Rabs a) (Rabs b)); [exact Hpos |].
        rewrite Rmult_assoc, Rinv_l by lra. lra. }
    destruct (Rlt_dec (Rabs (a - b) / Rmin (Rabs a) (Rabs b)) (5 / 10))
      as [Hlt | Hge].
    + split; [| reflexivity]. intros _. right.
      split; [| split; [| now apply Hq]].
      * intros ->. apply Hnz. apply Hmin0. now left.
      * intros ->. apply Hnz. apply Hmin0. now right.
    + split; [discriminate |].
      intros [Heq | (_ & _ & H)].
      * exfalso. apply Hge. apply Hq.
        apply Hdiff0 in Heq. rewrite Heq. lra.
      * exfalso. apply Hge. now apply Hq.
Qed.

(** X22: despite its name and its message, [assert_within_ten_percent]
    accepts two values exactly when they are equal, or both are non-zero
    and differ by less than half of the smaller modulus.  So values that
    differ by ten to fifty percent of the smaller one pass. *)
Theorem assert_within_ten_percent_accepts_fifty
        (key : string) (a b : R) :
  (assert_within_ten_percent key a b = Passed
   <-> a = b
       \/ (a <> 0 /\ b <> 0
           /\ Rabs (a - b) < 5 / 10 * Rmin (Rabs a) (Rabs b)))
  /\ (assert_within_ten_percent key a b <> Passed ->
      assert_within_ten_percent key a b
      = AssertionError (key ++ " not within 10 percent"))
  /\ (0 < a -> forall e, 1 / 10 <= e < 5 / 10 ->
      assert_within_ten_percent key a (a * (1 + e)) = Passed).
Proof.
  split; [apply assert_within_ten_percent_passes | split].
  - intros Hn. unfold assert_within_ten_percent in *.
    destruct (Req_EM_T (Rmin (Rabs a) (Rabs b)) 0).
    + destruct (Req_EM_T (Rabs (a - b)) 0); [congruence | reflexivity].
    + destruct (Rlt_dec (Rabs (a - b) / Rmin (Rabs a) (Rabs b)) (5 / 10));
        [congruence | reflexivity].
  - intros Ha e He. apply assert_within_ten_percent_passes. right.
    assert (Hb : 0 < a * (1 + e)) by nra.
    split; [lra | split; [lra |]].
    rewrite (Rabs_pos_eq a) by lra.
    rewrite (Rabs_pos_eq (a * (1 + e))) by lra.
    rewrite Rmin_left by nra.
    replace (a - a * (1 + e)) with (- (a * e)) by ring.
    rewrite Rabs_Ropp, Rabs_pos_eq by nra. nra.
Qed.

Lemma assert_within_ten_percent_accepts_fifty_witness :
  0 < 10
  /\ 1 / 10 <= 4 / 10 < 5 / 10
  /\ assert_within_ten_percent "q" 10 (10 * (1 + 4 / 10)) = Passed.
Proof.
  assert (Ha : 0 < 10) by lra.
  assert (He : 1 / 10 <= 4 / 10 < 5 / 10) by lra.
  split; [exact Ha | split; [exact He |]].
  exact (proj2 (proj2 (assert_within_ten_percent_accepts_fifty "q" 10 10))
               Ha (4 / 10) He).
Defined.

Lemma derive_div (f g : R -> R) (x l1 l2 : R) :
  derivable_pt_lim f x l1 -> derivable_pt_lim g x l2 -> g x <> 0 ->
  derivable_pt_lim (fun u => f u / g u) x
                   ((l1 * g x - l2 * f x) / (g x) ^ 2).
Proof.
  intros Hf Hg Hn.
  apply derive_as with (f := (f / g)%F)
                       (l := (l1 * g x - l2 * f x) / Rsqr (g x)).
  - now apply derivable_pt_lim_div.
  - reflexivity.
  - unfold Rsqr. f_equal. ring.
Qed.

Lemma derive_half (x : R) : derivable_pt_lim (fun u => u / 2) x (/ 2).
Proof.
  apply derive_as with (f := fun u => / 2 * u) (l := / 2).
  - apply derive_linear.
  - intros z. unfold Rdiv. ring.
  - reflexivity.
Qed.

Lemma tan_half_derivative (x : R) :
  cos (x / 2) <> 0 ->
  derivable_pt_lim (fun u => tan (u / 2)) x ((1 + tan (x / 2) ^ 2) / 2).
Proof.
  intros Hc.
  apply derive_as
    with (f := fun u => sin (u / 2) / cos (u / 2))
         (l := ((cos (x / 2) * / 2) * cos (x / 2)
                - (- sin (x / 2) * / 2) * sin (x / 2)) / cos (x / 2) ^ 2).
  - apply (derive_div (fun u => sin (u / 2)) (fun u => cos (u / 2))).
    + apply (@derive_sin_of (fun u => u / 2)). apply derive_half.
    + apply (@derive_cos_of (fun u => u / 2)). apply derive_half.
    + exact Hc.
  - reflexivity.
  - unfold tan. field. exact Hc.
Qed.

(** The angle A = 2 arctan(sqrt((X - 1) / (X + 1)) tan(theta / 2)) of
    [circle_dalphadr] has the derivative sqrt(X^2 - 1) / (X + cos theta). *)
Lemma circle_angle_derivative (X x : R) :
  1 < X -> cos (x / 2) <> 0 ->
  derivable_pt_lim
    (fun u => 2 * atan (sqrt ((X - 1) / (X + 1)) * tan (u / 2))) x
    (sqrt (X ^ 2 - 1) / (X + cos x)).
Proof.
  intros HX Hc.
  set (k := sqrt ((X - 1) / (X + 1))).
  assert (Hpos : 0 <= (X - 1) / (X + 1)).
  { apply Rmult_le_pos; [lra |]. apply Rlt_le, Rinv_0_lt_compat. lra. }
  assert (Hk2 : k ^ 2 = (X - 1) / (X + 1)).
  { unfold k. now apply pow2_sqrt. }
  assert (HD : sqrt (X ^ 2 - 1) = k * (X + 1)).
  { unfold k. rewrite <- (sqrt_pow2 (X + 1)) at 2 by lra.
    rewrite <- sqrt_mult by (try exact Hpos; nra).
    f_equal. field. lra. }
  assert (Hcos : cos x = 2 * cos (x / 2) ^ 2 - 1).
  { replace x with (2 * (x / 2)) at 1 by field. rewrite cos_2a_cos. ring. }
  assert (Hsin : sin (x / 2) ^ 2 = 1 - cos (x / 2) ^ 2).
  { pose proof (sin2_cos2 (x / 2)) as H. unfold Rsqr in H. lra. }
  apply derive_as
    with (f := fun u => 2 * atan (k * tan (u / 2)))
         (l := 2 * (/ (1 + (k * tan (x / 2)) ^ 2)
                    * (k * ((1 + tan (x / 2) ^ 2) / 2)))).
  - apply (@derive_scal 2 (fun u => atan (k * tan (u / 2)))).
    apply derive_as
      with (f := comp atan (fun u => k * tan (u / 2)))
           (l := / (1 + (k * tan (x / 2)) ^ 2)
                 * (k * ((1 + tan (x / 2) ^ 2) / 2))).
    + apply derivable_pt_lim_comp.
      * apply (@derive_scal k (fun u => tan (u / 2))).
        now apply tan_half_derivative.
      * apply derivable_pt_lim_atan.
    + reflexivity.
    + reflexivity.
  - reflexivity.
  - rewrite HD, Hcos.
    replace ((k * tan (x / 2)) ^ 2)
      with ((X - 1) / (X + 1) * ((1 - cos (x / 2) ^ 2) / cos (x / 2) ^ 2))
      by (rewrite <- Hk2, <- Hsin; unfold tan; field; exact Hc).
    replace (tan (x / 2) ^ 2)
      with ((1 - cos (x / 2) ^ 2) / cos (x / 2) ^ 2)
      by (rewrite <- Hsin; unfold tan; field; exact Hc).
    assert (Hc2 : 0 < cos (x / 2) ^ 2).
    { assert (H := pow2_ge_0 (cos (x / 2))).
      destruct H as [H | H]; [exact H |].
      exfalso. apply Hc. nra. }
    field. repeat split; try lra; nra.
Qed.

(** X23: the two analytic expressions of the metric-term tests agree
    with each other: for a local aspect ratio X > 1 and
    D = sqrt(X^2 - 1), as the test sets them, [circle_d2alphadrdtheta] is
    the derivative along theta of [circle_dalphadr] at every angle where
    tan(theta / 2) is defined. *)
Theorem circle_d2alphadrdtheta_differentiates_dalphadr
        (dqdr q mu0dPdr r R0 dpsidr X theta : R) :
  1 < X -> cos (theta / 2) <> 0 -> r <> 0 -> dpsidr <> 0 ->
  let D := sqrt (X ^ 2 - 1) in
  derivable_pt_lim
    (fun u => circle_dalphadr dqdr q D mu0dPdr r R0 dpsidr X u) theta
    (circle_d2alphadrdtheta dqdr q D mu0dPdr r R0 dpsidr X theta).
Proof.
  intros HX Hc Hr Hpsi D.
  assert (HD2 : D ^ 2 = X ^ 2 - 1) by (unfold D; apply pow2_sqrt; nra).
  assert (HDpos : 0 < D) by (unfold D; apply sqrt_lt_R0; nra).
  pose proof (COS_bound theta) as Hcos.
  assert (Hden : X + cos theta <> 0) by lra.
  pose proof (circle_angle_derivative X theta HX Hc) as HA. fold D in HA.
  set (A := fun u => 2 * atan (sqrt ((X - 1) / (X + 1)) * tan (u / 2))) in *.
  set (C1 := mu0dPdr * r ^ 2 * R0 / dpsidr ^ 2 * (q * D / (r * X))).
  set (C2 := 2 * q / r * (X / D)).
  apply derive_as
    with (f := fun u => dqdr * A u
                        + C1 * ((fun v => X * v) u
                                + (sin u + (- X) * A u))
                        + (- 1) * ((C2 * sin u) / (X + cos u)))
         (l := dqdr * (D / (X + cos theta))
               + C1 * (X + (cos theta + (- X) * (D / (X + cos theta))))
               + (- 1) * (((C2 * cos theta) * (X + cos theta)
                           - (0 + - sin theta) * (C2 * sin theta))
                          / (X + cos theta) ^ 2)).
  - apply (@derive_plus
             (fun u => dqdr * A u
                       + C1 * ((fun v => X * v) u + (sin u + (- X) * A u)))
             (fun u => (- 1) * ((C2 * sin u) / (X + cos u)))).
    + apply (@derive_plus (fun u => dqdr * A u)
               (fun u => C1 * ((fun v => X * v) u + (sin u + (- X) * A u)))).
      * apply (@derive_scal dqdr A). exact HA.
      * apply (@derive_scal C1
                 (fun u => (fun v => X * v) u + (sin u + (- X) * A u))).
        apply (@derive_plus (fun v => X * v)
                            (fun u => sin u + (- X) * A u)).
        -- apply derive_linear.
        -- apply (@derive_plus sin (fun u => (- X) * A u)).
           ++ apply derivable_pt_lim_sin.
           ++ apply (@derive_scal (- X) A). exact HA.
    + apply (@derive_scal (- 1) (fun u => (C2 * sin u) / (X + cos u))).
      apply (derive_div (fun u => C2 * sin u) (fun u => X + cos u)).
      * apply (@derive_scal C2 sin). apply derivable_pt_lim_sin.
      * apply (@derive_plus (fun _ => X) cos).
        -- apply derive_const.
        -- apply derivable_pt_lim_cos.
      * exact Hden.
  - intros z. unfold circle_dalphadr, A, C1, C2. cbv zeta. field.
    repeat split; try assumption; try lra.
    pose proof (COS_bound z). lra.
  - unfold circle_d2alphadrdtheta, C1, C2.
    replace (1 / D ^ 2) with (1 / (X ^ 2 - 1)) by (now rewrite HD2).
    replace (X / D) with (X * D / (X ^ 2 - 1))
      by (rewrite <- HD2; field; lra).
    replace ((0 + - sin theta)
             * (2 * q / r * (X * D / (X ^ 2 - 1)) * sin theta))
      with (- (2 * q / r * (X * D / (X ^ 2 - 1))) * (1 - cos theta ^ 2)).
    2:{ pose proof (sin2_cos2 theta) as H. unfold Rsqr in H.
        assert (Hs : 1 - cos theta ^ 2 = sin theta * sin theta)
          by (simpl; lra).
        rewrite Hs. ring. }
    field. repeat split; try assumption; try lra; nra.
Qed.

Lemma circle_d2alphadrdtheta_differentiates_dalphadr_witness :
  1 < 3
  /\ cos (0 / 2) <> 0
  /\ derivable_pt_lim
       (fun u => circle_dalphadr 1 2 (sqrt (3 ^ 2 - 1)) 0 1 3 1 3 u) 0
       (circle_d2alphadrdtheta 1 2 (sqrt (3 ^ 2 - 1)) 0 1 3 1 3 0).
Proof.
  assert (HX : 1 < 3) by lra.
  assert (Hc : cos (0 / 2) <> 0).
  { replace (0 / 2) with 0 by lra. rewrite cos_0. lra. }
  assert (H1 : 1 <> 0) by lra.
  split; [exact HX | split; [exact Hc |]].
  exact (circle_d2alphadrdtheta_differentiates_dalphadr
           1 2 0 1 3 1 3 0 HX Hc H1 H1).
Defined.
